(** * EXCEL-Translator-Pro: text extraction, batched translation and
      rehydration of a spreadsheet package

    A shallow embedding of [src/services/excelService.ts],
    [src/services/geminiService.ts], of [processFile] of the App
    component and of the file picker of the Dropzone component, with
    the properties of the specification that concern them and further
    properties of the code.

    JavaScript strings are sequences of UTF-16 code units; the regular
    expressions of the source carry no [u] flag, so every character
    class and every [substring] works on code units.  A string is
    therefore a [list N].

    The run of [processFile] is given twice.  [processFile] has the
    reads of the extraction complete in the order in which they were
    started and hands the archive over as its parts; [processFile_in]
    takes the order in which the reads complete as it comes and hands
    over the serialized archive, the serialization being left open.
    The first is the second at the order of the start
    ([processFile_in_start_order]). *)

From Stdlib Require Import String Ascii DecimalString.
From stdpp Require Import gmap list fin_maps.

Local Open Scope list_scope.
Set Warnings "-clear-no-such-hyp".

(** ** Strings *)

Module JS.

Definition str : Type := list N.

(** An ASCII literal as a JavaScript string. *)
Definition lit (s : string) : str :=
  List.map N_of_ascii (list_ascii_of_string s).

(** The code units of the five XML metacharacters (less-than,
    greater-than, ampersand, apostrophe, double quote) and of the
    underscore. *)
Definition ch_lt : N := 60%N.
Definition ch_gt : N := 62%N.
Definition ch_amp : N := 38%N.
Definition ch_apos : N := 39%N.
Definition ch_quot : N := 34%N.
Definition ch_us : N := 95%N.

(** [s.startsWith(p)], returning what follows the prefix. *)
Fixpoint strip_prefix (p s : str) : option str :=
  match p with
  | [] => Some s
  | a :: p' =>
      match s with
      | [] => None
      | b :: s' => if N.eqb a b then strip_prefix p' s' else None
      end
  end.

(** First occurrence of the literal [p] in [s]: the text before it and
    the text after it ([s.indexOf(p)], and what a lazy [[\s\S]*?]
    followed by a literal does). *)
Fixpoint find_sub (p s : str) : option (str * str) :=
  match strip_prefix p s with
  | Some r => Some ([], r)
  | None =>
      match s with
      | [] => None
      | c :: s' =>
          match find_sub p s' with
          | Some (b, a) => Some (c :: b, a)
          | None => None
          end
      end
  end.

(** [s.includes(p)]. *)
Definition includes (p s : str) : bool :=
  match find_sub p s with Some _ => true | None => false end.

(** The longest prefix of characters satisfying [f], and the rest: what
    a greedy [[^x]*] consumes. *)
Fixpoint span (f : N -> bool) (s : str) : str * str :=
  match s with
  | [] => ([], [])
  | c :: s' =>
      if f c then let '(a, b) := span f s' in (c :: a, b) else ([], s)
  end.

(** *** Global regular-expression scans

    [match_at s] tries the expression at the head of [s] and gives the
    captured data with the text after the match.  A scan with the [g]
    flag tries every position from left to right and resumes after each
    match; this is what the [while (regex.exec(xml))] loops and
    [String.prototype.replace] with a global expression do.  None of
    the expressions of the source matches the empty string. *)

Section Scan.
Context {M : Type}.
Variable match_at : str -> option (M * str).

Inductive seg : Type :=
| Lit (c : N)
| Hit (m : M).

Fixpoint scan_fuel (fuel : nat) (s : str) : list seg :=
  match fuel with
  | O => List.map Lit s
  | S fuel' =>
      match match_at s with
      | Some (m, rest) => Hit m :: scan_fuel fuel' rest
      | None =>
          match s with
          | [] => []
          | c :: s' => Lit c :: scan_fuel fuel' s'
          end
      end
  end.

Definition scan (s : str) : list seg := scan_fuel (S (length s)) s.

(** The matches in order: the successive results of [regex.exec]. *)
Definition hits (l : list seg) : list M :=
  omap (fun x => match x with Hit m => Some m | Lit _ => None end) l.

(** The leftmost match: [s.match(regex)] without the [g] flag, with
    the text before it and the text after it. *)
Fixpoint search (s : str) : option (str * M * str) :=
  match match_at s with
  | Some (m, rest) => Some ([], m, rest)
  | None =>
      match s with
      | [] => None
      | c :: s' =>
          match search s' with
          | Some (b, m, a) => Some (c :: b, m, a)
          | None => None
          end
      end
  end.
End Scan.

Arguments Lit {M} c.
Arguments Hit {M} m.

(** [s.replace(regex, cb)] with the [g] flag: every match is replaced
    by what the callback returns for it. *)
Definition replace_g {M} (match_at : str -> option (M * str))
    (cb : M -> str) (s : str) : str :=
  List.concat
    (List.map (fun x => match x with Lit c => [c] | Hit m => cb m end)
       (scan match_at s)).

(** The same when the callback may throw ([None]): the matches are
    visited from left to right and the first exception leaves
    [replace]. *)
Definition replace_g_throw {M} (match_at : str -> option (M * str))
    (cb : M -> option str) (s : str) : option str :=
  match mapM (fun x => match x with Lit c => Some [c] | Hit m => cb m end)
          (scan match_at s) with
  | Some pieces => Some (List.concat pieces)
  | None => None
  end.

(** [s.replace(regex, cb)] without the [g] flag: the leftmost match
    only. *)
Definition replace_first_throw {M} (match_at : str -> option (M * str))
    (cb : M -> option str) (s : str) : option str :=
  match search match_at s with
  | Some (before, m, after) =>
      match cb m with
      | Some r => Some (before ++ r ++ after)
      | None => None
      end
  | None => Some s
  end.

(** [s.replace(/p/g, r)] for a literal pattern and a literal
    replacement. *)
Definition lit_at (p : str) (s : str) : option (unit * str) :=
  match strip_prefix p s with
  | Some r => Some (tt, r)
  | None => None
  end.

Definition replace_lit (p r s : str) : str :=
  replace_g (lit_at p) (fun _ => r) s.

(** The class [\s] of ECMAScript: white space and line terminators. *)
Definition is_space (c : N) : bool :=
  (c =? 9)%N || (c =? 10)%N || (c =? 11)%N || (c =? 12)%N || (c =? 13)%N
  || (c =? 32)%N || (c =? 0xa0)%N || (c =? 0x1680)%N
  || ((0x2000 <=? c)%N && (c <=? 0x200a)%N)
  || (c =? 0x2028)%N || (c =? 0x2029)%N || (c =? 0x202f)%N
  || (c =? 0x205f)%N || (c =? 0x3000)%N || (c =? 0xfeff)%N.

(** The characters the dot does not match: the line terminators. *)
Definition is_line_terminator (c : N) : bool :=
  (c =? 10)%N || (c =? 13)%N || (c =? 0x2028)%N || (c =? 0x2029)%N.

(** [String(n)] for a natural number. *)
Definition of_nat (n : nat) : str :=
  lit (NilEmpty.string_of_uint (Nat.to_uint n)).

(** [array.slice(start, end)], for [start <= end]. *)
Definition slice {A} (start end_ : nat) (l : list A) : list A :=
  take (end_ - start) (drop start l).

(** What an asynchronous function gives: a value, or a thrown
    exception of type [E]. *)
Inductive outcome (E A : Type) : Type :=
| Ok (a : A)
| Throw (e : E).
Arguments Ok {E A} a.
Arguments Throw {E A} e.

End JS.

(** ** The translation collaborator ([geminiService.ts])

    Declared first because [excelService.ts] imports it. *)

Module Gemini.
Import JS.

(** What the catch block reads from a rejected request: the code taken
    from [errBody.error.code], [errBody.code] or [errBody.status] (a
    string, a number or nothing), the text [JSON.stringify(errBody)],
    and the [message] of the rejection.  A rejection of which
    [JSON.stringify] makes no text is not of this type, see
    [Unserializable] below. *)
Inductive err_code : Type :=
| CodeNone
| CodeStr (s : str)
| CodeNum (n : N).

Record api_error : Type := {
  err_code_of : err_code;
  err_json : str;
  err_message : str
}.

(** The exceptions that cross the boundaries of the modelled code.
    The one raised by the archive library carries the message it was
    raised with; [TypeError] is what the engine raises when a method
    is called on [undefined]; [CatchTypeError] is the error of the
    engine that leaves the catch block of [translateBatch] when
    [JSON.stringify(errBody)] throws or gives [undefined], with the
    message of the engine. *)
Inductive exn : Type :=
| ApiKeyMissing
| EmptyResponse
| QuotaExceeded
| RateLimitExceeded
| ApiFailure (e : api_error)
| ArchiveLoadError (msg : str)
| NoFileLoaded
| TypeError
| CatchTypeError (msg : str).

(** [error.message], which the caller inspects.  Every exception of
    this type has one: a rejection of the service that is thrown again
    as it is, is taken to be an error object. *)
Definition message (e : exn) : str :=
  match e with
  | ApiKeyMissing =>
      lit "API Key is missing. Please ensure process.env.API_KEY is available."
  | EmptyResponse => lit "Empty response from Gemini"
  | QuotaExceeded => lit "API Daily Quota Exceeded. Please try again tomorrow."
  | RateLimitExceeded => lit "API Rate Limit Exceeded. Please try again later."
  | ApiFailure e => err_message e
  | ArchiveLoadError msg => msg
  | NoFileLoaded => lit "No file loaded"
  | TypeError =>
      lit "Cannot read properties of undefined (reading 'replace')"
  | CatchTypeError msg => msg
  end.

(** One element of the parsed response; it may be [null] ([None]), and
    its [id] may be absent. *)
Record item : Type := {
  id : option str;
  translatedText : str
}.

(** What [JSON.parse] followed by [Array.isArray] finds. *)
Inductive parsed : Type :=
| SyntaxError
| NotArray
| Items (l : list (option item)).

(** What one request gives: a response with its [text] (possibly
    absent), or a rejection.  [Unserializable] is a rejection of which
    [JSON.stringify] makes no text: either it throws (a cyclic object,
    a big integer), or it gives [undefined] (the rejection is
    [undefined], a function or a symbol) and [msg.includes] is then
    called on [undefined]; in both cases the engine raises a
    [TypeError], whose message is kept. *)
Inductive api_outcome : Type :=
| Response (text : option str)
| Rejected (e : api_error)
| Unserializable (type_error : str).

Definition maxRetries : nat := 5.

Definition isQuotaExhausted (e : api_error) : bool :=
  includes (lit "RESOURCE_EXHAUSTED") (err_json e)
  || match err_code_of e with
     | CodeStr s => bool_decide (s = lit "RESOURCE_EXHAUSTED")
     | _ => false
     end.

Definition isRateLimit (e : api_error) : bool :=
  includes (lit "429") (err_json e)
  || match err_code_of e with CodeNum n => (n =? 429)%N | _ => false end.

Definition isOverloaded (e : api_error) : bool :=
  match err_code_of e with CodeNum n => (n =? 503)%N | _ => false end.

Section Collaborator.
(** The environment: whether the key is configured, the parser, and
    what the service answers to the request of each attempt. *)
Variable api_key_present : bool.
Variable JSON_parse : str -> parsed.
Variable generateContent : nat -> api_outcome.

(** The [Map] built from the parsed items, as the list of its [set]
    calls; [get] finds the last one. *)
Definition collect (l : list (option item)) : list (str * str) :=
  omap (fun it =>
          match it with
          | Some it' =>
              match id it' with
              | Some k => Some (k, translatedText it')
              | None => None
              end
          | None => None
          end) l.

Fixpoint map_get (k : str) (sets : list (str * str)) : option str :=
  match sets with
  | [] => None
  | (k', v) :: rest =>
      match map_get k rest with
      | Some w => Some w
      | None => if bool_decide (k' = k) then Some v else None
      end
  end.

(** [translationMap.get(String(index)) || texts[index]]: the empty
    string is falsy as well. *)
Definition resolve (sets : list (str * str)) (index : nat) (text : str)
  : str :=
  match map_get (of_nat index) sets with
  | Some (c :: v) => c :: v
  | _ => text
  end.

(** The body of the retry loop, for the attempts that remain.  The
    error thrown on an empty response is caught by the enclosing
    catch block like a rejection; it has no code, its JSON text is
    that of an object without fields, so it is thrown again.  The
    pauses between the attempts are not modelled. *)
Fixpoint attempts (remaining attempt : nat) (texts : list str)
  : outcome exn (list str) :=
  match remaining with
  | O => Ok texts
  | S remaining' =>
      match generateContent attempt with
      | Response None => Throw EmptyResponse
      | Response (Some []) => Throw EmptyResponse
      | Response (Some jsonText) =>
          match JSON_parse jsonText with
          | SyntaxError => Ok texts
          | NotArray => Ok texts
          | Items l => Ok (imap (resolve (collect l)) texts)
          end
      | Rejected e =>
          if isQuotaExhausted e then Throw QuotaExceeded
          else if (isRateLimit e || isOverloaded e)
                  && Nat.ltb attempt maxRetries
          then attempts remaining' (S attempt) texts
          else if isRateLimit e then Throw RateLimitExceeded
          else Throw (ApiFailure e)
      | Unserializable type_error => Throw (CatchTypeError type_error)
      end
  end.

Definition translateBatch (texts : list str) : outcome exn (list str) :=
  if api_key_present then attempts (S maxRetries) 0 texts
  else Throw ApiKeyMissing.
End Collaborator.

End Gemini.

(** ** The processor ([excelService.ts]) *)

Module Excel.
Import JS Gemini.

Definition in_range (lo hi c : N) : bool := ((lo <=? c) && (c <=? hi))%N.

(** The character class of [hasJapanese]. *)
Definition japanese_unit (c : N) : bool :=
  in_range 0x3000 0x303f c || in_range 0x3040 0x309f c
  || in_range 0x30a0 0x30ff c || in_range 0xff00 0xff9f c
  || in_range 0x4e00 0x9faf c || in_range 0x3400 0x4dbf c.

Definition hasJapanese (text : str) : bool := existsb japanese_unit text.

(** *** Entity escaping *)

Definition ent_lt : str := Eval cbv in lit "&lt;".
Definition ent_gt : str := Eval cbv in lit "&gt;".
Definition ent_amp : str := Eval cbv in lit "&amp;".
Definition ent_apos : str := Eval cbv in lit "&apos;".
Definition ent_quot : str := Eval cbv in lit "&quot;".

(** The callback of [escapeXml], called on each character of the class
    of the five metacharacters; any other character is not matched and
    stays. *)
Definition escape_unit (c : N) : str :=
  if (c =? ch_lt)%N then ent_lt
  else if (c =? ch_gt)%N then ent_gt
  else if (c =? ch_amp)%N then ent_amp
  else if (c =? ch_apos)%N then ent_apos
  else if (c =? ch_quot)%N then ent_quot
  else [c].

Definition escapeXml (unsafe : str) : str := flat_map escape_unit unsafe.

Definition decodeXml (text : str) : str :=
  replace_lit ent_quot [ch_quot]
    (replace_lit ent_apos [ch_apos]
       (replace_lit ent_amp [ch_amp]
          (replace_lit ent_gt [ch_gt]
             (replace_lit ent_lt [ch_lt] text)))).

(** *** The regular expressions *)

Definition not_gt (c : N) : bool := negb (c =? ch_gt)%N.
Definition not_quot (c : N) : bool := negb (c =? ch_quot)%N.

Definition si_open : str := Eval cbv in lit "<si>".
Definition si_close : str := Eval cbv in lit "</si>".
Definition rph_open : str := Eval cbv in lit "<rPh>".
Definition rph_close : str := Eval cbv in lit "</rPh>".
Definition sheet_open : str := Eval cbv in lit "<sheet".
Definition name_open : str := Eval cbv in lit "name=" ++ [ch_quot].
Definition tag_t : str := Eval cbv in lit "t".
Definition tag_at_ : str := Eval cbv in lit "a:t".

(** A string-item block: [<si>], lazily anything, [</si>]; the capture
    is the content. *)
Definition si_at (s : str) : option (str * str) :=
  match strip_prefix si_open s with
  | Some r => find_sub si_close r
  | None => None
  end.

(** A phonetic-guide block: [<rPh>], lazily anything, [</rPh>]; the
    content is given although the expression does not capture it. *)
Definition rph_at (s : str) : option (str * str) :=
  match strip_prefix rph_open s with
  | Some r => find_sub rph_close r
  | None => None
  end.

(** The opening tag: the bracket and the name, then either the closing
    bracket at once, or the optional group, which is one white-space
    character and everything up to the first closing bracket.  The
    greedy class of the group cannot stop earlier, since what follows
    it must be that bracket. *)
Definition open_tag_at (tagName : str) (s : str) : option (str * str) :=
  match strip_prefix (ch_lt :: tagName) s with
  | Some (c :: r) =>
      if (c =? ch_gt)%N then Some (ch_lt :: tagName ++ [c], r)
      else if is_space c then
        match span not_gt r with
        | (attrs, g :: r') => Some (ch_lt :: tagName ++ c :: attrs ++ [g], r')
        | (_, []) => None
        end
      else None
  | _ => None
  end.

Definition close_tag (tagName : str) : str :=
  ch_lt :: 47%N :: tagName ++ [ch_gt].

(** An element with text content: the opening tag, lazily anything, the
    closing tag; the captures are the opening tag and the content.  The
    two tag names of the source, [t] and [a:t], have no character that
    is special in an expression. *)
Definition tag_at (tagName : str) (s : str) : option ((str * str) * str) :=
  match open_tag_at tagName s with
  | Some (openTag, r) =>
      match find_sub (close_tag tagName) r with
      | Some (inner, rest) => Some ((openTag, inner), rest)
      | None => None
      end
  | None => None
  end.

(** A sheet declaration: [<sheet], at least one white-space character,
    then everything up to the first closing bracket; the match is the
    whole tag. *)
Definition sheet_at (s : str) : option (str * str) :=
  match strip_prefix sheet_open s with
  | Some (c :: r) =>
      if is_space c then
        match span not_gt r with
        | (body, g :: r') => Some (sheet_open ++ c :: body ++ [g], r')
        | (_, []) => None
        end
      else None
  | _ => None
  end.

(** The attribute [name] with its quoted value: the capture is the
    value, one or more characters other than the double quote. *)
Definition name_at (s : str) : option (str * str) :=
  match strip_prefix name_open s with
  | Some r =>
      match span not_quot r with
      | (c :: v, q :: r') => Some (c :: v, r')
      | _ => None
      end
  | None => None
  end.

(** The part-name patterns, a prefix, any characters and [.xml], not
    anchored: the prefix somewhere in the path and [.xml] later on the
    same line.  The source only asks whether a path matches, so the
    text given back after the match is of no use. *)
Definition path_at (prefix : str) (s : str) : option (unit * str) :=
  match strip_prefix prefix s with
  | Some r =>
      let '(line, rest) := span (fun c => negb (is_line_terminator c)) r in
      if includes (lit ".xml") line then Some (tt, rest) else None
  | None => None
  end.

Definition path_matches (prefix path : str) : bool :=
  match search (path_at prefix) path with Some _ => true | None => false end.

Definition sharedStrings_path : str := Eval cbv in lit "xl/sharedStrings.xml".
Definition workbook_path : str := Eval cbv in lit "xl/workbook.xml".
Definition worksheets_prefix : str := Eval cbv in lit "xl/worksheets/sheet".
Definition drawings_prefix : str := Eval cbv in lit "xl/drawings/drawing".
Definition charts_prefix : str := Eval cbv in lit "xl/charts/chart".

(** *** The state of a processor

    The archive is the object [files] of the archive library: part
    names with their content, in insertion order, a name occurring
    once.  Folder entries, which have no content, are left out.
    [uniqueStrings] is a [Set], which keeps insertion order.
    [translationMap] is a [Map]; the value stored for a key is
    [translatedChunk[index]], which is [undefined] ([None]) beyond the
    end of the array. *)

Definition Package : Type := list (str * str).

Record Processor : Type := {
  zip : option Package;
  uniqueStrings : list str;
  translationMap : gmap str (option str)
}.

(** [new ExcelProcessor()]. *)
Definition new_processor : Processor :=
  {| zip := None; uniqueStrings := []; translationMap := ∅ |}.

(** [zip.file(name)]. *)
Fixpoint zfile (name : str) (z : Package) : option str :=
  match z with
  | [] => None
  | (n, c) :: z' => if bool_decide (n = name) then Some c else zfile name z'
  end.

(** [zip.file(name, data)]: the content of the part of that name is
    replaced; a new name is appended. *)
Fixpoint zwrite (name data : str) (z : Package) : Package :=
  match z with
  | [] => [(name, data)]
  | (n, c) :: z' =>
      if bool_decide (n = name) then (n, data) :: z'
      else (n, c) :: zwrite name data z'
  end.

(** [set.add(x)]. *)
Definition set_add (x : str) (u : list str) : list str :=
  if bool_decide (x ∈ u) then u else u ++ [x].

(** *** Extraction *)

(** The text of a string item: the phonetic guides removed, then the
    contents of the [t] elements concatenated. *)
Definition strip_rph (innerContent : str) : str :=
  replace_g rph_at (fun _ => []) innerContent.

Definition si_text (innerContent : str) : str :=
  List.concat
    (List.map (fun m : str * str => snd m)
       (hits (scan (tag_at tag_t) (strip_rph innerContent)))).

(** [if (decoded && hasJapanese(decoded)) add]: the empty string is
    falsy. *)
Definition add_candidate (decoded : str) (u : list str) : list str :=
  match decoded with
  | [] => u
  | _ :: _ => if hasJapanese decoded then set_add decoded u else u
  end.

Definition extractFromSharedStrings (xml : str) (u : list str) : list str :=
  foldl (fun u innerContent => add_candidate (decodeXml (si_text innerContent)) u)
    u (hits (scan si_at xml)).

Definition extractFromTag (xml tagName : str) (u : list str) : list str :=
  foldl (fun u (m : str * str) => add_candidate (decodeXml (snd m)) u)
    u (hits (scan (tag_at tagName) xml)).

Definition extractFromSheetNames (xml : str) (u : list str) : list str :=
  foldl (fun u tagContent =>
           match search name_at tagContent with
           | Some (_, name, _) =>
               let decoded := decodeXml name in
               if hasJapanese decoded then set_add decoded u else u
           | None => u
           end)
    u (hits (scan sheet_at xml)).

(** The parts visited by [zip.forEach] whose path matches a pattern. *)
Definition parts_matching (prefix : str) (z : Package) : Package :=
  List.filter (fun p : str * str => path_matches prefix (fst p)) z.

(** [extractStrings] when every read completes in the order in which
    it was started: the five groups of reads are started in this
    order.  The reads in whatever order they complete are
    [extract_reads], further down; the strings are the same, their
    order is not. *)
Definition extract_package (z : Package) : list str :=
  let u0 := [] in
  let u1 := match zfile sharedStrings_path z with
            | Some xml => extractFromSharedStrings xml u0
            | None => u0
            end in
  let u2 := foldl (fun u p => extractFromTag (snd p) tag_t u) u1
              (parts_matching worksheets_prefix z) in
  let u3 := foldl (fun u p => extractFromTag (snd p) tag_at_ u) u2
              (parts_matching drawings_prefix z) in
  let u4 := foldl (fun u p => extractFromTag (snd p) tag_at_ u) u3
              (parts_matching charts_prefix z) in
  match zfile workbook_path z with
  | Some xml => extractFromSheetNames xml u4
  | None => u4
  end.

Definition extractStrings (p : Processor) : Processor :=
  match zip p with
  | None => p
  | Some z =>
      {| zip := zip p;
         uniqueStrings := extract_package z;
         translationMap := translationMap p |}
  end.

(** *** Batched translation *)

Inductive status : Type :=
| idle | parsing | translating | rebuilding | complete | error.

Record TranslationProgress : Type := {
  progress_status : status;
  currentChunk : nat;
  totalChunks : nat;
  progress_message : option str;
  progress_error : option str
}.

(** What a run does that can be observed from outside, in order: the
    progress callback, a call of the collaborator (numbered from the
    first call of the run) with its argument, a pause. *)
Inductive event : Type :=
| Progress (p : TranslationProgress)
| Call (number : nat) (texts : list str)
| Sleep (ms : N).

Definition BATCH_SIZE : nat := 20.

(** [Math.ceil(n / d)] for an array length [n]: the quotient is far
    from the precision limit of a double, so the rounding is exact. *)
Definition ceil_div (n d : nat) : nat :=
  if Nat.eqb (n mod d) 0 then n / d else S (n / d).

(** [chunk.forEach((original, index) =>
       map.set(original, translatedChunk[index]))], from [index] on. *)
Fixpoint commit_from (index : nat) (chunk translatedChunk : list str)
    (tm : gmap str (option str)) : gmap str (option str) :=
  match chunk with
  | [] => tm
  | original :: rest =>
      commit_from (S index) rest translatedChunk
        (<[original := translatedChunk !! index]> tm)
  end.

Definition commit := commit_from 0.

Definition translating_message (i total : nat) : str :=
  lit "Translating batch " ++ of_nat (i + 1) ++ lit " of " ++ of_nat total
  ++ lit "...".

Section Orchestration.
(** The collaborator: what the call of each number answers. *)
Variable translateBatch : nat -> list str -> outcome exn (list str).

(** The iterations [i], [i + 1], ... of the loop over the batches,
    [remaining] of them. *)
Fixpoint batch_loop (allStrings : list str) (total remaining i : nat)
    (tm : gmap str (option str))
  : gmap str (option str) * list event * outcome exn unit :=
  match remaining with
  | O => (tm, [], Ok tt)
  | S remaining' =>
      let start := i * BATCH_SIZE in
      let end_ := start + BATCH_SIZE in
      let chunk := slice start end_ allStrings in
      let announce :=
        Progress {| progress_status := translating;
                    currentChunk := i + 1;
                    totalChunks := total;
                    progress_message := Some (translating_message i total);
                    progress_error := None |} in
      match translateBatch i chunk with
      | Ok translatedChunk =>
          let tm' := commit chunk translatedChunk tm in
          let pause := if Nat.ltb i (total - 1) then [Sleep 10000%N] else [] in
          let '(tm'', evs, r) :=
            batch_loop allStrings total remaining' (S i) tm' in
          (tm'', announce :: Call i chunk :: pause ++ evs, r)
      | Throw e => (tm, [announce; Call i chunk], Throw e)
      end
  end.

Definition processTranslations (p : Processor)
  : Processor * list event * outcome exn unit :=
  let allStrings := uniqueStrings p in
  let total := ceil_div (length allStrings) BATCH_SIZE in
  if Nat.eqb total 0 then
    (p,
     [Progress {| progress_status := rebuilding;
                  currentChunk := 0;
                  totalChunks := 0;
                  progress_message := Some (lit "No Japanese text found.");
                  progress_error := None |}],
     Ok tt)
  else
    let '(tm, evs, r) :=
      batch_loop allStrings total total 0 (translationMap p) in
    ({| zip := zip p; uniqueStrings := uniqueStrings p;
        translationMap := tm |}, evs, r).
End Orchestration.

(** *** Rehydration *)

(** The characters a sheet name may not hold: backslash, slash,
    question mark, asterisk, the two square brackets, colon. *)
Definition forbidden_unit (c : N) : bool :=
  (c =? 92)%N || (c =? 47)%N || (c =? 63)%N || (c =? 42)%N
  || (c =? 91)%N || (c =? 93)%N || (c =? 58)%N.

(** [translated.replace(/forbidden/g, '_').substring(0, 31)]. *)
Definition sanitize_sheet_name (translated : str) : str :=
  take 31 (List.map (fun c => if forbidden_unit c then ch_us else c)
             translated).

(** [map.has(key)] and [map.get(key)], then the method call on the
    value, which throws when the value is [undefined]. *)
Definition with_translation (tm : gmap str (option str)) (decodedKey : str)
    (hit : str -> str) (miss : str) : option str :=
  match tm !! decodedKey with
  | Some (Some translated) => Some (hit translated)
  | Some None => None
  | None => Some miss
  end.

Definition si_callback (tm : gmap str (option str)) (innerContent : str)
    : option str :=
  with_translation tm (decodeXml (si_text innerContent))
    (fun translated =>
       si_open ++ lit "<t>" ++ escapeXml translated ++ lit "</t>" ++ si_close)
    (si_open ++ innerContent ++ si_close).

Definition replaceSharedStrings (tm : gmap str (option str)) (xml : str)
    : option str :=
  replace_g_throw si_at (si_callback tm) xml.

Definition tag_callback (tm : gmap str (option str)) (tagName : str)
    (m : str * str) : option str :=
  let '(openTag, innerContent) := m in
  with_translation tm (decodeXml innerContent)
    (fun translated => openTag ++ escapeXml translated ++ close_tag tagName)
    (openTag ++ innerContent ++ close_tag tagName).

Definition replaceTagContent (tm : gmap str (option str)) (xml tagName : str)
    : option str :=
  replace_g_throw (tag_at tagName) (tag_callback tm tagName) xml.

Definition name_callback (tm : gmap str (option str)) (originalName : str)
    : option str :=
  with_translation tm (decodeXml originalName)
    (fun translated =>
       name_open ++ escapeXml (sanitize_sheet_name translated) ++ [ch_quot])
    (name_open ++ originalName ++ [ch_quot]).

Definition sheet_callback (tm : gmap str (option str)) (sheetTag : str)
    : option str :=
  replace_first_throw name_at (name_callback tm) sheetTag.

Definition replaceSheetNames (tm : gmap str (option str)) (xml : str)
    : option str :=
  replace_g_throw sheet_at (sheet_callback tm) xml.

(** One rewrite started by [getDownloadBuffer]: the part, its content
    as read when the rewrite was started, and the rewriting function. *)
Definition task : Type := str * str * (str -> option str).

Definition rewrite_tasks (tm : gmap str (option str)) (z : Package)
    : list task :=
  match zfile sharedStrings_path z with
  | Some xml => [(sharedStrings_path, xml, replaceSharedStrings tm)]
  | None => []
  end
  ++ List.map (fun p : str * str =>
                 (fst p, snd p, fun xml => replaceTagContent tm xml tag_t))
       (parts_matching worksheets_prefix z)
  ++ List.map (fun p : str * str =>
                 (fst p, snd p, fun xml => replaceTagContent tm xml tag_at_))
       (parts_matching drawings_prefix z)
  ++ List.map (fun p : str * str =>
                 (fst p, snd p, fun xml => replaceTagContent tm xml tag_at_))
       (parts_matching charts_prefix z)
  ++ match zfile workbook_path z with
     | Some xml => [(workbook_path, xml, replaceSheetNames tm)]
     | None => []
     end.

(** The rewrites settle in the order in which they were started.  One
    that throws rejects the whole; the others still run. *)
Fixpoint run_tasks (tasks : list task) (z : Package)
    : Package * option exn :=
  match tasks with
  | [] => (z, None)
  | (path, xml, rewrite) :: rest =>
      match rewrite xml with
      | Some newXml =>
          run_tasks rest
            (if bool_decide (xml = newXml) then z else zwrite path newXml z)
      | None =>
          let '(z', _) := run_tasks rest z in (z', Some TypeError)
      end
  end.

(** [getDownloadBuffer]: the archive is rewritten in place and, when
    no rewrite threw, serialized.  What is given here is the archive
    that is handed to the serialization; [getDownloadBuffer_in],
    further down, gives the serialized one. *)
Definition getDownloadBuffer (p : Processor)
    : Processor * outcome exn Package :=
  match zip p with
  | None => (p, Throw NoFileLoaded)
  | Some z =>
      let '(z', failure) := run_tasks (rewrite_tasks (translationMap p) z) z in
      ({| zip := Some z'; uniqueStrings := uniqueStrings p;
          translationMap := translationMap p |},
       match failure with
       | None => Ok z'
       | Some e => Throw e
       end)
  end.

(** [loadFile]: a fresh archive object is installed before the bytes
    are read into it.  The bytes are taken to be at hand: the failure
    of [file.arrayBuffer()], before any archive object is installed,
    is not modelled. *)
Definition loadFile (archive : outcome exn Package) (p : Processor)
    : Processor * outcome exn unit :=
  match archive with
  | Ok z =>
      ({| zip := Some z; uniqueStrings := uniqueStrings p;
          translationMap := translationMap p |}, Ok tt)
  | Throw e =>
      ({| zip := Some []; uniqueStrings := uniqueStrings p;
          translationMap := translationMap p |}, Throw e)
  end.

End Excel.

(** ** The caller ([processFile] of the App component)

    The names given to the downloads are not modelled; the call that
    translates the file name is, since it is a call of the
    collaborator. *)

Module App.
Import JS Gemini Excel.

Record File : Type := {
  name : str;
  archive : outcome exn Package
}.

(** What [processFile] leaves: the archive handed to [saveAs], the
    partial archive offered after a failure, and every observable
    action in order. *)
Record Run : Type := {
  saved : option Package;
  partialFile : option Package;
  trace : list event;
  processor : Processor
}.

Definition note (st : status) (msg : str) : event :=
  Progress {| progress_status := st; currentChunk := 0; totalChunks := 0;
              progress_message := Some msg; progress_error := None |}.

Definition isQuotaError (e : exn) : bool :=
  includes (lit "Quota") (message e) || includes (lit "429") (message e)
  || includes (lit "RESOURCE_EXHAUSTED") (message e).

Definition failure_report (e : exn) : event :=
  Progress {|
    progress_status := error; currentChunk := 0; totalChunks := 0;
    progress_message :=
      Some (if isQuotaError e then lit "API Limit Exceeded"
            else lit "Processing Error");
    progress_error :=
      Some (if isQuotaError e then
              lit "You have exceeded the API daily quota. Don't worry, you can download the partial translation below."
            else match message e with
                 | [] => lit "An error occurred during processing. Please try again."
                 | m => m
                 end) |}.

(** The catch block: a partial archive is attempted from whatever the
    processor holds, a failure of that attempt is swallowed, and the
    original error is reported. *)
Definition recover (p : Processor) (before : list event) (e : exn) : Run :=
  let '(p', r) := getDownloadBuffer p in
  {| saved := None;
     partialFile := match r with Ok z => Some z | Throw _ => None end;
     trace := before ++ [failure_report e];
     processor := p' |}.

Section ProcessFile.
Variable translateBatch : nat -> list str -> outcome exn (list str).

Definition processFile (file : File) : Run :=
  let ev0 := [note parsing (lit "Reading Excel file...")] in
  let '(p1, loaded) := loadFile (archive file) new_processor in
  match loaded with
  | Throw e => recover p1 ev0 e
  | Ok _ =>
      let ev1 :=
        ev0 ++ [note parsing (lit "Extracting text (Cells & Text Boxes)...")] in
      let p2 := extractStrings p1 in
      let '(p3, evs, translated) := processTranslations translateBatch p2 in
      let ev2 := ev1 ++ evs in
      match translated with
      | Throw e => recover p3 ev2 e
      | Ok _ =>
          let calls_so_far :=
            ceil_div (length (uniqueStrings p2)) BATCH_SIZE in
          let ev3 :=
            ev2 ++ [note translating (lit "Translating filename...");
                    Call calls_so_far [name file];
                    note rebuilding
                      (lit "Applying translations and preserving styles...")] in
          let '(p4, built) := getDownloadBuffer p3 in
          match built with
          | Throw e => recover p4 ev3 e
          | Ok z =>
              {| saved := Some z;
                 partialFile := None;
                 trace := ev3 ++ [note complete (lit "Done! Download started.")];
                 processor := p4 |}
          end
      end
  end.
End ProcessFile.

End App.

Import JS Gemini Excel App.

(** * Vocabulary of the statements *)

(** ** Scans and rewritings *)

(** Every match consumes at least one character. *)
Definition progresses {M : Type} (match_at : str -> option (M * str)) : Prop :=
  forall s m rest, match_at s = Some (m, rest) -> length rest < length s.

(** [xml'] is [xml] where every match of the expression is replaced by
    a text that [R] relates to the match, and nothing else is
    changed. *)
Definition rewritten {M : Type} (match_at : str -> option (M * str))
    (R : M -> str -> Prop) (xml xml' : str) : Prop :=
  exists outs,
    Forall2 (fun x out => match x with
                          | Lit c => out = [c]
                          | Hit m => R m out
                          end) (scan match_at xml) outs
    /\ xml' = List.concat outs.

(** The text a match stands for. *)
Definition si_match (innerContent : str) : str :=
  si_open ++ innerContent ++ si_close.

Definition tag_match (tagName : str) (m : str * str) : str :=
  fst m ++ snd m ++ close_tag tagName.

Definition name_match (originalName : str) : str :=
  name_open ++ originalName ++ [ch_quot].

(** ** Escaping *)

(** The order in which [decodeXml] replaces the entities, and the text
    after the first [k] replacements applied to an escaped text: the
    metacharacters decoded so far are plain again, the others are
    still entities. *)
Definition decode_order : list N := [ch_lt; ch_gt; ch_amp; ch_apos; ch_quot].

Definition escape_after (k : nat) (c : N) : str :=
  if existsb (N.eqb c) (drop k decode_order) then escape_unit c else [c].

(** What a reader of XML takes an escaped text for: in one pass, each
    of the five entities stands for its character. *)
Definition entity_at (s : str) : option (N * str) :=
  match strip_prefix ent_lt s with
  | Some r => Some (ch_lt, r)
  | None =>
  match strip_prefix ent_gt s with
  | Some r => Some (ch_gt, r)
  | None =>
  match strip_prefix ent_amp s with
  | Some r => Some (ch_amp, r)
  | None =>
  match strip_prefix ent_apos s with
  | Some r => Some (ch_apos, r)
  | None =>
  match strip_prefix ent_quot s with
  | Some r => Some (ch_quot, r)
  | None => None
  end end end end end.

Definition xml_unescape (s : str) : str :=
  replace_g entity_at (fun c => [c]) s.

(** ** The collaborator *)

(** The attempts before [n] were rejected for a reason that is
    retried. *)
Definition retried (generateContent : nat -> api_outcome) (n : nat) : Prop :=
  forall i, i < n ->
    exists e, generateContent i = Rejected e
              /\ isQuotaExhausted e = false
              /\ isRateLimit e || isOverloaded e = true.

(** The fall back as the specification states it: when the text of
    the response that settles the call does not parse, or is not an
    array, the call gives back the texts it was given. *)
Definition echoes_invalid (api_key_present : bool)
    (JSON_parse : str -> parsed) (generateContent : nat -> api_outcome)
    (texts : list str) : Prop :=
  forall n jsonText,
    api_key_present = true -> retried generateContent n -> n <= maxRetries ->
    generateContent n = Response (Some jsonText) ->
    JSON_parse jsonText = SyntaxError \/ JSON_parse jsonText = NotArray ->
    translateBatch api_key_present JSON_parse generateContent texts
    = Ok texts.

(** ** Batches *)

(** The batch of the iteration [i]. *)
Definition chunk_of (allStrings : list str) (i : nat) : list str :=
  slice (i * BATCH_SIZE) (i * BATCH_SIZE + BATCH_SIZE) allStrings.

(** The arguments of the calls of the collaborator, in order. *)
Definition calls_of (evs : list event) : list (list str) :=
  omap (fun e => match e with Call _ texts => Some texts | _ => None end) evs.

(** The calls before [k] succeed. *)
Definition succeeds_before
    (translateBatch : nat -> list str -> outcome exn (list str))
    (allStrings : list str) (k : nat) : Prop :=
  forall i, i < k -> exists out, translateBatch i (chunk_of allStrings i) = Ok out.

(** The translations of the first [j] batches: each batch committed to
    the map when its call succeeded. *)
Fixpoint commits (translateBatch : nat -> list str -> outcome exn (list str))
    (allStrings : list str) (j : nat) (tm0 : gmap str (option str))
  : gmap str (option str) :=
  match j with
  | O => tm0
  | S j' =>
      let tm := commits translateBatch allStrings j' tm0 in
      match translateBatch j' (chunk_of allStrings j') with
      | Ok out => commit (chunk_of allStrings j') out tm
      | Throw _ => tm
      end
  end.

(** Every value of the map is a string. *)
Definition all_defined (tm : gmap str (option str)) : Prop :=
  forall k v, tm !! k = Some v -> is_Some v.

(** ** Candidates and the script filter *)

(** The candidate strings of each rule, decoded, before the script
    filter. *)
Definition si_candidates (xml : str) : list str :=
  List.map (fun innerContent => decodeXml (si_text innerContent))
    (hits (scan si_at xml)).

Definition tag_candidates (tagName xml : str) : list str :=
  List.map (fun m : str * str => decodeXml m.2) (hits (scan (tag_at tagName) xml)).

Definition sheet_candidates (xml : str) : list str :=
  omap (fun sheetTag =>
          match search name_at sheetTag with
          | Some (_, originalName, _) => Some (decodeXml originalName)
          | None => None
          end) (hits (scan sheet_at xml)).

Definition candidates (z : Package) : list str :=
  match zfile sharedStrings_path z with
  | Some xml => si_candidates xml
  | None => []
  end
  ++ List.concat (List.map (fun e : str * str => tag_candidates tag_t e.2)
                    (parts_matching worksheets_prefix z))
  ++ List.concat (List.map (fun e : str * str => tag_candidates tag_at_ e.2)
                    (parts_matching drawings_prefix z))
  ++ List.concat (List.map (fun e : str * str => tag_candidates tag_at_ e.2)
                    (parts_matching charts_prefix z))
  ++ match zfile workbook_path z with
     | Some xml => sheet_candidates xml
     | None => []
     end.

(** The script ranges of [hasJapanese], as intervals of code units. *)
Definition script_ranges : list (N * N) :=
  [(0x3000, 0x303f); (0x3040, 0x309f); (0x30a0, 0x30ff); (0xff00, 0xff9f);
   (0x4e00, 0x9faf); (0x3400, 0x4dbf)]%N.

(** ** The archive *)

(** The part names that rehydration recognizes. *)
Definition recognized_path (path : str) : bool :=
  bool_decide (path = sharedStrings_path)
  || path_matches worksheets_prefix path
  || path_matches drawings_prefix path
  || path_matches charts_prefix path
  || bool_decide (path = workbook_path).

(** Two archives with the same part names in the same order, and the
    same content in every part whose name satisfies [keep]. *)
Definition same_parts (keep : str -> Prop) (z z' : Package) : Prop :=
  Forall2 (fun e e' : str * str => e.1 = e'.1 /\ (keep e.1 -> e.2 = e'.2)) z z'.

(** ** The rewrites of rehydration *)

(** How each rule rewrites a match, as a relation between the match and
    the text put in its place. *)
Definition si_rewrite (tm : gmap str (option str)) (innerContent out : str)
    : Prop :=
  match tm !! decodeXml (si_text innerContent) with
  | Some v =>
      exists translated,
        v = Some translated
        /\ out = si_open ++ lit "<t>" ++ escapeXml translated ++ lit "</t>"
                 ++ si_close
  | None => out = si_match innerContent
  end.

Definition tag_rewrite (tm : gmap str (option str)) (tagName : str)
    (m : str * str) (out : str) : Prop :=
  match tm !! decodeXml m.2 with
  | Some v =>
      exists translated,
        v = Some translated
        /\ out = m.1 ++ escapeXml translated ++ close_tag tagName
  | None => out = tag_match tagName m
  end.

Definition sheet_rewrite (tm : gmap str (option str)) (sheetTag out : str)
    : Prop :=
  match search name_at sheetTag with
  | Some (before, originalName, after) =>
      match tm !! decodeXml originalName with
      | Some v =>
          exists translated,
            v = Some translated
            /\ out = before ++ name_open
                     ++ escapeXml (sanitize_sheet_name translated)
                     ++ [ch_quot] ++ after
      | None => out = sheetTag
      end
  | None => out = sheetTag
  end.

(** ** The round trip *)

(** The map that sends every string of a list to itself. *)
Definition identity_map (l : list str) : gmap str (option str) :=
  list_to_map (List.map (fun s => (s, Some s)) l).













(** * Sample data *)

(** Two texts of the specification, in code units: the word for a
    design document and the word for a total. *)
Definition text_sekkeisho : str := [0x8A2D; 0x8A08; 0x66F8]%N.
Definition text_goukei : str := [0x5408; 0x8A08]%N.

(** An archive whose only sheet has a colon in its name, and the name
    with the colon replaced. *)
Definition colon_name : str := [0x65E5; 58; 0x672C]%N.
Definition underscore_name : str := [0x65E5; 95; 0x672C]%N.

Definition colon_workbook : Package :=
  [(workbook_path,
    lit "<sheet name=" ++ [ch_quot] ++ colon_name ++ [ch_quot] ++ lit "/>")].

(** A string item as a spreadsheet application writes it: the text in
    ideographs, then the phonetic guide of the text, whose element has
    the two attributes the format requires. *)
Definition text_kanji : str := [0x6F22; 0x5B57]%N.
Definition text_kana : str := [0x30AB; 0x30F3; 0x30B8]%N.

Definition guided_item : str :=
  lit "<t>" ++ text_kanji ++ lit "</t><rPh sb=" ++ [ch_quot] ++ lit "0"
  ++ [ch_quot] ++ lit " eb=" ++ [ch_quot] ++ lit "2" ++ [ch_quot]
  ++ lit "><t>" ++ text_kana ++ lit "</t></rPh>".

(** A map that translates the text in ideographs to a text with two of
    the characters a sheet name may not hold. *)
Definition slash_map : gmap str (option str) :=
  {[ text_kanji := Some (lit "a/b:c") ]}.



(** A run of the collaborator: the first request is rejected with the
    code 429, the second is answered by an array that has an item for
    the index 1 only. *)
Definition demo_parse (jsonText : str) : parsed :=
  Items [Some {| id := Some (lit "1"); translatedText := lit "B" |}].

Definition demo_service (attempt : nat) : api_outcome :=
  match attempt with
  | O => Rejected {| err_code_of := CodeNum 429; err_json := [];
                     err_message := [] |}
  | _ => Response (Some (lit "[...]"))
  end.

(** An archive with 21 shared strings, one worksheet with an inline
    text that is not Japanese, a workbook with one sheet, and a part
    that no rule recognizes; a collaborator that answers the first
    call and reports the exhausted quota at the second. *)
Definition demo_item (i : nat) : str :=
  lit "<si><t>" ++ [(0x3042 + N.of_nat i)%N] ++ lit "</t></si>".

Definition demo_archive : Package :=
  [(sharedStrings_path,
    lit "<sst>" ++ List.concat (List.map demo_item (seq 0 21)) ++ lit "</sst>");
   (lit "xl/worksheets/sheet1.xml", lit "<c><is><t>World</t></is></c>");
   (workbook_path,
    lit "<sheet name=" ++ [ch_quot] ++ [0x30B7; 0x30FC; 0x30C8; 49]%N
    ++ [ch_quot] ++ lit "/>");
   (lit "xl/styles.xml", lit "<styleSheet/>")].

Definition demo_translate (number : nat) (texts : list str)
    : outcome exn (list str) :=
  match number with
  | O => Ok (List.map (fun s => lit "T:" ++ s) texts)
  | S _ => Throw QuotaExceeded
  end.

Definition demo_file : File :=
  {| name := lit "book.xlsx"; archive := Ok demo_archive |}.

Definition demo_processor : Processor :=
  {| zip := Some demo_archive;
     uniqueStrings := extract_package demo_archive;
     translationMap := identity_map (extract_package demo_archive) |}.

(** * Further parts of the program *)

(** ** The pauses of the retry loop ([translateBatch])

    The retry loop once more, with what it does in order: the requests
    and the pauses between them.  [jitter attempt] is the whole part,
    in milliseconds, of [Math.random() * 1000] as drawn at that
    attempt; the timer takes the whole part of [waitTime]. *)

Inductive io : Type :=
| Request (attempt : nat)
| Delay (ms : N).

Definition baseDelay : N := 5000.

Section Backoff.
Variable api_key_present : bool.
Variable JSON_parse : str -> parsed.
Variable generateContent : nat -> api_outcome.
Variable jitter : nat -> N.

(** [baseDelay * Math.pow(2, attempt) + jitter]. *)
Definition waitTime (attempt : nat) : N :=
  (baseDelay * 2 ^ N.of_nat attempt + jitter attempt)%N.

Fixpoint attempts_io (remaining attempt : nat) (texts : list str)
  : list io * outcome exn (list str) :=
  match remaining with
  | O => ([], Ok texts)
  | S remaining' =>
      match generateContent attempt with
      | Response None => ([Request attempt], Throw EmptyResponse)
      | Response (Some []) => ([Request attempt], Throw EmptyResponse)
      | Response (Some jsonText) =>
          ([Request attempt],
           match JSON_parse jsonText with
           | SyntaxError => Ok texts
           | NotArray => Ok texts
           | Items l => Ok (imap (resolve (collect l)) texts)
           end)
      | Rejected e =>
          if isQuotaExhausted e then ([Request attempt], Throw QuotaExceeded)
          else if (isRateLimit e || isOverloaded e)
                  && Nat.ltb attempt maxRetries
          then
            let '(log, r) := attempts_io remaining' (S attempt) texts in
            (Request attempt :: Delay (waitTime attempt) :: log, r)
          else if isRateLimit e then ([Request attempt], Throw RateLimitExceeded)
          else ([Request attempt], Throw (ApiFailure e))
      | Unserializable type_error =>
          ([Request attempt], Throw (CatchTypeError type_error))
      end
  end.

Definition translateBatch_io (texts : list str)
  : list io * outcome exn (list str) :=
  if api_key_present then attempts_io (S maxRetries) 0 texts
  else ([], Throw ApiKeyMissing).
End Backoff.

(** What the attempt that is not retried decides, from what the
    service gave it. *)
Definition settle (JSON_parse : str -> parsed) (given : api_outcome)
    (texts : list str) : outcome exn (list str) :=
  match given with
  | Response None => Throw EmptyResponse
  | Response (Some []) => Throw EmptyResponse
  | Response (Some jsonText) =>
      match JSON_parse jsonText with
      | SyntaxError => Ok texts
      | NotArray => Ok texts
      | Items l => Ok (imap (resolve (collect l)) texts)
      end
  | Rejected e =>
      if isQuotaExhausted e then Throw QuotaExceeded
      else if isRateLimit e then Throw RateLimitExceeded
      else Throw (ApiFailure e)
  | Unserializable type_error => Throw (CatchTypeError type_error)
  end.

(** The attempts of the requests of a log, and its pauses. *)
Definition requests_of (log : list io) : list nat :=
  omap (fun x => match x with Request a => Some a | Delay _ => None end) log.

Definition delays_of (log : list io) : list N :=
  omap (fun x => match x with Delay ms => Some ms | Request _ => None end) log.

(** The requests [0] to [k] with the pause after each but the last. *)
Definition schedule (jitter : nat -> N) (k : nat) : list io :=
  flat_map (fun a => [Request a; Delay (waitTime jitter a)]) (seq 0 k)
  ++ [Request k].

(** Every attempt up to [n] is rejected for a reason that is retried
    while attempts remain. *)
Definition rejected_through (generateContent : nat -> api_outcome) (n : nat)
    : Prop :=
  forall i, i <= n ->
    exists e, generateContent i = Rejected e
              /\ isQuotaExhausted e = false
              /\ isRateLimit e || isOverloaded e = true.

(** The identifiers of the items of a response. *)
Definition ids_of (l : list (option item)) : list str := (collect l).*1.

(** ** The file picker ([validateAndAccept] of the Dropzone component) *)

(** [s.endsWith(p)]. *)
Definition ends_with (p s : str) : bool :=
  match strip_prefix (rev p) (rev s) with Some _ => true | None => false end.

Definition dot_xlsx : str := Eval cbv in lit ".xlsx".

(** The state the picker sets: its error, the name it shows, and
    whether the file is handed to [onFileAccepted]. *)
Record Picked : Type := {
  picker_error : option str;
  fileName : option str;
  accepted : bool
}.

Definition validateAndAccept (file_name : str) : Picked :=
  if negb (ends_with dot_xlsx file_name) then
    {| picker_error := Some (lit "Please upload a valid .xlsx file");
       fileName := None; accepted := false |}
  else
    {| picker_error := None; fileName := Some file_name; accepted := true |}.

(** ** The names of the downloads ([processFile]) *)

Definition ch_dot : N := 46%N.
Definition ch_slash : N := 47%N.

(** [s.trim()]: the white space and the line terminators at both ends
    go. *)
Definition trim_start (s : str) : str := (span is_space s).2.
Definition trim (s : str) : str := rev (trim_start (rev (trim_start s))).

(** The extension: a dot, then one or more characters that are neither
    a slash nor a dot, up to the end of the string. *)
Definition ext_unit (c : N) : bool :=
  negb ((c =? ch_slash)%N || (c =? ch_dot)%N).

Definition ext_at (s : str) : option (unit * str) :=
  match s with
  | c :: d :: r =>
      if (c =? ch_dot)%N && forallb ext_unit (d :: r) then Some (tt, [])
      else None
  | _ => None
  end.

(** [s.replace(extension, '')]. *)
Definition strip_ext (s : str) : str :=
  match search ext_at s with
  | Some (before, _, after) => before ++ after
  | None => s
  end.

(** The name given to the partial archive. *)
Definition partialName (file_name : str) : str :=
  lit "partial_" ++ strip_ext file_name ++ dot_xlsx.

Section FileName.
(** [String.prototype.toLowerCase], which depends on the tables of
    Unicode, is left open. *)
Variable toLowerCase : str -> str.

(** The name given to the saved archive, from the name of the file
    and what the call that translates it gave.  The first element of
    the answer is taken; an answer without one, an empty first element
    and a call that threw leave the name with its prefix. *)
Definition finalFileName (file_name : str) (answer : outcome exn (list str))
    : str :=
  match answer with
  | Ok ((c :: t) :: _) =>
      let trimmed := trim (c :: t) in
      if ends_with dot_xlsx (toLowerCase trimmed) then trimmed
      else if negb (includes [ch_dot] trimmed) then trimmed ++ dot_xlsx
      else strip_ext trimmed ++ dot_xlsx
  | _ => lit "translated_" ++ file_name
  end.
End FileName.

(** ** More vocabulary *)

(** The pauses of a trace, and its progress states. *)
Definition sleeps_of (evs : list event) : list N :=
  omap (fun e => match e with Sleep ms => Some ms | _ => None end) evs.

Definition progress_of (evs : list event) : list TranslationProgress :=
  omap (fun e => match e with Progress p => Some p | _ => None end) evs.

(** What the iteration [i] of the loop over the batches does before
    its pause: the progress state and the call. *)
Definition round (allStrings : list str) (total i : nat) : list event :=
  [Progress {| progress_status := translating;
               currentChunk := i + 1;
               totalChunks := total;
               progress_message := Some (translating_message i total);
               progress_error := None |};
   Call i (chunk_of allStrings i)].

(** The answers of a collaborator have the length of what it was
    given. *)
Definition length_preserving
    (translateBatch : nat -> list str -> outcome exn (list str)) : Prop :=
  forall i texts out, translateBatch i texts = Ok out -> length out = length texts.

(** The collaborator of [geminiService.ts] as the orchestrator calls
    it: the call of each number meets a service of its own. *)
Definition gemini (api_key_present : bool) (JSON_parse : str -> parsed)
    (service : nat -> nat -> api_outcome)
    (number : nat) (texts : list str) : outcome exn (list str) :=
  translateBatch api_key_present JSON_parse (service number) texts.

(** None of the five metacharacters. *)
Definition plain_unit (c : N) : bool :=
  negb ((c =? ch_lt)%N || (c =? ch_gt)%N || (c =? ch_amp)%N
        || (c =? ch_apos)%N || (c =? ch_quot)%N).

(** ** More sample data *)

(** A rejection for a rate limit, and one that is a rate limit by its
    code and reports the exhausted quota in its status. *)
Definition rate_error : api_error :=
  {| err_code_of := CodeNum 429; err_json := lit "{}"; err_message := [] |}.

Definition quota_error : api_error :=
  {| err_code_of := CodeNum 429;
     err_json :=
       lit "{" ++ [ch_quot] ++ lit "error" ++ [ch_quot] ++ lit ":{"
       ++ [ch_quot] ++ lit "code" ++ [ch_quot] ++ lit ":429,"
       ++ [ch_quot] ++ lit "status" ++ [ch_quot] ++ lit ":"
       ++ [ch_quot] ++ lit "RESOURCE_EXHAUSTED" ++ [ch_quot] ++ lit "}}";
     err_message := [] |}.

(** A service that is always busy, and one that is busy once and then
    out of quota. *)
Definition busy_service (attempt : nat) : api_outcome := Rejected rate_error.

Definition quota_service (attempt : nat) : api_outcome :=
  match attempt with
  | O => Rejected rate_error
  | S _ => Rejected quota_error
  end.

(** A service whose rejection is a cyclic object, of which
    [JSON.stringify] makes no text. *)
Definition cyclic_message : str :=
  Eval cbv in lit "Converting circular structure to JSON".

Definition cyclic_service (attempt : nat) : api_outcome :=
  Unserializable cyclic_message.

(** A service that answers by the empty text. *)
Definition empty_service (attempt : nat) : api_outcome := Response (Some []).

(** A parser that finds no JSON, and a service that answers the first
    call by a text and is out of quota from the second call on. *)
Definition no_parse (jsonText : str) : parsed := SyntaxError.

Definition flaky_service (number attempt : nat) : api_outcome :=
  match number with
  | O => Response (Some (lit "oops"))
  | S _ => Rejected quota_error
  end.

(** A collaborator that answers by the first text only. *)
Definition first_only (number : nat) (texts : list str)
    : outcome exn (list str) :=
  Ok (take 1 texts).

(** An archive in English, and a file that is no archive. *)
Definition english_archive : Package :=
  [(lit "xl/worksheets/sheet1.xml", lit "<c><is><t>World</t></is></c>");
   (lit "xl/styles.xml", lit "<styleSheet/>")].

Definition english_file : File :=
  {| name := lit "book.xlsx"; archive := Ok english_archive |}.

Definition broken_file : File :=
  {| name := lit "book.xlsx";
     archive := Throw (ArchiveLoadError (lit "Corrupted zip")) |}.

(** ** Rich text *)

(** A run of a string item as a spreadsheet application writes it: the
    run properties, then the text element with its attributes, if any,
    and its content. *)
Definition t_open (attrs : str) : str := lit "<t" ++ attrs ++ [ch_gt].

Definition rich_run (r : str * str * str) : str :=
  let '(rPr, attrs, content) := r in
  lit "<r>" ++ rPr ++ t_open attrs ++ content ++ lit "</t></r>".

(** The run is well formed for the rules: its properties hold neither
    the start of a text element, nor a phonetic guide, nor the end of a
    string item; its attributes, if any, start with white space and
    hold no bracket; its content is escaped. *)
Definition well_run (r : str * str * str) : Prop :=
  let '(rPr, attrs, content) := r in
  find_sub (lit "<t") rPr = None
  /\ find_sub rph_open rPr = None
  /\ find_sub si_close rPr = None
  /\ match attrs with [] => True | c :: _ => is_space c = true end
  /\ Forall (fun c => c <> ch_lt /\ c <> ch_gt) attrs
  /\ Forall (fun c => c <> ch_lt) content.

(** ** The run as the browser schedules it

    [extractStrings] starts one asynchronous read for every part it
    looks at and waits for all of them.  A read adds its strings when
    the archive library hands over the content of its part, all of
    them in one go; the library hands over the content of a large part
    later than that of a small one, so the reads do not complete in
    the order in which they were started.  The order of
    [uniqueStrings] is the order of the strings of the reads as they
    complete. *)

(** One read: the rule and the content read. *)
Inductive read : Type :=
| ReadSharedStrings (xml : str)
| ReadElements (tagName xml : str)
| ReadSheetNames (xml : str).

(** The reads of an archive, in the order in which [extractStrings]
    starts them. *)
Definition reads_of (z : Package) : list read :=
  match zfile sharedStrings_path z with
  | Some xml => [ReadSharedStrings xml]
  | None => []
  end
  ++ List.map (fun p : str * str => ReadElements tag_t (snd p))
       (parts_matching worksheets_prefix z)
  ++ List.map (fun p : str * str => ReadElements tag_at_ (snd p))
       (parts_matching drawings_prefix z)
  ++ List.map (fun p : str * str => ReadElements tag_at_ (snd p))
       (parts_matching charts_prefix z)
  ++ match zfile workbook_path z with
     | Some xml => [ReadSheetNames xml]
     | None => []
     end.

(** What a read adds when it completes. *)
Definition extract_read (u : list str) (r : read) : list str :=
  match r with
  | ReadSharedStrings xml => extractFromSharedStrings xml u
  | ReadElements tagName xml => extractFromTag xml tagName u
  | ReadSheetNames xml => extractFromSheetNames xml u
  end.

(** [uniqueStrings] when the reads have completed in the order
    [done], from the set that [clear] has emptied. *)
Definition extract_reads (done : list read) : list str :=
  foldl extract_read [] done.

(** [done] is an order in which the reads of the archive complete. *)
Definition completes (z : Package) (done : list read) : Prop :=
  done ≡ₚ reads_of z.

(** [extractStrings] with the reads completing in the order [done]. *)
Definition extractStrings_in (done : list read) (p : Processor) : Processor :=
  match zip p with
  | None => p
  | Some z =>
      {| zip := zip p;
         uniqueStrings := extract_reads done;
         translationMap := translationMap p |}
  end.

(** What [processFile] leaves when the archive that is handed over is
    the serialized one: what [saveAs] is given, the partial file that
    is offered, every observable action in order, and the processor. *)
Record Download (Buffer : Type) : Type := {
  savedBuffer : option Buffer;
  partialBuffer : option Buffer;
  events : list event;
  held : Processor
}.
Arguments savedBuffer {Buffer} d.
Arguments partialBuffer {Buffer} d.
Arguments events {Buffer} d.
Arguments held {Buffer} d.

Section Browser.
Context {Buffer : Type}.
(** [zip.generateAsync]: the serialization of the archive by the
    archive library, which is left open. *)
Variable generateAsync : Package -> Buffer.
Variable translateBatch : nat -> list str -> outcome exn (list str).

(** [getDownloadBuffer] with its result serialized: the buffer is the
    serialization of the archive that the processor holds after the
    rewrites. *)
Definition getDownloadBuffer_in (p : Processor)
    : Processor * outcome exn Buffer :=
  let '(p', r) := getDownloadBuffer p in
  (p', match r with
       | Ok z' => Ok (generateAsync z')
       | Throw e => Throw e
       end).

Definition recover_in (p : Processor) (before : list event) (e : exn)
    : Download Buffer :=
  let '(p', r) := getDownloadBuffer_in p in
  {| savedBuffer := None;
     partialBuffer := match r with Ok b => Some b | Throw _ => None end;
     events := before ++ [failure_report e];
     held := p' |}.

(** [processFile] with the reads of [extractStrings] completing in the
    order [done]. *)
Definition processFile_in (done : list read) (file : File) : Download Buffer :=
  let ev0 := [note parsing (lit "Reading Excel file...")] in
  let '(p1, loaded) := loadFile (archive file) new_processor in
  match loaded with
  | Throw e => recover_in p1 ev0 e
  | Ok _ =>
      let ev1 :=
        ev0 ++ [note parsing (lit "Extracting text (Cells & Text Boxes)...")] in
      let p2 := extractStrings_in done p1 in
      let '(p3, evs, translated) := processTranslations translateBatch p2 in
      let ev2 := ev1 ++ evs in
      match translated with
      | Throw e => recover_in p3 ev2 e
      | Ok _ =>
          let calls_so_far :=
            ceil_div (length (uniqueStrings p2)) BATCH_SIZE in
          let ev3 :=
            ev2 ++ [note translating (lit "Translating filename...");
                    Call calls_so_far [name file];
                    note rebuilding
                      (lit "Applying translations and preserving styles...")] in
          let '(p4, built) := getDownloadBuffer_in p3 in
          match built with
          | Throw e => recover_in p4 ev3 e
          | Ok b =>
              {| savedBuffer := Some b;
                 partialBuffer := None;
                 events := ev3 ++ [note complete (lit "Done! Download started.")];
                 held := p4 |}
          end
      end
  end.
End Browser.

(** ** The content of the rewritten parts *)

(** What rehydration with the map [tm] makes of the content [xml] of
    the part [path]: for the shared strings, the workbook, a part that
    is a worksheet only and a part that is a drawing or a chart and no
    worksheet, the rewriting of every match of the rule of the part,
    by [R]; for a part that no rule recognizes, the content itself. *)
Definition part_rewritten
    (Rsi : str -> str -> Prop) (Rtag : str -> str * str -> str -> Prop)
    (Rsheet : str -> str -> Prop) (path xml xml' : str) : Prop :=
  (path = sharedStrings_path -> rewritten si_at Rsi xml xml')
  /\ (path = workbook_path -> rewritten sheet_at Rsheet xml xml')
  /\ (path_matches worksheets_prefix path = true ->
      path_matches drawings_prefix path = false ->
      path_matches charts_prefix path = false ->
      rewritten (tag_at tag_t) (Rtag tag_t) xml xml')
  /\ (path_matches worksheets_prefix path = false ->
      path_matches drawings_prefix path = true
      \/ path_matches charts_prefix path = true ->
      rewritten (tag_at tag_at_) (Rtag tag_at_) xml xml')
  /\ (recognized_path path = false -> xml' = xml).

(** The rewriting of a span by the map [tm] that leaves the span as it
    stands when its text is one of [later]. *)
Definition si_partial (tm : gmap str (option str)) (later : list str)
    (innerContent out : str) : Prop :=
  si_rewrite tm innerContent out
  /\ (decodeXml (si_text innerContent) ∈ later -> out = si_match innerContent).

Definition tag_partial (tm : gmap str (option str)) (later : list str)
    (tagName : str) (m : str * str) (out : str) : Prop :=
  tag_rewrite tm tagName m out
  /\ (decodeXml m.2 ∈ later -> out = tag_match tagName m).

Definition sheet_partial (tm : gmap str (option str)) (later : list str)
    (sheetTag out : str) : Prop :=
  sheet_rewrite tm sheetTag out
  /\ (forall before originalName after,
        search name_at sheetTag = Some (before, originalName, after) ->
        decodeXml originalName ∈ later -> out = sheetTag).

(** The candidates of a read, before the script filter. *)
Definition read_candidates (r : read) : list str :=
  match r with
  | ReadSharedStrings xml => si_candidates xml
  | ReadElements tagName xml => tag_candidates tagName xml
  | ReadSheetNames xml => sheet_candidates xml
  end.

(** The reads of [demo_archive] in the order in which the one of the
    shared strings, the largest part, completes last. *)
Definition demo_done : list read := rev (reads_of demo_archive).

(** For the samples, a serialization that is the list of the parts
    itself. *)
Definition parts_of (z : Package) : Package := z.

(** * Properties *)

(** ** Literal prefixes and occurrences *)

Lemma strip_prefix_Some (p s r : str) :
  strip_prefix p s = Some r <-> s = p ++ r.
Proof.
  revert s; induction p as [|a p IH]; intros s; simpl.
  - split; congruence.
  - destruct s as [|b s]; [split; discriminate|].
    destruct (N.eqb_spec a b) as [->|Hne].
    + rewrite IH. split; congruence.
    + split; [discriminate|]. intros [= ? ?]; congruence.
Qed.

Lemma strip_prefix_app (p r : str) : strip_prefix p (p ++ r) = Some r.
Proof. by apply strip_prefix_Some. Qed.

Lemma strip_prefix_length (p s r : str) :
  strip_prefix p s = Some r -> length s = length p + length r.
Proof. intros ->%strip_prefix_Some. by rewrite length_app. Qed.

Lemma find_sub_Some (p s b a : str) :
  find_sub p s = Some (b, a) -> s = b ++ p ++ a.
Proof.
  revert b; induction s as [|c s IH]; intros b; simpl.
  - destruct (strip_prefix p []) eqn:E; [|discriminate].
    intros [= <- <-]. by apply strip_prefix_Some in E.
  - destruct (strip_prefix p (c :: s)) eqn:E.
    + intros [= <- <-]. by apply strip_prefix_Some in E.
    + destruct (find_sub p s) as [[b' a']|]; [|discriminate].
      intros [= <- <-]. simpl. f_equal. by apply IH.
Qed.

Lemma find_sub_length (p s b a : str) :
  find_sub p s = Some (b, a) -> length s = length b + length p + length a.
Proof. intros ->%find_sub_Some. rewrite !length_app. lia. Qed.

Lemma find_sub_cons_None (p : str) (c : N) (s : str) :
  find_sub p (c :: s) = None ->
  strip_prefix p (c :: s) = None /\ find_sub p s = None.
Proof.
  simpl. destruct (strip_prefix p (c :: s)); [discriminate|].
  by destruct (find_sub p s) as [[??]|].
Qed.

(** ** Scans *)

Section ScanFacts.
Context {M : Type} (match_at : str -> option (M * str)).

Hypothesis Hprog : progresses match_at.

Lemma scan_fuel_enough (n k : nat) (s : str) :
  length s < n -> length s < k ->
  scan_fuel match_at n s = scan_fuel match_at k s.
Proof.
  revert k s; induction n as [|n IH]; intros k s Hn Hk; [lia|].
  destruct k as [|k]; [lia|]. simpl.
  destruct (match_at s) as [[m rest]|] eqn:E.
  - apply Hprog in E. f_equal. apply IH; lia.
  - destruct s as [|c s]; [done|]. simpl in *. f_equal. apply IH; lia.
Qed.

Lemma scan_unfold (s : str) :
  scan match_at s =
  match match_at s with
  | Some (m, rest) => Hit m :: scan match_at rest
  | None =>
      match s with
      | [] => []
      | c :: s' => Lit c :: scan match_at s'
      end
  end.
Proof.
  unfold scan at 1. simpl.
  destruct (match_at s) as [[m rest]|] eqn:E.
  - apply Hprog in E. f_equal. apply scan_fuel_enough; lia.
  - destruct s as [|c s]; [done|]. f_equal.
Qed.

Lemma replace_g_unfold (cb : M -> str) (s : str) :
  replace_g match_at cb s =
  match match_at s with
  | Some (m, rest) => cb m ++ replace_g match_at cb rest
  | None =>
      match s with
      | [] => []
      | c :: s' => c :: replace_g match_at cb s'
      end
  end.
Proof.
  unfold replace_g. rewrite scan_unfold.
  destruct (match_at s) as [[m rest]|]; [done|]. by destruct s.
Qed.
End ScanFacts.

Lemma lit_at_progresses (p : str) : p <> [] -> progresses (lit_at p).
Proof.
  intros Hp s m rest. unfold lit_at.
  destruct (strip_prefix p s) eqn:E; [|discriminate].
  intros [= _ <-]. apply strip_prefix_length in E.
  destruct p; [done|]. simpl in E. lia.
Qed.

Lemma replace_lit_hit (p r s : str) :
  p <> [] -> replace_lit p r (p ++ s) = r ++ replace_lit p r s.
Proof.
  intros Hp. unfold replace_lit.
  rewrite (replace_g_unfold _ (lit_at_progresses p Hp)).
  unfold lit_at at 1. by rewrite strip_prefix_app.
Qed.

Lemma replace_lit_miss (p r : str) (c : N) (s : str) :
  p <> [] -> strip_prefix p (c :: s) = None ->
  replace_lit p r (c :: s) = c :: replace_lit p r s.
Proof.
  intros Hp Hm. unfold replace_lit.
  rewrite (replace_g_unfold _ (lit_at_progresses p Hp)).
  unfold lit_at at 1. by rewrite Hm.
Qed.

Lemma replace_lit_nil (p r : str) : p <> [] -> replace_lit p r [] = [].
Proof. intros Hp. by destruct p. Qed.

Lemma replace_lit_hit' (p r s rest : str) :
  p <> [] -> strip_prefix p s = Some rest ->
  replace_lit p r s = r ++ replace_lit p r rest.
Proof. intros Hp ->%strip_prefix_Some. by apply replace_lit_hit. Qed.

(** An induction principle that follows a literal replacement. *)
Lemma replace_lit_ind (p r : str) (P : str -> str -> Prop) :
  p <> [] ->
  P [] [] ->
  (forall s, P s (replace_lit p r s) -> P (p ++ s) (r ++ replace_lit p r s)) ->
  (forall c s, strip_prefix p (c :: s) = None ->
               P s (replace_lit p r s) -> P (c :: s) (c :: replace_lit p r s)) ->
  forall s, P s (replace_lit p r s).
Proof.
  intros Hp Hnil Hhit Hmiss s.
  remember (length s) as n eqn:Hn. revert s Hn.
  induction n as [n IH] using lt_wf_ind. intros s ->.
  destruct (strip_prefix p s) as [rest|] eqn:E.
  - apply strip_prefix_Some in E as ->. rewrite replace_lit_hit by done.
    apply Hhit. eapply IH; [|done]. rewrite length_app.
    destruct p; [done|]. simpl. lia.
  - destruct s as [|c s].
    + by rewrite replace_lit_nil.
    + rewrite replace_lit_miss by done. apply Hmiss; [done|].
      eapply IH; [|done]. simpl. lia.
Qed.

(** ** Escaping and decoding *)

Ltac unit_cases c :=
  destruct (N.eqb_spec c ch_lt) as [->|?];
  [|destruct (N.eqb_spec c ch_gt) as [->|?];
    [|destruct (N.eqb_spec c ch_amp) as [->|?];
      [|destruct (N.eqb_spec c ch_apos) as [->|?];
        [|destruct (N.eqb_spec c ch_quot) as [->|?]]]]].

Lemma escape_unit_plain (c : N) :
  c <> ch_lt -> c <> ch_gt -> c <> ch_amp -> c <> ch_apos -> c <> ch_quot ->
  escape_unit c = [c].
Proof.
  intros. unfold escape_unit.
  by rewrite !(proj2 (N.eqb_neq c _)) by done.
Qed.

Lemma escape_after_0 (s : str) : flat_map (escape_after 0) s = escapeXml s.
Proof.
  unfold escapeXml. induction s as [|c s IH]; [done|]. simpl. rewrite IH.
  f_equal. unfold escape_after. simpl.
  unit_cases c; try done.
  rewrite escape_unit_plain by done. by destruct (_ || _).
Qed.

Lemma escape_after_5 (s : str) : flat_map (escape_after 5) s = s.
Proof. induction s as [|c s IH]; [done|]. simpl. by rewrite IH. Qed.

Lemma escape_after_shape (k : nat) (c : N) :
  escape_after k c = [c] \/ exists t, escape_after k c = ch_amp :: t.
Proof.
  unfold escape_after. destruct (existsb _ _); [|by left].
  unit_cases c; try (right; eexists; reflexivity).
  left. by apply escape_unit_plain.
Qed.

(** A plain text at the head of a partly decoded text stands at the
    head of the text itself. *)
Lemma plain_prefix_reflect (k : nat) (q s t : str) :
  Forall (fun x => x <> ch_amp) q ->
  strip_prefix q (flat_map (escape_after k) s) = Some t ->
  exists s', strip_prefix q s = Some s'.
Proof.
  intros Hq. revert s t. induction Hq as [|a q Ha Hq IH]; intros s t.
  { intros _. by exists s. }
  destruct s as [|c s]; [discriminate|]. simpl.
  destruct (escape_after_shape k c) as [->|[u ->]]; simpl.
  - destruct (N.eqb_spec a c); [|discriminate]. apply IH.
  - destruct (N.eqb_spec a ch_amp); [done|discriminate].
Qed.

Lemma ent_nonempty (x : N) : escape_unit x <> [].
Proof. unfold escape_unit. by repeat destruct (_ =? _)%N. Qed.

Lemma escape_after_plain (k : nat) (c : N) :
  c <> ch_lt -> c <> ch_gt -> c <> ch_amp -> c <> ch_apos -> c <> ch_quot ->
  escape_after k c = [c].
Proof.
  intros. unfold escape_after. rewrite escape_unit_plain by done.
  by destruct (existsb _ _).
Qed.

(** A character other than the first of the pattern is copied. *)
Lemma replace_lit_other (a : N) (q r : str) (c : N) (s : str) :
  c <> a ->
  replace_lit (a :: q) r (c :: s) = c :: replace_lit (a :: q) r s.
Proof.
  intros Hc. apply replace_lit_miss; [done|]. simpl.
  by destruct (N.eqb_spec a c).
Qed.

Lemma strip_prefix_same (a : N) (q s : str) :
  strip_prefix (a :: q) (a :: s) = strip_prefix q s.
Proof. simpl. by rewrite N.eqb_refl. Qed.

Ltac eval_closed t :=
  let v := eval vm_compute in t in change t with v.

Lemma decode_step (k : nat) (x : N) (s : str) :
  decode_order !! k = Some x ->
  (3 <= k -> find_sub (escape_unit x) s = None) ->
  replace_lit (escape_unit x) [x] (flat_map (escape_after k) s)
  = flat_map (escape_after (S k)) s.
Proof.
  intros Hk Hs. induction s as [|c s IH].
  { apply replace_lit_nil, ent_nonempty. }
  assert (IH' : replace_lit (escape_unit x) [x] (flat_map (escape_after k) s)
                = flat_map (escape_after (S k)) s).
  { apply IH. intros Hk3. by destruct (find_sub_cons_None _ _ _ (Hs Hk3)). }
  clear IH.
  change (flat_map (escape_after k) (c :: s))
    with (escape_after k c ++ flat_map (escape_after k) s).
  change (flat_map (escape_after (S k)) (c :: s))
    with (escape_after (S k) c ++ flat_map (escape_after (S k)) s).
  rewrite <- IH'. clear IH'.
  assert (Hamp : 3 <= k -> strip_prefix (escape_unit x)
                             (ch_amp :: flat_map (escape_after k) s) = None
                           \/ c <> ch_amp).
  { intros Hk3. destruct (N.eq_dec c ch_amp) as [->|]; [left|by right].
    specialize (Hs Hk3). apply find_sub_cons_None in Hs as [Hs _].
    destruct (strip_prefix _ (ch_amp :: flat_map _ _)) as [t|] eqn:E; [|done].
    exfalso. revert E Hs.
    destruct k as [|[|[|[|[|k]]]]]; try lia; cbn in Hk; try discriminate; injection Hk as <-.
    - eval_closed (escape_unit ch_apos). rewrite !strip_prefix_same.
      intros [s' E]%plain_prefix_reflect; [congruence|].
      repeat constructor; done.
    - eval_closed (escape_unit ch_quot). rewrite !strip_prefix_same.
      intros [s' E]%plain_prefix_reflect; [congruence|].
      repeat constructor; done. }
  set (F := flat_map (escape_after k) s) in *. clearbody F. clear Hs.
  destruct k as [|[|[|[|[|k]]]]]; cbn in Hk; try discriminate; injection Hk as <-.
  all: unit_cases c; rewrite ?escape_after_plain by done.
  all: match goal with
       | |- replace_lit ?p ?r (?e ++ ?G) = ?e' ++ _ =>
           let pv := eval vm_compute in p in
           let rv := eval vm_compute in r in
           let ev := eval vm_compute in e in
           let ev' := eval vm_compute in e' in
           change (replace_lit pv rv (ev ++ G) = ev' ++ replace_lit pv rv G)
       end; cbn [app].
  all: first
    [ by erewrite replace_lit_hit' by (done || reflexivity)
    | by rewrite !replace_lit_miss by (done || reflexivity)
    | by rewrite replace_lit_other by done
    | idtac ].
  all: destruct Hamp as [H|H]; [lia| |done].
  all: by apply replace_lit_miss.
Qed.

(** Escaping then decoding gives the text back when the text holds
    neither the entity of the apostrophe nor that of the double quote. *)
Lemma decode_escape (s : str) :
  find_sub ent_apos s = None -> find_sub ent_quot s = None ->
  decodeXml (escapeXml s) = s.
Proof.
  intros Ha Hq. unfold decodeXml. rewrite <- escape_after_0.
  rewrite (decode_step 0 ch_lt) by (done || lia).
  rewrite (decode_step 1 ch_gt) by (done || lia).
  rewrite (decode_step 2 ch_amp) by (done || lia).
  rewrite (decode_step 3 ch_apos) by done.
  rewrite (decode_step 4 ch_quot) by done.
  apply escape_after_5.
Qed.

Lemma strip_prefix_ne (a b : N) (q s : str) :
  a <> b -> strip_prefix (a :: q) (b :: s) = None.
Proof. intros H. simpl. by destruct (N.eqb_spec a b). Qed.

Lemma find_sub_cons_None_iff (p : str) (c : N) (s : str) :
  find_sub p (c :: s) = None <->
  strip_prefix p (c :: s) = None /\ find_sub p s = None.
Proof.
  split; [apply find_sub_cons_None|]. intros [H1 H2]. simpl in *.
  by rewrite H1, H2.
Qed.

Lemma find_sub_app_None (p a s : str) :
  find_sub p (a ++ s) = None -> find_sub p s = None.
Proof.
  induction a as [|c a IH]; [done|]. intros H.
  apply IH. by apply (find_sub_cons_None p c).
Qed.

(** What stands at the head of the result of a replacement and does
    not hold the replacing character stood at the head of the text. *)
Lemma replace_prefix_reflect (p q : str) (rc : N) (s t : str) :
  p <> [] -> Forall (fun x => x <> rc) q ->
  strip_prefix q (replace_lit p [rc] s) = Some t ->
  exists s', strip_prefix q s = Some s'.
Proof.
  intros Hp. revert s t. induction q as [|a q IH]; intros s t Hq.
  { intros _. by exists s. }
  apply Forall_cons in Hq as [Ha Hq].
  destruct (strip_prefix p s) as [rest|] eqn:E.
  - erewrite replace_lit_hit' by done. simpl.
    destruct (N.eqb_spec a rc); [congruence|discriminate].
  - destruct s as [|c s]; [by rewrite replace_lit_nil|].
    rewrite replace_lit_miss by done. simpl.
    destruct (N.eqb_spec a c); [|discriminate]. by apply IH.
Qed.

(** A replacement whose replacing character does not occur in [q]
    creates no occurrence of [q]. *)
Lemma find_sub_replace_None (p q : str) (rc : N) (s : str) :
  p <> [] -> q <> [] -> Forall (fun x => x <> rc) q ->
  find_sub q s = None -> find_sub q (replace_lit p [rc] s) = None.
Proof.
  intros Hp Hq Hrc. pattern s, (replace_lit p [rc] s).
  apply replace_lit_ind; [done|done| |]; clear s.
  - intros s IH H. apply find_sub_app_None in H. specialize (IH H).
    simpl app. apply find_sub_cons_None_iff. split; [|done].
    destruct q as [|a q]; [done|]. apply strip_prefix_ne.
    by apply Forall_cons in Hrc as [Ha _].
  - intros c s Hm IH H. apply find_sub_cons_None_iff in H as [H1 H2].
    apply find_sub_cons_None_iff. split; [|by apply IH].
    destruct (strip_prefix q (c :: replace_lit p [rc] s)) as [t|] eqn:E; [|done].
    rewrite <- (replace_lit_miss p [rc] c s) in E by done.
    apply replace_prefix_reflect in E as [s' E]; [|done..]. congruence.
Qed.

(** After the replacement of every occurrence of [p] by a character
    that is not in [p], no occurrence of [p] is left. *)
Lemma find_sub_replace_self (p : str) (rc : N) (s : str) :
  p <> [] -> Forall (fun x => x <> rc) p -> find_sub p (replace_lit p [rc] s) = None.
Proof.
  intros Hp Hrc. pattern s, (replace_lit p [rc] s).
  apply replace_lit_ind; [done|by destruct p| |]; clear s.
  - intros s IH. simpl app. apply find_sub_cons_None_iff. split; [|done].
    destruct p as [|a p]; [done|]. apply strip_prefix_ne.
    by apply Forall_cons in Hrc as [Ha _].
  - intros c s Hm IH. apply find_sub_cons_None_iff. split; [|done].
    destruct (strip_prefix p (c :: replace_lit p [rc] s)) as [t|] eqn:E; [|done].
    rewrite <- (replace_lit_miss p [rc] c s) in E by done.
    apply replace_prefix_reflect in E as [s' E]; [|done..]. congruence.
Qed.

Lemma decodeXml_no_apos (s : str) : find_sub ent_apos (decodeXml s) = None.
Proof.
  unfold decodeXml. apply find_sub_replace_None; [done|done| |].
  - by repeat constructor.
  - apply find_sub_replace_self; [done|]. by repeat constructor.
Qed.

Lemma decodeXml_no_quot (s : str) : find_sub ent_quot (decodeXml s) = None.
Proof.
  unfold decodeXml. apply find_sub_replace_self; [done|].
  by repeat constructor.
Qed.


(** The five entities as texts of their own: the first three, which are
    decoded before or with the ampersand, come back as they are; the
    last two, which are decoded after it, come back as their
    character. *)
Lemma decode_escape_entities :
  decodeXml (escapeXml ent_lt) = ent_lt
  /\ decodeXml (escapeXml ent_gt) = ent_gt
  /\ decodeXml (escapeXml ent_amp) = ent_amp
  /\ decodeXml (escapeXml ent_apos) = [ch_apos]
  /\ decodeXml (escapeXml ent_quot) = [ch_quot].
Proof. repeat split; by vm_compute. Qed.

(** C10.  Escaping then decoding gives back every text that holds none
    of the five entities; the condition cannot be dropped, since the
    text of the apostrophe entity itself comes back as an apostrophe. *)
Theorem decode_escape_roundtrip :
  (forall s : str,
     includes ent_lt s = false -> includes ent_gt s = false ->
     includes ent_amp s = false -> includes ent_apos s = false ->
     includes ent_quot s = false ->
     decodeXml (escapeXml s) = s)
  /\ decodeXml (escapeXml ent_apos) = [ch_apos]
  /\ decodeXml (escapeXml ent_apos) <> ent_apos.
Proof.
  split; [|split; [by vm_compute|by vm_compute]].
  intros s _ _ _ Ha Hq. unfold includes in Ha, Hq.
  apply decode_escape.
  - by destruct (find_sub ent_apos s).
  - by destruct (find_sub ent_quot s).
Qed.

Lemma decode_escape_roundtrip_witness :
  decodeXml (escapeXml (lit "a<b> & 'c'")) = lit "a<b> & 'c'".
Proof.
  apply (proj1 decode_escape_roundtrip); reflexivity.
Defined.

Section CollaboratorFacts.
Variable api_key_present : bool.
Variable JSON_parse : str -> parsed.
Variable generateContent : nat -> api_outcome.

#[local] Abbreviation attempts := (attempts JSON_parse generateContent).
#[local] Abbreviation translateBatch :=
  (translateBatch api_key_present JSON_parse generateContent).

Lemma attempts_length (remaining attempt : nat) (texts out : list str) :
  attempts remaining attempt texts = Ok out -> length out = length texts.
Proof.
  revert attempt. induction remaining as [|n IH]; intros attempt; simpl.
  { by intros [= <-]. }
  destruct (generateContent attempt) as [[[|c j]|]|e|type_error]; try discriminate.
  - destruct (JSON_parse (c :: j)); intros [= <-]; try done.
    by rewrite length_imap.
  - destruct (isQuotaExhausted e); [discriminate|].
    destruct (_ && _); [apply IH|].
    by destruct (isRateLimit e).
Qed.

Lemma attempts_retried (n : nat) (texts : list str) :
  retried generateContent n -> n <= maxRetries ->
  attempts (S maxRetries) 0 texts = attempts (S maxRetries - n) n texts.
Proof.
  intros Hr. induction n as [|n IH]; intros Hn; [done|].
  rewrite IH by (try lia; intros i Hi; apply Hr; lia).
  replace (S maxRetries - n) with (S (S maxRetries - S n)) by lia.
  simpl. destruct (Hr n ltac:(lia)) as (e & -> & -> & ->). simpl.
  destruct (Nat.ltb_spec n maxRetries) as [|Hn']; [done|]. lia.
Qed.

(** C6, as the code has it.  A call that returns gives as many texts
    as it was given; a response whose text is not empty and does not
    parse, or is not an array, gives the texts back unchanged; where a
    parsed response has no item for an index, the text given at that
    index stands there.  A response whose text is empty or absent is
    not echoed, whatever the parser makes of it: the call fails with
    the error of the empty response. *)
Theorem translateBatch_fallback (texts : list str) :
  (forall out, translateBatch texts = Ok out -> length out = length texts)
  /\ (forall n jsonText,
        api_key_present = true -> retried generateContent n -> n <= maxRetries ->
        generateContent n = Response (Some jsonText) -> jsonText <> [] ->
        JSON_parse jsonText = SyntaxError \/ JSON_parse jsonText = NotArray ->
        translateBatch texts = Ok texts)
  /\ (forall n jsonText l,
        api_key_present = true -> retried generateContent n -> n <= maxRetries ->
        generateContent n = Response (Some jsonText) -> jsonText <> [] ->
        JSON_parse jsonText = Items l ->
        exists out,
          translateBatch texts = Ok out
          /\ forall index text,
               texts !! index = Some text ->
               map_get (of_nat index) (collect l) = None ->
               out !! index = Some text)
  /\ (forall n,
        api_key_present = true -> retried generateContent n -> n <= maxRetries ->
        generateContent n = Response (Some [])
        \/ generateContent n = Response None ->
        translateBatch texts = Throw EmptyResponse).
Proof.
  split; [|split; [|split]]; cycle 3.
  { intros n -> Hr Hn Hg. unfold Gemini.translateBatch.
    rewrite (attempts_retried n) by done.
    replace (S maxRetries - n) with (S (maxRetries - n)) by lia.
    simpl. by destruct Hg as [-> | ->]. }
  - intros out. unfold Gemini.translateBatch.
    destruct api_key_present; [apply attempts_length|discriminate].
  - intros n jsonText -> Hr Hn Hg Hne Hp. unfold Gemini.translateBatch.
    rewrite (attempts_retried n) by done.
    replace (S maxRetries - n) with (S (maxRetries - n)) by lia.
    simpl. rewrite Hg. destruct jsonText as [|c j]; [done|].
    by destruct Hp as [-> | ->].
  - intros n jsonText l -> Hr Hn Hg Hne Hp. unfold Gemini.translateBatch.
    rewrite (attempts_retried n) by done.
    replace (S maxRetries - n) with (S (maxRetries - n)) by lia.
    simpl. rewrite Hg. destruct jsonText as [|c j]; [done|]. rewrite Hp.
    eexists. split; [done|]. intros index text Ht Hm.
    rewrite list_lookup_imap, Ht. simpl. unfold resolve. by rewrite Hm.
Qed.
End CollaboratorFacts.

Lemma translateBatch_fallback_witness :
  exists out,
    translateBatch true demo_parse demo_service [lit "a"; lit "b"] = Ok out
    /\ forall index text,
         [lit "a"; lit "b"] !! index = Some text ->
         map_get (of_nat index) (collect [Some {| id := Some (lit "1"); translatedText := lit "B" |}]) = None ->
         out !! index = Some text.
Proof.
  refine (proj1 (proj2 (proj2 (translateBatch_fallback true demo_parse
                                 demo_service [lit "a"; lit "b"])))
            1 (lit "[...]") _ _ _ _ _ _ _).
  - reflexivity.
  - intros i Hi. assert (i = 0) as -> by lia.
    eexists. split; [reflexivity|]. split; reflexivity.
  - unfold maxRetries. lia.
  - reflexivity.
  - discriminate.
  - reflexivity.
Defined.

(** C6 fails as it is stated on the empty text: it does not parse,
    and the call throws instead of giving the texts back. *)
Lemma echo_of_empty_response_fails :
  no_parse [] = SyntaxError
  /\ empty_service 0 = Response (Some [])
  /\ translateBatch true no_parse empty_service [lit "a"]
     = Throw EmptyResponse
  /\ ~ echoes_invalid true no_parse empty_service [lit "a"].
Proof.
  split; [done|]. split; [done|]. split; [done|].
  intros H. specialize (H 0 [] eq_refl).
  assert (translateBatch true no_parse empty_service [lit "a"]
          = Ok [lit "a"]) as Hecho.
  { apply H; [intros i Hi; lia|unfold maxRetries; lia|done|by left]. }
  discriminate Hecho.
Qed.

(** ** Batches *)

Lemma ceil_div_spec (n : nat) :
  n <= BATCH_SIZE * ceil_div n BATCH_SIZE
  /\ (0 < n -> BATCH_SIZE * (ceil_div n BATCH_SIZE - 1) < n).
Proof.
  unfold ceil_div, BATCH_SIZE.
  pose proof (Nat.div_mod_eq n 20) as Hd.
  pose proof (Nat.mod_upper_bound n 20 ltac:(lia)) as Hm.
  destruct (Nat.eqb_spec (n mod 20) 0); lia.
Qed.

Lemma ceil_div_zero (n : nat) : ceil_div n BATCH_SIZE = 0 <-> n = 0.
Proof.
  split.
  - pose proof (ceil_div_spec n). lia.
  - by intros ->.
Qed.

Lemma chunks_take (allStrings : list str) (m : nat) :
  List.concat (List.map (chunk_of allStrings) (seq 0 m))
  = take (m * BATCH_SIZE) allStrings.
Proof.
  induction m as [|m IH]; [done|].
  rewrite seq_S, List.map_app, List.concat_app, IH. simpl.
  rewrite app_nil_r. unfold chunk_of, slice, BATCH_SIZE.
  replace (m * 20 + 20 - m * 20) with 20 by lia.
  rewrite take_take_drop. f_equal. lia.
Qed.

Lemma chunk_of_length (allStrings : list str) (i : nat) :
  length (chunk_of allStrings i)
  = Nat.min BATCH_SIZE (length allStrings - i * BATCH_SIZE).
Proof.
  unfold chunk_of, slice, BATCH_SIZE. rewrite length_take, length_drop. lia.
Qed.

Section OrchestrationFacts.
Variable translateBatch : nat -> list str -> outcome exn (list str).
Variable allStrings : list str.
Variable total : nat.

#[local] Abbreviation loop := (batch_loop translateBatch allStrings total).

(** The loop calls the collaborator on the successive batches and on
    nothing else, whatever it answers. *)
Lemma batch_loop_calls (remaining i : nat) (tm : gmap str (option str)) :
  exists k, k <= remaining
    /\ calls_of (loop remaining i tm).1.2
       = List.map (chunk_of allStrings) (seq i k).
Proof.
  revert i tm. induction remaining as [|n IH]; intros i tm.
  { exists 0. done. }
  simpl. fold (chunk_of allStrings i).
  destruct (translateBatch i (chunk_of allStrings i)) as [out|e].
  - destruct (IH (S i) (commit (chunk_of allStrings i) out tm)) as (k & Hk & Hc).
    destruct (loop n (S i) _) as [[tm' evs] r]. simpl in *.
    exists (S k). split; [lia|]. simpl. f_equal.
    destruct (i <? total - 1); simpl; done.
  - exists 1. split; [lia|done].
Qed.

(** While the calls succeed the loop goes on. *)
Lemma batch_loop_success (remaining i : nat) (tm : gmap str (option str)) :
  (forall i', i <= i' < i + remaining ->
     exists out, translateBatch i' (chunk_of allStrings i') = Ok out) ->
  exists tm' evs,
    loop remaining i tm = (tm', evs, Ok tt)
    /\ calls_of evs = List.map (chunk_of allStrings) (seq i remaining).
Proof.
  revert i tm. induction remaining as [|n IH]; intros i tm Hs.
  { by exists tm, []. }
  simpl. fold (chunk_of allStrings i).
  destruct (Hs i ltac:(lia)) as [out ->].
  destruct (IH (S i) (commit (chunk_of allStrings i) out tm)
              ltac:(intros; apply Hs; lia)) as (tm' & evs & -> & Hc).
  eexists _, _. split; [done|]. simpl. f_equal.
  destruct (i <? total - 1); simpl; done.
Qed.

(** A loop of [a + b] iterations is a loop of [a] iterations followed,
    when these succeed, by a loop of [b] iterations. *)
Lemma batch_loop_split (a b i : nat) (tm : gmap str (option str)) :
  loop (a + b) i tm =
  match loop a i tm with
  | (tm', evs, Ok _) =>
      let '(tm'', evs', r) := loop b (i + a) tm' in (tm'', evs ++ evs', r)
  | failed => failed
  end.
Proof.
  revert i tm. induction a as [|a IH]; intros i tm.
  { simpl. rewrite Nat.add_0_r. by destruct (loop b i tm) as [[??]?]. }
  simpl. destruct (translateBatch i _) as [out|e]; [|done].
  rewrite IH. destruct (loop a (S i) _) as [[tm' evs] [[]|e]]; [|done].
  replace (i + S a) with (S i + a) by lia.
  destruct (loop b (S i + a) tm') as [[tm'' evs'] r].
  simpl. by rewrite app_assoc.
Qed.
End OrchestrationFacts.

(** ** Committing a batch *)

Lemma commit_from_other (index : nat) (chunk tr : list str)
    (tm : gmap str (option str)) (k : str) :
  k ∉ chunk -> commit_from index chunk tr tm !! k = tm !! k.
Proof.
  revert index tm. induction chunk as [|o chunk IH]; intros index tm Hk; [done|].
  apply not_elem_of_cons in Hk as [Hne Hk]. simpl.
  rewrite IH by done. by rewrite lookup_insert_ne.
Qed.

Lemma commit_from_lookup (index : nat) (chunk tr : list str)
    (tm : gmap str (option str)) (j : nat) (k : str) :
  NoDup chunk -> chunk !! j = Some k ->
  commit_from index chunk tr tm !! k = Some (tr !! (index + j)).
Proof.
  revert index tm j. induction chunk as [|o chunk IH]; intros index tm j Hnd Hj;
    [done|].
  apply NoDup_cons in Hnd as [Ho Hnd]. simpl. destruct j as [|j]; simpl in Hj.
  - injection Hj as ->. rewrite commit_from_other by done.
    rewrite lookup_insert_eq. by rewrite Nat.add_0_r.
  - rewrite (IH _ _ j) by done. do 2 f_equal. lia.
Qed.

Lemma commit_from_is_Some (index : nat) (chunk tr : list str)
    (tm : gmap str (option str)) (k : str) :
  is_Some (commit_from index chunk tr tm !! k) <-> k ∈ chunk \/ is_Some (tm !! k).
Proof.
  revert index tm. induction chunk as [|o chunk IH]; intros index tm; simpl.
  - rewrite elem_of_nil. naive_solver.
  - rewrite IH, elem_of_cons, lookup_insert_is_Some. 
    destruct (decide (o = k)); naive_solver.
Qed.

Lemma commit_from_size (index : nat) (chunk tr : list str)
    (tm : gmap str (option str)) :
  NoDup chunk -> (forall k, k ∈ chunk -> tm !! k = None) ->
  size (commit_from index chunk tr tm) = size tm + length chunk.
Proof.
  revert index tm. induction chunk as [|o chunk IH]; intros index tm Hnd Hf;
    simpl; [lia|].
  apply NoDup_cons in Hnd as [Ho Hnd].
  rewrite IH; [|done|].
  - rewrite map_size_insert_None; [lia|]. apply Hf. by left.
  - intros k Hk. rewrite lookup_insert_ne; [apply Hf; by right|].
    intros ->. done.
Qed.

(** ** The batches of a list without repetition *)

Lemma chunk_of_subseteq (allStrings : list str) (i : nat) (k : str) :
  k ∈ chunk_of allStrings i -> k ∈ drop (i * BATCH_SIZE) allStrings.
Proof. unfold chunk_of, slice. apply subseteq_take. Qed.

Lemma chunk_of_NoDup (allStrings : list str) (i : nat) :
  NoDup allStrings -> NoDup (chunk_of allStrings i).
Proof.
  intros H. unfold chunk_of, slice.
  eapply sublist_NoDup; [|apply sublist_take].
  eapply sublist_NoDup; [done|apply sublist_drop].
Qed.

Lemma chunk_of_fresh (allStrings : list str) (i : nat) (k : str) :
  NoDup allStrings -> k ∈ chunk_of allStrings i ->
  k ∉ take (i * BATCH_SIZE) allStrings.
Proof.
  intros Hnd Hk%chunk_of_subseteq Ht.
  rewrite <- (take_drop (i * BATCH_SIZE) allStrings) in Hnd.
  apply NoDup_app in Hnd as (_ & Hd & _). by apply (Hd k).
Qed.

Lemma take_chunk (allStrings : list str) (i : nat) :
  take (S i * BATCH_SIZE) allStrings
  = take (i * BATCH_SIZE) allStrings ++ chunk_of allStrings i.
Proof.
  unfold chunk_of, slice, BATCH_SIZE.
  replace (i * 20 + 20 - i * 20) with 20 by lia.
  rewrite take_take_drop. f_equal. lia.
Qed.

Section CommitsFacts.
Variable translateBatch : nat -> list str -> outcome exn (list str).
Variable allStrings : list str.
Variable total : nat.
Variable tm0 : gmap str (option str).

#[local] Abbreviation loop := (batch_loop translateBatch allStrings total).
#[local] Abbreviation after := (fun j => commits translateBatch allStrings j tm0).

Lemma loop_commits (j : nat) :
  succeeds_before translateBatch allStrings j ->
  exists evs,
    loop j 0 tm0 = (after j, evs, Ok tt)
    /\ calls_of evs = List.map (chunk_of allStrings) (seq 0 j).
Proof.
  induction j as [|j IH]; intros Hs.
  { by exists []. }
  destruct (IH ltac:(intros i Hi; apply Hs; lia)) as (evs & Hl & Hc).
  pose proof (batch_loop_split translateBatch allStrings total j 1 0 tm0)
    as Hsplit.
  replace (j + 1) with (S j) in Hsplit by lia.
  rewrite Hsplit, Hl, seq_S, List.map_app. simpl.
  fold (chunk_of allStrings j).
  destruct (Hs j ltac:(lia)) as [out ->].
  eexists. split; [done|].
  unfold calls_of in *. rewrite omap_app, Hc. simpl.
  f_equal. by destruct (j <? total - 1).
Qed.

(** The loop stops at the first call that throws: the map holds what
    the batches before it committed, and no later call is made. *)
Lemma loop_abort (remaining k : nat) (e : exn) :
  k < remaining ->
  succeeds_before translateBatch allStrings k ->
  translateBatch k (chunk_of allStrings k) = Throw e ->
  exists evs,
    loop remaining 0 tm0 = (after k, evs, Throw e)
    /\ calls_of evs = List.map (chunk_of allStrings) (seq 0 (S k)).
Proof.
  intros Hk Hs He. destruct (loop_commits k Hs) as (evs & Hl & Hc).
  pose proof (batch_loop_split translateBatch allStrings total
                k (S (remaining - S k)) 0 tm0) as Hsplit.
  replace (k + S (remaining - S k)) with remaining in Hsplit by lia.
  rewrite Hsplit, Hl, seq_S, List.map_app. simpl.
  fold (chunk_of allStrings k). rewrite He.
  eexists. split; [done|].
  unfold calls_of in *. by rewrite omap_app, Hc.
Qed.

(** The keys after [j] successful batches. *)
Lemma commits_is_Some (j : nat) (k : str) :
  succeeds_before translateBatch allStrings j ->
  is_Some (after j !! k)
  <-> is_Some (tm0 !! k) \/ k ∈ take (j * BATCH_SIZE) allStrings.
Proof.
  induction j as [|j IH]; intros Hs.
  { simpl. rewrite elem_of_nil. naive_solver. }
  rewrite take_chunk, elem_of_app. cbn [commits].
  destruct (Hs j ltac:(lia)) as [out ->].
  unfold commit. rewrite commit_from_is_Some, IH by (intros i Hi; apply Hs; lia).
  naive_solver.
Qed.
End CommitsFacts.

(** C3.  The unique strings are cut into [ceil (n / 20)] consecutive
    batches of 20 strings, the last one possibly shorter; there is no
    batch exactly when there is no string; the collaborator is called
    on these batches in order and on nothing else; and without any
    string it is not called at all, while one progress state is still
    emitted, saying that nothing was to be translated. *)
Theorem batch_partition
    (translateBatch : nat -> list str -> outcome exn (list str))
    (p : Processor) :
  let allStrings := uniqueStrings p in
  let n := length allStrings in
  let total := ceil_div n BATCH_SIZE in
  (n <= BATCH_SIZE * total /\ (0 < n -> BATCH_SIZE * (total - 1) < n))
  /\ (total = 0 <-> n = 0)
  /\ List.concat (List.map (chunk_of allStrings) (seq 0 total)) = allStrings
  /\ (forall i, i < total ->
        length (chunk_of allStrings i)
        = (if decide (i = total - 1) then n - i * BATCH_SIZE else BATCH_SIZE)
        /\ 0 < length (chunk_of allStrings i) <= BATCH_SIZE)
  /\ (exists k, k <= total
        /\ calls_of (processTranslations translateBatch p).1.2
           = List.map (chunk_of allStrings) (seq 0 k))
  /\ ((forall i, i < total ->
         exists out, translateBatch i (chunk_of allStrings i) = Ok out) ->
      calls_of (processTranslations translateBatch p).1.2
      = List.map (chunk_of allStrings) (seq 0 total)
      /\ (processTranslations translateBatch p).2 = Ok tt)
  /\ (n = 0 ->
      processTranslations translateBatch p
      = (p,
         [Progress {| progress_status := rebuilding;
                      currentChunk := 0;
                      totalChunks := 0;
                      progress_message := Some (lit "No Japanese text found.");
                      progress_error := None |}],
         Ok tt)).
Proof.
  intros allStrings n total.
  pose proof (ceil_div_spec n) as [Hup Hlow]. fold total in Hup, Hlow.
  pose proof (ceil_div_zero n) as Hz. fold total in Hz.
  split; [done|]. split; [done|]. split; [|split; [|split; [|split]]].
  - rewrite chunks_take. apply take_ge. fold n. lia.
  - intros i Hi. rewrite chunk_of_length. fold n.
    unfold BATCH_SIZE in *. destruct (decide (i = total - 1)); lia.
  - unfold processTranslations. fold allStrings n total.
    destruct (Nat.eqb_spec total 0) as [H0|H0].
    { exists 0. split; [lia|done]. }
    destruct (batch_loop_calls translateBatch allStrings total total 0
                (translationMap p)) as (k & Hk & Hc).
    destruct (batch_loop _ _ _ _ _ _) as [[tm evs] r]. by exists k.
  - intros Hs. unfold processTranslations. fold allStrings n total.
    destruct (Nat.eqb_spec total 0) as [H0|H0].
    { rewrite H0. done. }
    destruct (batch_loop_success translateBatch allStrings total total 0
                (translationMap p)) as (tm & evs & -> & Hc).
    { intros i Hi. apply Hs. lia. }
    done.
  - intros Hn. unfold processTranslations. fold allStrings n total.
    by rewrite (proj2 Hz Hn).
Qed.

(** C4.  A successful batch stores one entry for each of its strings,
    the string at an index being mapped to what the collaborator gave
    at that index; the map grows by the number of strings of the
    batch, and no entry that was there is lost or changed.  The
    strings are those of a [Set], so without repetition, and the map
    holds none of them when the orchestration starts, as in a fresh
    processor. *)
Theorem positional_commit
    (translateBatch : nat -> list str -> outcome exn (list str))
    (allStrings : list str) (total : nat) (tm0 : gmap str (option str))
    (j : nat) (out : list str) :
  NoDup allStrings ->
  (forall k, k ∈ allStrings -> tm0 !! k = None) ->
  succeeds_before translateBatch allStrings j ->
  translateBatch j (chunk_of allStrings j) = Ok out ->
  let before := (batch_loop translateBatch allStrings total j 0 tm0).1.1 in
  let after := (batch_loop translateBatch allStrings total (S j) 0 tm0).1.1 in
  let chunk := chunk_of allStrings j in
  after = commit chunk out before
  /\ (forall index original,
        chunk !! index = Some original ->
        after !! original = Some (out !! index))
  /\ (forall k, is_Some (after !! k) <-> k ∈ chunk \/ is_Some (before !! k))
  /\ size after = size before + length chunk
  /\ (forall k v, before !! k = Some v -> after !! k = Some v).
Proof.
  intros Hnd Hfresh Hs Hout before after chunk.
  assert (Hs' : succeeds_before translateBatch allStrings (S j)).
  { intros i Hi. destruct (decide (i = j)) as [->|]; [by eexists|].
    apply Hs. lia. }
  destruct (loop_commits translateBatch allStrings total tm0 j Hs)
    as (evs & Hl & _).
  destruct (loop_commits translateBatch allStrings total tm0 (S j) Hs')
    as (evs' & Hl' & _).
  subst before after. rewrite Hl, Hl'. cbn [fst commits]. rewrite Hout.
  fold chunk.
  set (before := commits translateBatch allStrings j tm0).
  assert (Hnone : forall k, k ∈ chunk -> before !! k = None).
  { intros k Hk. apply eq_None_not_Some.
    unfold before. rewrite commits_is_Some by done. intros [Hin|Hin].
    - rewrite Hfresh in Hin; [by destruct Hin|].
      eapply subseteq_drop, chunk_of_subseteq, Hk.
    - by apply (chunk_of_fresh allStrings j k). }
  assert (Hndc : NoDup chunk) by by apply chunk_of_NoDup.
  split; [done|]. split; [|split; [|split]].
  - intros index original Hi. unfold commit.
    by rewrite (commit_from_lookup 0 chunk out before index).
  - intros k. apply commit_from_is_Some.
  - by apply commit_from_size.
  - intros k v Hk. unfold commit. rewrite commit_from_other; [done|].
    intros Hin. rewrite Hnone in Hk; done.
Qed.

(** ** The expressions of the processor *)

Ltac list_norm := repeat (progress (rewrite <- ?app_assoc; simpl)); try done.

Lemma span_app (f : N -> bool) (s a b : str) :
  span f s = (a, b) -> s = a ++ b.
Proof.
  revert a b. induction s as [|c s IH]; intros a b; simpl.
  - by intros [= <- <-].
  - destruct (f c); [|by intros [= <- <-]].
    destruct (span f s) as [a' b']. intros [= <- <-].
    simpl. f_equal. by apply IH.
Qed.

Lemma span_Forall (f : N -> bool) (s a b : str) :
  span f s = (a, b) -> Forall (fun c => f c = true) a.
Proof.
  revert a b. induction s as [|c s IH]; intros a b; simpl.
  - intros [= <- <-]. constructor.
  - destruct (f c) eqn:E; [|intros [= <- <-]; constructor].
    destruct (span f s) as [a' b']. intros [= <- <-].
    constructor; [done|]. by eapply IH.
Qed.

Lemma span_stop (f : N -> bool) (s a : str) (c : N) (b : str) :
  span f s = (a, c :: b) -> f c = false.
Proof.
  revert a. induction s as [|x s IH]; intros a; simpl; [discriminate|].
  destruct (f x) eqn:E.
  - destruct (span f s) as [a' b']. intros [= <- ->]. by eapply IH.
  - by intros [= <- <- <-].
Qed.

Lemma si_at_Some (s innerContent rest : str) :
  si_at s = Some (innerContent, rest) -> s = si_match innerContent ++ rest.
Proof.
  unfold si_at, si_match. destruct (strip_prefix si_open s) as [r|] eqn:E;
    [|discriminate].
  apply strip_prefix_Some in E as ->. intros ->%find_sub_Some.
  by rewrite <- !app_assoc.
Qed.

Lemma rph_at_Some (s body rest : str) :
  rph_at s = Some (body, rest) -> s = rph_open ++ body ++ rph_close ++ rest.
Proof.
  unfold rph_at. destruct (strip_prefix rph_open s) as [r|] eqn:E;
    [|discriminate].
  apply strip_prefix_Some in E as ->. by intros ->%find_sub_Some.
Qed.

Lemma open_tag_at_Some (tagName s openTag rest : str) :
  open_tag_at tagName s = Some (openTag, rest) -> s = openTag ++ rest.
Proof.
  unfold open_tag_at.
  destruct (strip_prefix (ch_lt :: tagName) s) as [[|c r]|] eqn:E;
    try discriminate.
  apply strip_prefix_Some in E as ->.
  destruct (N.eqb_spec c ch_gt) as [->|_].
  - intros [= <- <-]. list_norm.
  - destruct (is_space c); [|discriminate].
    destruct (span not_gt r) as [attrs [|g r']] eqn:Es; [discriminate|].
    intros [= <- <-]. apply span_app in Es as ->. list_norm.
Qed.

Lemma tag_at_Some (tagName s : str) (m : str * str) (rest : str) :
  tag_at tagName s = Some (m, rest) -> s = tag_match tagName m ++ rest.
Proof.
  unfold tag_at, tag_match.
  destruct (open_tag_at tagName s) as [[openTag r]|] eqn:E; [|discriminate].
  apply open_tag_at_Some in E as ->.
  destruct (find_sub (close_tag tagName) r) as [[inner rest']|] eqn:Ef;
    [|discriminate].
  intros [= <- <-]. apply find_sub_Some in Ef as ->. cbn [fst snd].
  by rewrite <- !app_assoc.
Qed.

Lemma sheet_at_Some (s sheetTag rest : str) :
  sheet_at s = Some (sheetTag, rest) -> s = sheetTag ++ rest.
Proof.
  unfold sheet_at.
  destruct (strip_prefix sheet_open s) as [[|c r]|] eqn:E; try discriminate.
  apply strip_prefix_Some in E as ->.
  destruct (is_space c); [|discriminate].
  destruct (span not_gt r) as [body [|g r']] eqn:Es; [discriminate|].
  intros [= <- <-]. apply span_app in Es as ->. list_norm.
Qed.

Lemma name_at_Some (s originalName rest : str) :
  name_at s = Some (originalName, rest) ->
  s = name_match originalName ++ rest.
Proof.
  unfold name_at, name_match.
  destruct (strip_prefix name_open s) as [r|] eqn:E; [|discriminate].
  apply strip_prefix_Some in E as ->.
  destruct (span not_quot r) as [[|c v] [|q r']] eqn:Es; try discriminate.
  intros [= <- <-]. pose proof (span_stop _ _ _ _ _ Es) as Hq.
  apply span_app in Es as ->. unfold not_quot in Hq.
  destruct (N.eqb_spec q ch_quot) as [->|]; [|done].
  list_norm.
Qed.

(** Each expression consumes at least one character. *)
Lemma progresses_of_text {M : Type} (match_at : str -> option (M * str))
    (text : M -> str) :
  (forall s m rest, match_at s = Some (m, rest) -> s = text m ++ rest) ->
  (forall m, text m <> []) ->
  progresses match_at.
Proof.
  intros Ht Hne s m rest E. apply Ht in E as ->. rewrite length_app.
  specialize (Hne m). destruct (text m); [done|]. simpl. lia.
Qed.

Lemma si_at_progresses : progresses si_at.
Proof. apply (progresses_of_text _ si_match); [apply si_at_Some|done]. Qed.

Lemma rph_at_progresses : progresses rph_at.
Proof.
  apply (progresses_of_text _ (fun b => rph_open ++ b ++ rph_close)); [|done].
  intros s m rest ->%rph_at_Some. by rewrite <- !app_assoc.
Qed.

Lemma tag_at_progresses (tagName : str) : progresses (tag_at tagName).
Proof.
  apply (progresses_of_text _ (tag_match tagName)); [apply tag_at_Some|].
  intros [o i]. unfold tag_match, close_tag. simpl.
  destruct o; [|done]. by destruct i.
Qed.

Lemma sheet_at_progresses : progresses sheet_at.
Proof.
  intros s m rest E. pose proof (sheet_at_Some _ _ _ E) as ->.
  rewrite length_app. unfold sheet_at in E.
  destruct (strip_prefix _ _) as [[|c r]|]; try discriminate.
  destruct (is_space c); [|discriminate].
  destruct (span not_gt r) as [body [|g r']]; [discriminate|].
  injection E as <- <-. simpl. lia.
Qed.

(** ** Rewriting match by match *)

Section RewriteFacts.
Context {M : Type} (match_at : str -> option (M * str)).

Lemma replace_g_throw_rewritten (cb : M -> option str) (xml xml' : str) :
  replace_g_throw match_at cb xml = Some xml' <->
  rewritten match_at (fun m out => cb m = Some out) xml xml'.
Proof.
  unfold replace_g_throw, rewritten.
  set (f := fun x : seg => match x with Lit c => Some [c] | Hit m => cb m end).
  assert (Hf : forall outs,
             Forall2 (fun x out => match x with
                                   | Lit c => out = [c]
                                   | Hit m => cb m = Some out
                                   end) (scan match_at xml) outs
             <-> mapM f (scan match_at xml) = Some outs).
  { intros outs. rewrite mapM_Some. split; intros H.
    - eapply Forall2_impl; [exact H|]. intros [c|m] out; unfold f; simpl; [|done].
      by intros ->.
    - eapply Forall2_impl; [exact H|]. intros [c|m] out; unfold f; simpl; [|done].
      by intros [= <-]. }
  split.
  - destruct (mapM _ (scan match_at xml)) as [pieces|] eqn:E; [|discriminate].
    intros [= <-]. exists pieces. split; [|done]. by apply Hf.
  - intros (outs & HF & ->). apply Hf in HF.
    destruct (mapM _ (scan match_at xml)) as [pieces|] eqn:E.
    + by injection HF as ->.
    + discriminate HF.
Qed.

Lemma rewritten_impl (R R' : M -> str -> Prop) (xml xml' : str) :
  rewritten match_at R xml xml' ->
  (forall m out, R m out -> R' m out) ->
  rewritten match_at R' xml xml'.
Proof.
  intros (outs & HF & ->) Himp. exists outs. split; [|done].
  eapply Forall2_impl; [exact HF|]. intros [c|m] out; simpl; auto.
Qed.


(** A callback that never throws makes a replacement that does not. *)
Lemma replace_g_throw_total (cb : M -> option str) (xml : str) :
  (forall m, is_Some (cb m)) -> is_Some (replace_g_throw match_at cb xml).
Proof.
  intros Hcb. unfold replace_g_throw.
  destruct (mapM _ _) as [pieces|] eqn:E; [by eexists|].
  exfalso. apply eq_None_not_Some in E. apply E. apply mapM_is_Some.
  apply Forall_forall. intros [c|m] _; [by eexists|apply Hcb].
Qed.

(** A callback that returns each match as it stands changes nothing. *)
Lemma scan_fuel_text (text : M -> str) (fuel : nat) (s : str) :
  (forall s m rest, match_at s = Some (m, rest) -> s = text m ++ rest) ->
  List.concat
    (List.map (fun x => match x with Lit c => [c] | Hit m => text m end)
       (scan_fuel match_at fuel s)) = s.
Proof.
  intros Ht. revert s. induction fuel as [|fuel IH]; intros s; simpl.
  - induction s as [|c s IHs]; [done|]. simpl. by rewrite IHs.
  - destruct (match_at s) as [[m rest]|] eqn:E.
    + simpl. rewrite IH. symmetry. by apply Ht.
    + destruct s as [|c s]; [done|]. simpl. by rewrite IH.
Qed.

Lemma replace_g_throw_same (text : M -> str) (cb : M -> option str)
    (xml : str) :
  (forall s m rest, match_at s = Some (m, rest) -> s = text m ++ rest) ->
  (forall m, m ∈ hits (scan match_at xml) -> cb m = Some (text m)) ->
  replace_g_throw match_at cb xml = Some xml.
Proof.
  intros Ht Hcb. apply replace_g_throw_rewritten.
  exists (List.map (fun x => match x with Lit c => [c] | Hit m => text m end)
            (scan match_at xml)).
  split; [|symmetry; by apply scan_fuel_text].
  unfold hits in Hcb. induction (scan match_at xml) as [|x l IH]; [constructor|].
  simpl. constructor.
  - destruct x as [c|m]; [done|]. apply Hcb. simpl. by left.
  - apply IH. intros m Hm. apply Hcb. destruct x; simpl; [done|by right].
Qed.
End RewriteFacts.

(** ** The archive *)

Lemma same_parts_refl (keep : str -> Prop) (z : Package) : same_parts keep z z.
Proof. unfold same_parts. induction z; constructor; auto. Qed.

Lemma same_parts_trans (keep : str -> Prop) (z1 z2 z3 : Package) :
  same_parts keep z1 z2 -> same_parts keep z2 z3 -> same_parts keep z1 z3.
Proof.
  unfold same_parts. intros H12. revert z3.
  induction H12 as [|e1 e2 z1 z2 [Hn Hc] _ IH]; intros z3 H23.
  - by inversion H23.
  - inversion H23 as [|? e3 ? z3' [Hn' Hc'] H23']; subst.
    constructor; [|by apply IH]. split; [congruence|].
    intros Hk. rewrite Hc by done. apply Hc'. by rewrite <- Hn.
Qed.

Lemma same_parts_names (keep : str -> Prop) (z z' : Package) :
  same_parts keep z z' -> z.*1 = z'.*1.
Proof.
  induction 1 as [|e e' z z' [Hn _] _ IH]; [done|]. csimpl. congruence.
Qed.

Lemma zfile_elem (name : str) (z : Package) (c : str) :
  zfile name z = Some c -> name ∈ z.*1.
Proof.
  induction z as [|[n d] z IH]; simpl; [discriminate|].
  case_bool_decide as E; [subst; left|right; auto].
Qed.

(** Writing a part that exists changes the content of that part only. *)
Lemma zwrite_same_parts (name data : str) (z : Package) :
  name ∈ z.*1 -> same_parts (fun n => n <> name) z (zwrite name data z).
Proof.
  induction z as [|[n d] z IH]; simpl.
  - by intros ?%elem_of_nil.
  - intros Hin. case_bool_decide as E.
    + subst. constructor; [by split|].
      apply (same_parts_refl (fun n => n <> name)).
    + constructor; [by split|]. apply IH.
      apply elem_of_cons in Hin as [?|?]; [congruence|done].
Qed.

Lemma same_parts_weaken (keep keep' : str -> Prop) (z z' : Package) :
  (forall n, keep' n -> keep n) ->
  same_parts keep z z' -> same_parts keep' z z'.
Proof.
  intros Hk H. eapply Forall2_impl; [exact H|].
  intros e e' [Hn Hc]. split; auto.
Qed.

Lemma parts_matching_elem (prefix : str) (z : Package) (e : str * str) :
  e ∈ parts_matching prefix z -> e ∈ z /\ path_matches prefix e.1 = true.
Proof.
  unfold parts_matching. induction z as [|x z IH]; simpl.
  - by intros ?%elem_of_nil.
  - destruct (path_matches prefix x.1) eqn:E.
    + intros [->|H]%elem_of_cons; [split; [by left|done]|].
      destruct (IH H). split; [by right|done].
    + intros H. destruct (IH H). split; [by right|done].
Qed.

Lemma recognized_matching (path : str) :
  path_matches worksheets_prefix path = true
  \/ path_matches drawings_prefix path = true
  \/ path_matches charts_prefix path = true ->
  recognized_path path = true.
Proof.
  unfold recognized_path. intros [-> | [-> | ->]]; by rewrite ?orb_true_r.
Qed.

(** The rewrites started by [getDownloadBuffer] are on parts of the
    archive with a recognized name. *)
Lemma rewrite_tasks_paths (tm : gmap str (option str)) (z : Package) :
  Forall (fun t : task => t.1.1 ∈ z.*1 /\ recognized_path t.1.1 = true)
    (rewrite_tasks tm z).
Proof.
  assert (Hm : forall prefix (rw : str -> option str),
             (forall path, path_matches prefix path = true ->
                           recognized_path path = true) ->
             Forall (fun t : task => t.1.1 ∈ z.*1 /\ recognized_path t.1.1 = true)
               (List.map (fun e : str * str => (e.1, e.2, rw))
                  (parts_matching prefix z))).
  { intros prefix rw Hrec. apply Forall_forall.
    intros t [e [<- He]]%list_elem_of_In%in_map_iff.
    apply list_elem_of_In, parts_matching_elem in He as [He Hm]. simpl.
    split; [by apply list_elem_of_fmap_2|by apply Hrec]. }
  unfold rewrite_tasks. repeat apply Forall_app_2.
  - destruct (zfile sharedStrings_path z) as [xml|] eqn:E; [|constructor].
    constructor; [|constructor]. split; [by eapply zfile_elem|done].
  - apply Hm. intros path H. apply recognized_matching. auto.
  - apply Hm. intros path H. apply recognized_matching. auto.
  - apply Hm. intros path H. apply recognized_matching. auto.
  - destruct (zfile workbook_path z) as [xml|] eqn:E; [|constructor].
    constructor; [|constructor]. split; [by eapply zfile_elem|done].
Qed.

Lemma run_tasks_same_parts (tasks : list task) (z0 z : Package) :
  Forall (fun t : task => t.1.1 ∈ z0.*1 /\ recognized_path t.1.1 = true) tasks ->
  same_parts (fun n => recognized_path n = false) z0 z ->
  same_parts (fun n => recognized_path n = false) z0 (run_tasks tasks z).1.
Proof.
  intros Ht. revert z. induction Ht as [|[[path xml] rw] tasks [Hin Hrec] _ IH];
    intros z Hz; [done|].
  simpl in Hin, Hrec.
  assert (Hw : forall newXml,
             same_parts (fun n => recognized_path n = false) z0
               (if bool_decide (xml = newXml) then z else zwrite path newXml z)).
  { intros newXml. case_bool_decide; [done|].
    eapply same_parts_trans; [exact Hz|].
    eapply same_parts_weaken; [|apply zwrite_same_parts].
    - intros n Hn ->. congruence.
    - by rewrite <- (same_parts_names _ _ _ Hz). }
  simpl. destruct (rw xml) as [newXml|].
  - by apply IH.
  - specialize (IH z Hz). by destruct (run_tasks tasks z).
Qed.

(** With a map whose values are all strings no rewrite throws. *)
Lemma with_translation_total (tm : gmap str (option str)) (key : str)
    (hit : str -> str) (miss : str) :
  all_defined tm -> is_Some (with_translation tm key hit miss).
Proof.
  intros Hd. unfold with_translation.
  destruct (tm !! key) as [[t|]|] eqn:E; try by eexists.
  by destruct (Hd _ _ E).
Qed.

Lemma rewrite_tasks_total (tm : gmap str (option str)) (z : Package) :
  all_defined tm ->
  Forall (fun t : task => is_Some (t.2 t.1.2)) (rewrite_tasks tm z).
Proof.
  intros Hd. unfold rewrite_tasks. repeat apply Forall_app_2.
  - destruct (zfile sharedStrings_path z); constructor; [|constructor].
    apply replace_g_throw_total. intros m. by apply with_translation_total.
  - apply Forall_forall. intros t [e [<- He]]%list_elem_of_In%in_map_iff.
    apply replace_g_throw_total. intros [o i]. by apply with_translation_total.
  - apply Forall_forall. intros t [e [<- He]]%list_elem_of_In%in_map_iff.
    apply replace_g_throw_total. intros [o i]. by apply with_translation_total.
  - apply Forall_forall. intros t [e [<- He]]%list_elem_of_In%in_map_iff.
    apply replace_g_throw_total. intros [o i]. by apply with_translation_total.
  - destruct (zfile workbook_path z); constructor; [|constructor].
    apply replace_g_throw_total. intros m.
    unfold sheet_callback, replace_first_throw.
    destruct (search name_at m) as [[[b n] a]|]; [|by eexists].
    unfold name_callback.
    destruct (with_translation_total tm (decodeXml n)
                (fun translated =>
                   name_open ++ escapeXml (sanitize_sheet_name translated)
                   ++ [ch_quot])
                (name_open ++ n ++ [ch_quot]) Hd) as [r ->].
    by eexists.
Qed.

Lemma run_tasks_total (tasks : list task) (z : Package) :
  Forall (fun t : task => is_Some (t.2 t.1.2)) tasks ->
  (run_tasks tasks z).2 = None.
Proof.
  intros Ht. revert z. induction Ht as [|[[path xml] rw] tasks [r Hr] _ IH];
    intros z; [done|].
  simpl in *. rewrite Hr. apply IH.
Qed.

(** What [getDownloadBuffer] does to the archive of the processor, and
    when it returns it. *)
Lemma getDownloadBuffer_frame (p : Processor) (z : Package) :
  zip p = Some z ->
  exists z',
    zip (getDownloadBuffer p).1 = Some z'
    /\ z'.*1 = z.*1
    /\ same_parts (fun path => recognized_path path = false) z z'
    /\ (forall path, recognized_path path = false ->
          zfile path z' = zfile path z)
    /\ (forall out, (getDownloadBuffer p).2 = Ok out -> out = z')
    /\ (all_defined (translationMap p) -> (getDownloadBuffer p).2 = Ok z').
Proof.
  intros Hz. unfold getDownloadBuffer. rewrite Hz.
  pose proof (run_tasks_same_parts _ z z
                (rewrite_tasks_paths (translationMap p) z)
                (same_parts_refl _ z)) as Hs.
  pose proof (fun Hd => run_tasks_total _ z
                (rewrite_tasks_total (translationMap p) z Hd)) as Ht.
  destruct (run_tasks _ z) as [z' failure]. simpl in *.
  exists z'. split; [done|]. split; [symmetry; by eapply same_parts_names|].
  split; [done|]. split; [|split].
  - intros path Hp. clear Ht Hz. induction Hs as [|[n c] [n' c'] z z' [Hn Hc] _ IH];
      [done|].
    simpl in *. subst n'. case_bool_decide; [|done]. subst.
    by rewrite Hc.
  - destruct failure; [discriminate|]. by intros out [= <-].
  - intros Hd. by rewrite (Ht Hd).
Qed.

(** C9.  Rehydration keeps the part names as they are, none deleted
    and none added, and leaves the content of every part whose name is
    none of the five recognized ones as it was; this holds for the
    archive held by the processor whatever the map, and for the
    archive that is returned, which is returned whenever every value
    of the map is a string. *)
Theorem rehydration_frame (p : Processor) (z : Package) :
  zip p = Some z ->
  exists z',
    zip (getDownloadBuffer p).1 = Some z'
    /\ z'.*1 = z.*1
    /\ same_parts (fun path => recognized_path path = false) z z'
    /\ (forall path, recognized_path path = false ->
          zfile path z' = zfile path z)
    /\ (forall out, (getDownloadBuffer p).2 = Ok out -> out = z')
    /\ (all_defined (translationMap p) -> (getDownloadBuffer p).2 = Ok z').
Proof. apply getDownloadBuffer_frame. Qed.

(** ** Sheet names *)

Lemma search_Some {M : Type} (match_at : str -> option (M * str))
    (text : M -> str) (s before : str) (m : M) (after : str) :
  (forall s m rest, match_at s = Some (m, rest) -> s = text m ++ rest) ->
  search match_at s = Some (before, m, after) ->
  s = before ++ text m ++ after.
Proof.
  intros Ht. revert before. induction s as [|c s IH]; intros before; simpl.
  - destruct (match_at []) as [[m' r]|] eqn:E; [|discriminate].
    intros [= <- <- <-]. by apply Ht.
  - destruct (match_at (c :: s)) as [[m' r]|] eqn:E.
    + intros [= <- <- <-]. by apply Ht.
    + destruct (search match_at s) as [[[b m'] a]|]; [|discriminate].
      intros [= <- <- <-]. simpl. f_equal. by apply IH.
Qed.

Lemma sanitize_not_forbidden (translated : str) :
  Forall (fun c => forbidden_unit c = false) (sanitize_sheet_name translated).
Proof.
  unfold sanitize_sheet_name. apply Forall_take, Forall_forall.
  intros c [x [<- _]]%list_elem_of_In%in_map_iff.
  by destruct (forbidden_unit x) eqn:E.
Qed.

Lemma sanitize_length (translated : str) :
  length (sanitize_sheet_name translated) <= 31.
Proof. unfold sanitize_sheet_name. rewrite length_take. lia. Qed.

Lemma escape_unit_not_forbidden (c : N) :
  forbidden_unit c = false ->
  Forall (fun x => forbidden_unit x = false) (escape_unit c).
Proof.
  intros Hc. unfold escape_unit.
  repeat (destruct (_ =? _)%N; [by repeat constructor|]).
  by repeat constructor.
Qed.

Lemma escapeXml_not_forbidden (s : str) :
  Forall (fun c => forbidden_unit c = false) s ->
  Forall (fun c => forbidden_unit c = false) (escapeXml s).
Proof.
  unfold escapeXml. induction 1 as [|c s Hc _ IH]; [constructor|].
  simpl. apply Forall_app_2; [by apply escape_unit_not_forbidden|done].
Qed.

Lemma entity_at_progresses : progresses entity_at.
Proof.
  intros s m rest. unfold entity_at.
  repeat (destruct (strip_prefix _ s) as [r|] eqn:E;
          [intros [= <- <-]; apply strip_prefix_length in E; simpl in E; lia
          |clear E]).
  discriminate.
Qed.

Lemma entity_at_other (c : N) (s : str) :
  c <> ch_amp -> entity_at (c :: s) = None.
Proof.
  intros Hc. unfold entity_at, ent_lt, ent_gt, ent_amp, ent_apos, ent_quot.
  by rewrite !strip_prefix_ne by done.
Qed.

Lemma xml_unescape_escape (s : str) : xml_unescape (escapeXml s) = s.
Proof.
  unfold xml_unescape, escapeXml. induction s as [|c s IH]; [done|].
  change (flat_map escape_unit (c :: s))
    with (escape_unit c ++ flat_map escape_unit s).
  rewrite (replace_g_unfold _ entity_at_progresses).
  set (rest := flat_map escape_unit s) in *.
  unit_cases c.
  - change (entity_at (escape_unit ch_lt ++ rest)) with (Some (ch_lt, rest)).
    cbv beta iota. by rewrite IH.
  - change (entity_at (escape_unit ch_gt ++ rest)) with (Some (ch_gt, rest)).
    cbv beta iota. by rewrite IH.
  - change (entity_at (escape_unit ch_amp ++ rest)) with (Some (ch_amp, rest)).
    cbv beta iota. by rewrite IH.
  - change (entity_at (escape_unit ch_apos ++ rest)) with (Some (ch_apos, rest)).
    cbv beta iota. by rewrite IH.
  - change (entity_at (escape_unit ch_quot ++ rest)) with (Some (ch_quot, rest)).
    cbv beta iota. by rewrite IH.
  - rewrite escape_unit_plain by done. cbn [app].
    rewrite entity_at_other by done. by rewrite IH.
Qed.

Lemma replaceSheetNames_rewritten (tm : gmap str (option str))
    (xml xml' : str) :
  replaceSheetNames tm xml = Some xml' ->
  rewritten sheet_at (sheet_rewrite tm) xml xml'.
Proof.
  intros H%replace_g_throw_rewritten. eapply rewritten_impl; [exact H|].
  intros sheetTag out. unfold sheet_callback, replace_first_throw, sheet_rewrite.
  destruct (search name_at sheetTag) as [[[before name] after]|] eqn:E;
    [|by intros [= <-]].
  apply (search_Some _ name_match) in E; [|apply name_at_Some].
  unfold name_callback, with_translation.
  destruct (tm !! decodeXml name) as [[translated|]|]; [| |]; intros [= <-].
  - exists translated. split; [done|]. by rewrite <- !app_assoc.
  - by rewrite E.
Qed.

Lemma replaceTagContent_rewritten (tm : gmap str (option str))
    (tagName xml xml' : str) :
  replaceTagContent tm xml tagName = Some xml' ->
  rewritten (tag_at tagName) (tag_rewrite tm tagName) xml xml'.
Proof.
  intros H%replace_g_throw_rewritten. eapply rewritten_impl; [exact H|].
  intros [openTag inner] out. unfold tag_callback, with_translation, tag_rewrite.
  simpl. destruct (tm !! decodeXml inner) as [[translated|]|]; intros [= <-];
    eauto.
Qed.

Lemma replaceSharedStrings_rewritten (tm : gmap str (option str))
    (xml xml' : str) :
  replaceSharedStrings tm xml = Some xml' ->
  rewritten si_at (si_rewrite tm) xml xml'.
Proof.
  intros H%replace_g_throw_rewritten. eapply rewritten_impl; [exact H|].
  intros inner out. unfold si_callback, with_translation, si_rewrite.
  destruct (tm !! decodeXml (si_text inner)) as [[translated|]|];
    intros [= <-]; eauto.
Qed.

(** C5.  A translated sheet name is put in place with each of the seven
    forbidden characters replaced by an underscore and then cut to 31
    characters: the name so written holds no forbidden character, has
    at most 31 characters, and is what a reader of the document gets
    back.  The other rewrites put the translated text in place as it
    is, escaped only: the translation [a/b:c] becomes [a_b_c] as a
    sheet name and stays [a/b:c] in a worksheet, in a drawing or chart
    and in the shared strings. *)
Theorem sheet_name_sanitization :
  (forall translated : str,
     sanitize_sheet_name translated
     = take 31 (List.map (fun c => if forbidden_unit c then ch_us else c)
                  translated)
     /\ Forall (fun c => forbidden_unit c = false)
          (sanitize_sheet_name translated)
     /\ length (sanitize_sheet_name translated) <= 31
     /\ Forall (fun c => forbidden_unit c = false)
          (escapeXml (sanitize_sheet_name translated))
     /\ xml_unescape (escapeXml (sanitize_sheet_name translated))
        = sanitize_sheet_name translated)
  /\ (forall tm xml xml',
        replaceSheetNames tm xml = Some xml' ->
        rewritten sheet_at (sheet_rewrite tm) xml xml')
  /\ (forall tm tagName xml xml',
        replaceTagContent tm xml tagName = Some xml' ->
        rewritten (tag_at tagName) (tag_rewrite tm tagName) xml xml')
  /\ (forall tm xml xml',
        replaceSharedStrings tm xml = Some xml' ->
        rewritten si_at (si_rewrite tm) xml xml')
  /\ replaceSheetNames slash_map
       (lit "<sheet name=" ++ [ch_quot] ++ text_kanji ++ [ch_quot] ++ lit "/>")
     = Some (lit "<sheet name=" ++ [ch_quot] ++ lit "a_b_c" ++ [ch_quot]
             ++ lit "/>")
  /\ replaceTagContent slash_map (lit "<t>" ++ text_kanji ++ lit "</t>") tag_t
     = Some (lit "<t>a/b:c</t>")
  /\ replaceTagContent slash_map (lit "<a:t>" ++ text_kanji ++ lit "</a:t>")
       tag_at_
     = Some (lit "<a:t>a/b:c</a:t>")
  /\ replaceSharedStrings slash_map
       (lit "<si><t>" ++ text_kanji ++ lit "</t></si>")
     = Some (lit "<si><t>a/b:c</t></si>").
Proof.
  split; [|split; [|split; [|split]]].
  - intros translated. split; [done|].
    split; [apply sanitize_not_forbidden|].
    split; [apply sanitize_length|].
    split; [apply escapeXml_not_forbidden, sanitize_not_forbidden|].
    apply xml_unescape_escape.
  - apply replaceSheetNames_rewritten.
  - apply replaceTagContent_rewritten.
  - apply replaceSharedStrings_rewritten.
  - repeat split; by vm_compute.
Qed.

(** ** The script filter *)

Lemma japanese_unit_ranges (c : N) :
  japanese_unit c = true
  <-> exists lo hi, (lo, hi) ∈ script_ranges /\ (lo <= c <= hi)%N.
Proof.
  unfold japanese_unit, in_range, script_ranges. split.
  - rewrite !orb_true_iff, !andb_true_iff, !N.leb_le.
    intros [[[[[H|H]|H]|H]|H]|H]; eexists _, _; (split; [|exact H]);
      set_solver.
  - intros (lo & hi & Hin & Hc).
    rewrite !orb_true_iff, !andb_true_iff, !N.leb_le.
    repeat (apply elem_of_cons in Hin as [[= -> ->]|Hin]; [tauto|]).
    by apply elem_of_nil in Hin.
Qed.

Lemma hasJapanese_spec (s : str) :
  hasJapanese s = true <-> exists c, c ∈ s /\ japanese_unit c = true.
Proof.
  unfold hasJapanese. rewrite existsb_exists.
  split; intros (c & Hc & Hj); exists c; (split; [|done]);
    by apply list_elem_of_In.
Qed.

Lemma set_add_elem (x y : str) (u : list str) :
  y ∈ set_add x u <-> y = x \/ y ∈ u.
Proof.
  unfold set_add. case_bool_decide.
  - split; [by right|]. by intros [->|].
  - rewrite elem_of_app, list_elem_of_singleton. tauto.
Qed.

Lemma set_add_NoDup (x : str) (u : list str) : NoDup u -> NoDup (set_add x u).
Proof.
  intros H. unfold set_add. case_bool_decide; [done|].
  apply NoDup_app. split; [done|]. split; [|apply NoDup_singleton].
  intros y Hy ->%list_elem_of_singleton. done.
Qed.

Lemma add_candidate_elem (d s : str) (u : list str) :
  s ∈ add_candidate d u <-> s ∈ u \/ (s = d /\ hasJapanese s = true).
Proof.
  unfold add_candidate. destruct d as [|c d].
  - split; [by left|]. intros [?|[-> H]]; [done|discriminate].
  - destruct (hasJapanese (c :: d)) eqn:E.
    + rewrite set_add_elem. split; [intros [->|?]; auto|].
      intros [?|[-> _]]; auto.
    + split; [by left|]. intros [?|[-> H]]; [done|congruence].
Qed.

Lemma add_candidate_NoDup (d : str) (u : list str) :
  NoDup u -> NoDup (add_candidate d u).
Proof.
  intros H. unfold add_candidate. destruct d; [done|].
  destruct (hasJapanese _); [by apply set_add_NoDup|done].
Qed.

(** Folding the filter over candidates. *)
Lemma add_fold_elem {A : Type} (f : A -> str) (l : list A) (u : list str)
    (s : str) :
  s ∈ foldl (fun u x => add_candidate (f x) u) u l
  <-> s ∈ u \/ (s ∈ List.map f l /\ hasJapanese s = true).
Proof.
  revert u. induction l as [|x l IH]; intros u; simpl.
  - rewrite elem_of_nil. tauto.
  - rewrite IH, add_candidate_elem, elem_of_cons. split.
    + intros [[?|[-> ?]]|[? ?]]; auto.
    + intros [?|[[->|?] ?]]; auto.
Qed.

Lemma add_fold_NoDup {A : Type} (f : A -> str) (l : list A) (u : list str) :
  NoDup u -> NoDup (foldl (fun u x => add_candidate (f x) u) u l).
Proof.
  revert u. induction l as [|x l IH]; intros u H; simpl; [done|].
  by apply IH, add_candidate_NoDup.
Qed.

Lemma extractFromSharedStrings_elem (xml : str) (u : list str) (s : str) :
  s ∈ extractFromSharedStrings xml u
  <-> s ∈ u \/ (s ∈ si_candidates xml /\ hasJapanese s = true).
Proof.
  unfold extractFromSharedStrings, si_candidates.
  apply (add_fold_elem (fun i => decodeXml (si_text i))).
Qed.

Lemma extractFromTag_elem (xml tagName : str) (u : list str) (s : str) :
  s ∈ extractFromTag xml tagName u
  <-> s ∈ u \/ (s ∈ tag_candidates tagName xml /\ hasJapanese s = true).
Proof.
  unfold extractFromTag, tag_candidates.
  apply (add_fold_elem (fun m : str * str => decodeXml m.2)).
Qed.

Lemma extractFromSheetNames_elem (xml : str) (u : list str) (s : str) :
  s ∈ extractFromSheetNames xml u
  <-> s ∈ u \/ (s ∈ sheet_candidates xml /\ hasJapanese s = true).
Proof.
  unfold extractFromSheetNames, sheet_candidates.
  generalize (hits (scan sheet_at xml)) as l. intros l. revert u.
  induction l as [|t l IH]; intros u; simpl.
  - rewrite elem_of_nil. tauto.
  - rewrite IH. destruct (search name_at t) as [[[b n] a]|]; [|tauto].
    simpl. rewrite elem_of_cons.
    destruct (hasJapanese (decodeXml n)) eqn:E.
    + rewrite set_add_elem. split.
      * intros [[->|?]|[? ?]]; auto.
      * intros [?|[[->|?] ?]]; auto.
    + split; [intros [?|[? ?]]; auto|].
      intros [?|[[->|?] ?]]; auto. congruence.
Qed.

Lemma extractFromSheetNames_NoDup (xml : str) (u : list str) :
  NoDup u -> NoDup (extractFromSheetNames xml u).
Proof.
  unfold extractFromSheetNames.
  generalize (hits (scan sheet_at xml)) as l. intros l. revert u.
  induction l as [|t l IH]; intros u H; simpl; [done|]. apply IH.
  destruct (search name_at t) as [[[b n] a]|]; [|done].
  destruct (hasJapanese _); [by apply set_add_NoDup|done].
Qed.

Lemma extract_parts_elem (tagName : str) (l : Package) (u : list str)
    (s : str) :
  s ∈ foldl (fun u e => extractFromTag e.2 tagName u) u l
  <-> s ∈ u \/ (s ∈ List.concat
                       (List.map (fun e : str * str => tag_candidates tagName e.2) l)
                /\ hasJapanese s = true).
Proof.
  revert u. induction l as [|e l IH]; intros u; simpl.
  - rewrite elem_of_nil. tauto.
  - rewrite IH, extractFromTag_elem, elem_of_app. tauto.
Qed.

Lemma extract_parts_NoDup (tagName : str) (l : Package) (u : list str) :
  NoDup u -> NoDup (foldl (fun u e => extractFromTag e.2 tagName u) u l).
Proof.
  revert u. induction l as [|e l IH]; intros u H; simpl; [done|].
  apply IH. unfold extractFromTag.
  by apply (add_fold_NoDup (fun m : str * str => decodeXml m.2)).
Qed.

(** The unique strings are without repetition. *)
Lemma extract_package_NoDup (z : Package) : NoDup (extract_package z).
Proof.
  unfold extract_package.
  assert (H1 : NoDup match zfile sharedStrings_path z with
                     | Some xml => extractFromSharedStrings xml []
                     | None => []
                     end).
  { destruct (zfile sharedStrings_path z); [|constructor].
    apply (add_fold_NoDup (fun i => decodeXml (si_text i))). constructor. }
  revert H1. generalize (match zfile sharedStrings_path z with
                         | Some xml => extractFromSharedStrings xml []
                         | None => []
                         end) as u1.
  intros u1 H1.
  pose proof (extract_parts_NoDup tag_t (parts_matching worksheets_prefix z) _ H1)
    as H2.
  pose proof (extract_parts_NoDup tag_at_ (parts_matching drawings_prefix z) _ H2)
    as H3.
  pose proof (extract_parts_NoDup tag_at_ (parts_matching charts_prefix z) _ H3)
    as H4.
  destruct (zfile workbook_path z); [|done].
  by apply extractFromSheetNames_NoDup.
Qed.

(** C8.  A candidate of any of the five rules is among the unique
    strings exactly when it holds a code unit of one of the script
    ranges; a candidate without any, like [Sheet1], [123] or
    [Total: 42], is not, and neither is the empty string. *)
Theorem script_filter (z : Package) (s : str) :
  (s ∈ extract_package z <-> s ∈ candidates z /\ hasJapanese s = true)
  /\ (hasJapanese s = true
      <-> exists c lo hi, c ∈ s /\ (lo, hi) ∈ script_ranges /\ (lo <= c <= hi)%N)
  /\ hasJapanese [] = false
  /\ ([] ∉ extract_package z)
  /\ hasJapanese (lit "Sheet1") = false
  /\ hasJapanese (lit "123") = false
  /\ hasJapanese (lit "Total: 42") = false
  /\ hasJapanese text_sekkeisho = true
  /\ hasJapanese (text_goukei ++ lit ": 42") = true.
Proof.
  assert (Hmain : forall s, s ∈ extract_package z
                            <-> s ∈ candidates z /\ hasJapanese s = true).
  { clear s. intros s. unfold extract_package, candidates.
    rewrite !elem_of_app.
    assert (Hss : forall u, s ∈ match zfile workbook_path z with
                                | Some xml => extractFromSheetNames xml u
                                | None => u
                                end
                            <-> s ∈ u \/ (s ∈ match zfile workbook_path z with
                                               | Some xml => sheet_candidates xml
                                               | None => []
                                               end /\ hasJapanese s = true)).
    { intros u. destruct (zfile workbook_path z).
      - apply extractFromSheetNames_elem.
      - rewrite elem_of_nil. tauto. }
    rewrite Hss, !extract_parts_elem.
    destruct (zfile sharedStrings_path z).
    - rewrite extractFromSharedStrings_elem, elem_of_nil. tauto.
    - rewrite elem_of_nil. tauto. }
  split; [apply Hmain|]. split; [|split; [done|split; [|by vm_compute]]].
  - rewrite hasJapanese_spec. split.
    + intros (c & Hc & (lo & hi & ? & ?)%japanese_unit_ranges). eauto 6.
    + intros (c & lo & hi & Hc & ? & ?). exists c. split; [done|].
      apply japanese_unit_ranges. eauto.
  - intros [_ H]%Hmain. discriminate.
Qed.

(** ** Abort of the orchestration *)

Lemma chunk_of_in_take (allStrings : list str) (i k : nat) (s : str) :
  i < k -> s ∈ chunk_of allStrings i -> s ∈ take (k * BATCH_SIZE) allStrings.
Proof.
  intros Hi Hs.
  assert (Hin : s ∈ take (S i * BATCH_SIZE) allStrings).
  { rewrite take_chunk, elem_of_app. by right. }
  replace (k * BATCH_SIZE) with (S i * BATCH_SIZE + (k - S i) * BATCH_SIZE)
    by (unfold BATCH_SIZE; lia).
  rewrite <- take_take_drop, elem_of_app. by left.
Qed.

Section AbortFacts.
Variable translateBatch : nat -> list str -> outcome exn (list str).
Variable allStrings : list str.
Hypothesis Hnd : NoDup allStrings.

Lemma commits_lookup (k i index : nat) (original : str) (out : list str) :
  succeeds_before translateBatch allStrings k ->
  i < k ->
  translateBatch i (chunk_of allStrings i) = Ok out ->
  chunk_of allStrings i !! index = Some original ->
  commits translateBatch allStrings k ∅ !! original = Some (out !! index).
Proof.
  intros Hs Hi Hout Hidx. induction k as [|k IH]; [lia|].
  cbn [commits]. destruct (Hs k ltac:(lia)) as [out' Hout']. rewrite Hout'.
  unfold commit. destruct (decide (i = k)) as [->|Hne].
  - rewrite Hout in Hout'. injection Hout' as <-.
    rewrite (commit_from_lookup 0 _ _ _ index); [done| |done].
    by apply chunk_of_NoDup.
  - rewrite commit_from_other.
    + apply IH; [|lia]. intros j Hj. apply Hs. lia.
    + intros Hin. eapply chunk_of_fresh; [exact Hnd|exact Hin|].
      eapply (chunk_of_in_take _ i); [lia|].
      eapply list_elem_of_lookup_2, Hidx.
Qed.

Lemma commits_all_defined (k : nat) :
  succeeds_before translateBatch allStrings k ->
  (forall i out, i < k ->
     translateBatch i (chunk_of allStrings i) = Ok out ->
     length out = length (chunk_of allStrings i)) ->
  all_defined (commits translateBatch allStrings k ∅).
Proof.
  intros Hs Hlen original v Hv.
  assert (Hsome : is_Some (commits translateBatch allStrings k ∅ !! original))
    by by eexists.
  apply commits_is_Some in Hsome as [[? H]|Hin]; [by rewrite lookup_empty in H| |done].
  apply elem_of_take in Hin as (pos & Hpos & Hlt).
  (* the batch and the index of the string *)
  set (i := pos / BATCH_SIZE). set (index := pos mod BATCH_SIZE).
  assert (Hi : i < k).
  { unfold i, BATCH_SIZE in *. apply Nat.Div0.div_lt_upper_bound. lia. }
  assert (Hidx : chunk_of allStrings i !! index = Some original).
  { unfold chunk_of, slice.
    rewrite lookup_take_lt, lookup_drop.
    - rewrite <- Hpos. f_equal. unfold i, index.
      pose proof (Nat.div_mod_eq pos BATCH_SIZE). lia.
    - unfold index, BATCH_SIZE.
      pose proof (Nat.mod_upper_bound pos 20). lia. }
  destruct (Hs i Hi) as [out Hout].
  rewrite (commits_lookup k i index original out) in Hv by done.
  injection Hv as <-. apply lookup_lt_is_Some.
  rewrite (Hlen i out) by done. by eapply lookup_lt_Some.
Qed.
End AbortFacts.

Lemma with_translation_miss (tm : gmap str (option str)) (key : str)
    (hit : str -> str) (miss : str) :
  tm !! key = None -> with_translation tm key hit miss = Some miss.
Proof. intros H. unfold with_translation. by rewrite H. Qed.

Lemma calls_of_app (a b : list event) : calls_of (a ++ b) = calls_of a ++ calls_of b.
Proof. apply omap_app. Qed.

(** ** Texts without an opening bracket *)

Lemma strip_prefix_app_fresh (a : N) (p s t : str) :
  Forall (fun x => x <> a) p ->
  strip_prefix p s = None -> strip_prefix p (s ++ a :: t) = None.
Proof.
  intros Hp. revert s. induction Hp as [|x p Hx Hp IH]; intros s; [discriminate|].
  destruct s as [|c s]; simpl.
  - intros _. by destruct (N.eqb_spec x a).
  - destruct (N.eqb_spec x c); [apply IH|done].
Qed.

(** The first occurrence of a pattern that does not overlap itself. *)
Lemma find_sub_first (a : N) (q body rest : str) :
  Forall (fun x => x <> a) q ->
  find_sub (a :: q) body = None ->
  find_sub (a :: q) (body ++ (a :: q) ++ rest) = Some (body, rest).
Proof.
  intros Hq. induction body as [|c body IH]; intros Hb.
  - simpl app. cbn [find_sub]. by rewrite strip_prefix_same, strip_prefix_app.
  - apply find_sub_cons_None in Hb as [Hs Hb].
    change ((c :: body) ++ (a :: q) ++ rest)
      with (c :: (body ++ (a :: q) ++ rest)).
    cbn [find_sub]. rewrite (IH Hb).
    assert (strip_prefix (a :: q) (c :: body ++ (a :: q) ++ rest) = None) as ->;
      [|done].
    clear IH Hb. simpl in Hs |- *. destruct (N.eqb_spec a c); [|done].
    change (body ++ a :: q ++ rest) with (body ++ a :: (q ++ rest)).
    by apply strip_prefix_app_fresh.
Qed.

Lemma find_sub_fresh (a : N) (q s : str) :
  Forall (fun x => x <> a) s -> find_sub (a :: q) s = None.
Proof.
  induction 1 as [|c s Hc _ IH]; [done|].
  apply find_sub_cons_None_iff. split; [|done]. by apply strip_prefix_ne.
Qed.

Lemma escapeXml_no_lt (s : str) : Forall (fun x => x <> ch_lt) (escapeXml s).
Proof.
  unfold escapeXml. induction s as [|c s IH]; [constructor|].
  simpl. apply Forall_app_2; [|done].
  unit_cases c; try (by repeat constructor).
  rewrite escape_unit_plain by done. by repeat constructor.
Qed.

(** An expression that starts with [a] copies a text without [a]. *)
Lemma replace_g_fresh {M : Type} (match_at : str -> option (M * str))
    (cb : M -> str) (a : N) (s t : str) :
  progresses match_at ->
  (forall c r, c <> a -> match_at (c :: r) = None) ->
  Forall (fun x => x <> a) s ->
  replace_g match_at cb (s ++ t) = s ++ replace_g match_at cb t.
Proof.
  intros Hp Hm. induction 1 as [|c s Hc _ IH]; [done|].
  simpl app. rewrite (replace_g_unfold _ Hp), Hm by done. by rewrite IH.
Qed.

Lemma scan_fresh {M : Type} (match_at : str -> option (M * str))
    (a : N) (s t : str) :
  progresses match_at ->
  (forall c r, c <> a -> match_at (c :: r) = None) ->
  Forall (fun x => x <> a) s ->
  scan match_at (s ++ t) = List.map Lit s ++ scan match_at t.
Proof.
  intros Hp Hm. induction 1 as [|c s Hc _ IH]; [done|].
  simpl app. rewrite (scan_unfold _ Hp), Hm by done. by rewrite IH.
Qed.

Lemma rph_at_other (c : N) (r : str) : c <> ch_lt -> rph_at (c :: r) = None.
Proof.
  intros Hc. unfold rph_at, rph_open. by rewrite strip_prefix_ne.
Qed.

(** The string item written by the rewrite reads back as the escaped
    text it was written with. *)
Lemma si_text_single (e : str) :
  Forall (fun x => x <> ch_lt) e ->
  si_text (lit "<t>" ++ e ++ lit "</t>") = e.
Proof.
  intros He. unfold si_text.
  assert (Hstrip : strip_rph (lit "<t>" ++ e ++ lit "</t>")
                   = lit "<t>" ++ e ++ lit "</t>").
  { unfold strip_rph.
    change (lit "<t>" ++ e ++ lit "</t>")
      with (ch_lt :: ([116; 62]%N ++ e) ++ lit "</t>").
    rewrite (replace_g_unfold _ rph_at_progresses).
    change (rph_at (ch_lt :: ([116; 62]%N ++ e) ++ lit "</t>")) with (@None (str * str)).
    rewrite (replace_g_fresh _ _ ch_lt) ;
      [|apply rph_at_progresses|apply rph_at_other
       |apply Forall_app_2; [by repeat constructor|done]].
    done. }
  rewrite Hstrip.
  rewrite (scan_unfold _ (tag_at_progresses tag_t)).
  assert (Hat : tag_at tag_t (lit "<t>" ++ e ++ lit "</t>")
                = Some ((lit "<t>", e), [])).
  { unfold tag_at.
    change (open_tag_at tag_t (lit "<t>" ++ e ++ lit "</t>"))
      with (Some (lit "<t>", e ++ lit "</t>")).
    assert (Hf : find_sub (close_tag tag_t) (e ++ lit "</t>") = Some (e, [])).
    { apply (find_sub_first ch_lt [47; 116; 62]%N e []);
        [by repeat constructor|by apply find_sub_fresh]. }
    cbv beta iota. by rewrite Hf. }
  rewrite Hat. simpl. by rewrite app_nil_r.
Qed.

(** ** The identity map *)



(** ** Entities in a sanitized name *)

Lemma find_sub_unfold (p s : str) :
  find_sub p s =
  match strip_prefix p s with
  | Some r => Some ([], r)
  | None =>
      match s with
      | [] => None
      | c :: s' =>
          match find_sub p s' with
          | Some (b, a) => Some (c :: b, a)
          | None => None
          end
      end
  end.
Proof. by destruct s. Qed.

Lemma find_sub_occurs (q b x : str) : is_Some (find_sub q (b ++ q ++ x)).
Proof.
  induction b as [|c b IH]; rewrite find_sub_unfold.
  - simpl app. rewrite strip_prefix_app. by eexists.
  - destruct (strip_prefix q _); [by eexists|]. simpl app.
    destruct IH as [[b' a'] ->]. by eexists.
Qed.







Lemma sanitize_id (name : str) :
  Forall (fun c => forbidden_unit c = false) name -> length name <= 31 ->
  sanitize_sheet_name name = name.
Proof.
  intros Hf Hl. unfold sanitize_sheet_name.
  rewrite take_ge by by rewrite length_map.
  induction Hf as [|c s Hc _ IH]; [done|]. simpl in *.
  rewrite Hc, IH; [done|lia].
Qed.

(** ** The round trip *)

Section RoundTrip.
Variable tm : gmap str (option str).
Hypothesis Hid : forall k v, tm !! k = Some v -> v = Some k.



End RoundTrip.

(** ** Phonetic guides *)

Lemma strip_prefix_cons (a : N) (q : str) (c : N) (s : str) :
  strip_prefix (a :: q) (c :: s) = if (a =? c)%N then strip_prefix q s else None.
Proof. done. Qed.

(** A guide whose opening tag has no attribute is removed with its
    content, whatever the content. *)
Lemma strip_rph_block (before body rest : str) :
  find_sub rph_open before = None ->
  find_sub rph_close body = None ->
  strip_rph (before ++ rph_open ++ body ++ rph_close ++ rest)
  = before ++ strip_rph rest.
Proof.
  intros Hb Hbody. unfold strip_rph. induction before as [|c before IH].
  - rewrite app_nil_l, (replace_g_unfold _ rph_at_progresses).
    assert (rph_at (rph_open ++ body ++ rph_close ++ rest) = Some (body, rest))
      as ->; [|done].
    unfold rph_at. rewrite strip_prefix_app.
    apply (find_sub_first ch_lt [47; 114; 80; 104; 62]%N body rest);
      [by repeat constructor|done].
  - apply find_sub_cons_None in Hb as [Hs Hb].
    change ((c :: before) ++ rph_open ++ body ++ rph_close ++ rest)
      with (c :: (before ++ rph_open ++ body ++ rph_close ++ rest)).
    rewrite (replace_g_unfold _ rph_at_progresses).
    assert (rph_at (c :: before ++ rph_open ++ body ++ rph_close ++ rest) = None)
      as ->.
    { unfold rph_at.
      assert (strip_prefix rph_open
                (c :: before ++ rph_open ++ body ++ rph_close ++ rest) = None)
        as ->; [|done].
      change rph_open with (ch_lt :: [114; 80; 104; 62]%N) in Hs |- *.
      rewrite strip_prefix_cons in Hs |- *.
      destruct (N.eqb_spec ch_lt c); [|done].
      apply (strip_prefix_app_fresh ch_lt _ before
               ([114; 80; 104; 62]%N ++ body ++ rph_close ++ rest));
        [by repeat constructor|done]. }
    simpl. f_equal. by apply IH.
Qed.

(** C7 fails on the code.  The expression that removes the phonetic
    guides matches an opening tag without attributes only; the guide
    of [guided_item], written with its attributes, stays, and its text
    becomes part of the candidate. *)
Theorem phonetic_guide_with_attributes_kept :
  strip_rph guided_item = guided_item
  /\ si_text guided_item = text_kanji ++ text_kana
  /\ extractFromSharedStrings
       (lit "<sst><si>" ++ guided_item ++ lit "</si></sst>") []
     = [text_kanji ++ text_kana]
  /\ si_text (lit "<t>" ++ text_kanji ++ lit "</t><rPh><t>" ++ text_kana
              ++ lit "</t></rPh>") = text_kanji.
Proof. repeat split; by vm_compute. Qed.

(** ** The sample run *)

Lemma Ok_inj {E A : Type} (a b : A) : @Ok E A a = Ok b -> a = b.
Proof. by intros [= ->]. Qed.

Lemma positional_commit_witness :
  size (batch_loop demo_translate (extract_package demo_archive) 2 1 0 ∅).1.1
  = size (batch_loop demo_translate (extract_package demo_archive) 2 0 0 ∅).1.1
    + length (chunk_of (extract_package demo_archive) 0).
Proof.
  refine (proj1 (proj2 (proj2 (proj2
            (positional_commit demo_translate (extract_package demo_archive)
               2 ∅ 0
               (List.map (fun s => lit "T:" ++ s)
                  (chunk_of (extract_package demo_archive) 0))
               _ _ _ _))))).
  - apply extract_package_NoDup.
  - intros k _. apply lookup_empty.
  - intros i Hi. clear -Hi. lia.
  - exact eq_refl.
Defined.

Lemma rehydration_frame_witness :
  exists z',
    zip (getDownloadBuffer demo_processor).1 = Some z'
    /\ z'.*1 = demo_archive.*1
    /\ zfile (lit "xl/styles.xml") z' = Some (lit "<styleSheet/>").
Proof.
  destruct (rehydration_frame demo_processor demo_archive eq_refl)
    as (z' & H1 & H2 & _ & H4 & _).
  exists z'. split; [assumption|]. split; [assumption|].
  rewrite H4; reflexivity.
Defined.

Lemma sheet_name_sanitization_witness :
  rewritten sheet_at
    (sheet_rewrite (identity_map (extract_package colon_workbook)))
    (lit "<sheet name=" ++ [ch_quot] ++ colon_name ++ [ch_quot] ++ lit "/>")
    (lit "<sheet name=" ++ [ch_quot] ++ underscore_name ++ [ch_quot]
     ++ lit "/>").
Proof.
  apply (proj1 (proj2 sheet_name_sanitization)). by vm_compute.
Defined.

Lemma batch_partition_witness :
  calls_of (processTranslations (fun _ texts => Ok texts) demo_processor).1.2
  = List.map (chunk_of (extract_package demo_archive)) (seq 0 2)
  /\ (processTranslations (fun _ texts => Ok texts) demo_processor).2 = Ok tt.
Proof.
  apply (proj1 (proj2 (proj2 (proj2 (proj2 (proj2
           (batch_partition (fun _ texts => Ok texts) demo_processor))))))).
  intros i _. by eexists.
Defined.

(** * Further properties *)

(** ** The retry loop *)

Section BackoffFacts.
Variable api_key_present : bool.
Variable JSON_parse : str -> parsed.
Variable generateContent : nat -> api_outcome.
Variable jitter : nat -> N.

#[local] Abbreviation attempts' := (attempts JSON_parse generateContent).
#[local] Abbreviation attempts_io' :=
  (attempts_io JSON_parse generateContent jitter).
#[local] Abbreviation translateBatch' :=
  (translateBatch api_key_present JSON_parse generateContent).
#[local] Abbreviation translateBatch_io' :=
  (translateBatch_io api_key_present JSON_parse generateContent jitter).

Lemma attempts_io_outcome (remaining attempt : nat) (texts : list str) :
  (attempts_io' remaining attempt texts).2 = attempts' remaining attempt texts.
Proof.
  revert attempt. induction remaining as [|n IH]; intros attempt; [done|].
  simpl. destruct (generateContent attempt) as [[[|c j]|]|e|type_error]; try done.
  destruct (isQuotaExhausted e); [done|].
  destruct ((isRateLimit e || isOverloaded e) && (attempt <? maxRetries)).
  - specialize (IH (S attempt)).
    by destruct (attempts_io' n (S attempt) texts).
  - by destruct (isRateLimit e).
Qed.

Lemma translateBatch_io_outcome (texts : list str) :
  (translateBatch_io' texts).2 = translateBatch' texts.
Proof.
  unfold translateBatch_io, translateBatch.
  destruct api_key_present; [|done]. apply attempts_io_outcome.
Qed.

(** The log of the attempts from [attempt] on: the attempts that were
    retried with their pauses, then one last request. *)
Lemma attempts_io_shape (remaining attempt : nat) (texts : list str) :
  0 < remaining -> S maxRetries <= attempt + remaining ->
  exists k,
    attempt + k <= Nat.max attempt maxRetries
    /\ (attempts_io' remaining attempt texts).1
       = flat_map (fun a => [Request a; Delay (waitTime jitter a)])
           (seq attempt k)
         ++ [Request (attempt + k)]
    /\ forall i, attempt <= i < attempt + k ->
         exists e, generateContent i = Rejected e
                   /\ isQuotaExhausted e = false
                   /\ isRateLimit e || isOverloaded e = true.
Proof.
  revert attempt. induction remaining as [|n IH]; intros attempt H0 Hsum; [lia|].
  assert (Hstop : exists k, attempt + k <= Nat.max attempt maxRetries
            /\ [Request attempt]
               = flat_map (fun a => [Request a; Delay (waitTime jitter a)])
                   (seq attempt k) ++ [Request (attempt + k)]
            /\ forall i, attempt <= i < attempt + k ->
                 exists e, generateContent i = Rejected e
                           /\ isQuotaExhausted e = false
                           /\ isRateLimit e || isOverloaded e = true).
  { exists 0. rewrite Nat.add_0_r. split; [lia|]. split; [done|]. intros i ?; lia. }
  simpl. destruct (generateContent attempt) as [[[|c j]|]|e|type_error] eqn:Hg; try done.
  destruct (isQuotaExhausted e) eqn:Hq; [done|].
  destruct (isRateLimit e || isOverloaded e) eqn:Hr; simpl.
  - destruct (Nat.ltb_spec attempt maxRetries) as [Hlt|Hge].
    + destruct (IH (S attempt)) as (k & Hk & Hlog & Hrej);
        [unfold maxRetries in *; lia..|].
      destruct (attempts_io' n (S attempt) texts) as [log r]. simpl in *.
      exists (S k). split; [unfold maxRetries in *; lia|]. split.
      * rewrite Hlog. simpl. by rewrite Nat.add_succ_r.
      * intros i Hi. destruct (decide (i = attempt)) as [->|].
        -- by exists e.
        -- apply Hrej. lia.
    + by destruct (isRateLimit e).
  - by destruct (isRateLimit e).
Qed.

(** The attempts that are retried are skipped with their pauses. *)
Lemma attempts_io_retried (n remaining attempt : nat) (texts : list str) :
  (forall i, attempt <= i < attempt + n ->
     exists e, generateContent i = Rejected e
               /\ isQuotaExhausted e = false
               /\ isRateLimit e || isOverloaded e = true) ->
  attempt + n <= maxRetries ->
  attempts_io' (n + remaining) attempt texts
  = (flat_map (fun a => [Request a; Delay (waitTime jitter a)]) (seq attempt n)
     ++ (attempts_io' remaining (attempt + n) texts).1,
     (attempts_io' remaining (attempt + n) texts).2).
Proof.
  revert attempt. induction n as [|n IH]; intros attempt Hrej Hle.
  - simpl. rewrite Nat.add_0_r. by destruct (attempts_io' remaining attempt texts).
  - destruct (Hrej attempt) as (e & Hg & Hq & Hr); [lia|].
    change (S n + remaining) with (S (n + remaining)).
    cbn [attempts_io]. rewrite Hg, Hq, Hr.
    destruct (Nat.ltb_spec attempt maxRetries) as [_|]; [|lia].
    cbn [andb]. rewrite IH; [|intros i Hi; apply Hrej; lia|lia].
    rewrite Nat.add_succ_r. done.
Qed.

Lemma requests_of_app (a b : list io) :
  requests_of (a ++ b) = requests_of a ++ requests_of b.
Proof. apply omap_app. Qed.

Lemma delays_of_app (a b : list io) :
  delays_of (a ++ b) = delays_of a ++ delays_of b.
Proof. apply omap_app. Qed.

Lemma requests_of_prefix (a k : nat) :
  requests_of
    (flat_map (fun a => [Request a; Delay (waitTime jitter a)]) (seq a k))
  = seq a k.
Proof.
  revert a. induction k as [|k IH]; intros a; [done|].
  simpl. unfold requests_of in *. simpl. by rewrite IH.
Qed.

Lemma delays_of_prefix (a k : nat) :
  delays_of
    (flat_map (fun a => [Request a; Delay (waitTime jitter a)]) (seq a k))
  = List.map (waitTime jitter) (seq a k).
Proof.
  revert a. induction k as [|k IH]; intros a; [done|].
  simpl. unfold delays_of in *. simpl. by rewrite IH.
Qed.

Lemma requests_of_schedule (k : nat) :
  requests_of (schedule jitter k) = seq 0 (S k).
Proof.
  unfold schedule. rewrite requests_of_app, requests_of_prefix.
  by rewrite seq_S.
Qed.

Lemma delays_of_schedule (k : nat) :
  delays_of (schedule jitter k) = List.map (waitTime jitter) (seq 0 k).
Proof.
  unfold schedule. rewrite delays_of_app, delays_of_prefix.
  apply app_nil_r.
Qed.

Lemma retried_from_0 (n : nat) :
  retried generateContent n ->
  forall i, 0 <= i < 0 + n ->
    exists e, generateContent i = Rejected e
              /\ isQuotaExhausted e = false
              /\ isRateLimit e || isOverloaded e = true.
Proof. intros H i Hi. apply H. lia. Qed.

(** The run up to the attempt [n], when the attempts before it are
    retried: the schedule, and what the attempt [n] decides. *)
Lemma translateBatch_io_at (n : nat) (texts : list str) :
  api_key_present = true -> retried generateContent n -> n <= maxRetries ->
  translateBatch_io' texts
  = (flat_map (fun a => [Request a; Delay (waitTime jitter a)]) (seq 0 n)
     ++ (attempts_io' (S maxRetries - n) n texts).1,
     (attempts_io' (S maxRetries - n) n texts).2).
Proof.
  intros Hkey Hret Hn. unfold translateBatch_io. rewrite Hkey.
  replace (S maxRetries) with (n + (S maxRetries - n)) at 1 by lia.
  rewrite attempts_io_retried; [done|by apply retried_from_0|lia].
Qed.

(** X1.  The retry loop sends at most six requests, numbered from zero,
    each but the last followed by a pause of five seconds doubled at
    every attempt, plus a jitter of less than a second; the pauses of a
    call add up to less than 160 seconds; the attempts before the last
    were all rejected for a reason that is retried; without a key
    nothing is sent; and the log goes with the result of
    [translateBatch]. *)
Theorem retry_schedule (texts : list str) :
  (forall a, (jitter a < 1000)%N) ->
  let log := (translateBatch_io' texts).1 in
  (translateBatch_io' texts).2 = translateBatch' texts
  /\ (api_key_present = false -> log = [])
  /\ (api_key_present = true ->
      exists k,
        k <= maxRetries
        /\ log = schedule jitter k
        /\ requests_of log = seq 0 (S k)
        /\ delays_of log = List.map (waitTime jitter) (seq 0 k)
        /\ retried generateContent k)
  /\ (forall a, (baseDelay * 2 ^ N.of_nat a <= waitTime jitter a
                 < baseDelay * 2 ^ N.of_nat a + 1000)%N)
  /\ (foldr N.add 0 (delays_of log) < 160000)%N.
Proof.
  intros Hj log.
  assert (Hshape : api_key_present = true ->
            exists k, k <= maxRetries /\ log = schedule jitter k
                      /\ retried generateContent k).
  { intros Hkey. subst log. unfold translateBatch_io. rewrite Hkey.
    destruct (attempts_io_shape (S maxRetries) 0 texts) as (k & Hk & Hlog & Hrej);
      [lia..|].
    exists k. split; [unfold maxRetries in *; lia|]. split; [done|].
    intros i Hi. apply Hrej. lia. }
  split; [apply translateBatch_io_outcome|].
  split.
  { intros Hkey. subst log. unfold translateBatch_io. by rewrite Hkey. }
  split.
  { intros Hkey. destruct (Hshape Hkey) as (k & Hk & -> & Hret).
    exists k. by rewrite requests_of_schedule, delays_of_schedule. }
  split.
  { intros a. unfold waitTime. specialize (Hj a). lia. }
  destruct api_key_present eqn:Hkey.
  - destruct (Hshape eq_refl) as (k & Hk & -> & _).
    rewrite delays_of_schedule. unfold maxRetries in Hk.
    pose proof (Hj 0) as H0. pose proof (Hj 1) as H1. pose proof (Hj 2) as H2.
    pose proof (Hj 3) as H3. pose proof (Hj 4) as H4.
    assert (Hw : forall a, waitTime jitter a
                           = (5000 * 2 ^ N.of_nat a + jitter a)%N) by done.
    do 6 (destruct k as [|k]; [simpl; rewrite ?Hw; simpl; lia|]). lia.
  - subst log. unfold translateBatch_io. done.
Qed.

(** The loop settles at the first attempt that is not retried; the
    attempts before it were retried, and an attempt rejected for a
    reason that is retried settles the call only when it is the
    last. *)
Lemma attempts_settle (remaining attempt : nat) (texts : list str) :
  0 < remaining -> S maxRetries <= attempt + remaining ->
  exists k,
    attempt + k <= Nat.max attempt maxRetries
    /\ (forall i, attempt <= i < attempt + k ->
          exists e, generateContent i = Rejected e
                    /\ isQuotaExhausted e = false
                    /\ isRateLimit e || isOverloaded e = true)
    /\ attempts' remaining attempt texts
       = settle JSON_parse (generateContent (attempt + k)) texts
    /\ (forall e, generateContent (attempt + k) = Rejected e ->
          isQuotaExhausted e = false ->
          isRateLimit e || isOverloaded e = true ->
          maxRetries <= attempt + k).
Proof.
  revert attempt. induction remaining as [|n IH]; intros attempt H0 Hsum; [lia|].
  destruct (generateContent attempt) as [[[|c j]|]|e|type_error] eqn:Hg.
  1-3, 5: exists 0; rewrite Nat.add_0_r; split; [lia|];
       split; [intros i ?; lia|]; split; [by cbn [attempts]; rewrite !Hg|];
       intros e He; congruence.
  destruct (isQuotaExhausted e) eqn:Hq.
  { exists 0. rewrite Nat.add_0_r. split; [lia|]. split; [intros i ?; lia|].
    split; [by cbn [attempts]; rewrite !Hg; cbn [settle]; rewrite !Hq|]. intros e' He'. congruence. }
  destruct (isRateLimit e || isOverloaded e) eqn:Hr.
  - destruct (Nat.ltb_spec attempt maxRetries) as [Hlt|Hge].
    + destruct (IH (S attempt)) as (k & Hk & Hrej & Hres & Hlast);
        [unfold maxRetries in *; lia..|].
      exists (S k). rewrite Nat.add_succ_r.
      split; [unfold maxRetries in *; lia|]. split.
      * intros i Hi. destruct (decide (i = attempt)) as [->|].
        -- by exists e.
        -- apply Hrej. lia.
      * split; [|done]. cbn [attempts]. rewrite ?Hg. cbn [settle]. rewrite ?Hq, ?Hr.
        destruct (Nat.ltb_spec attempt maxRetries); [|lia]. done.
    + exists 0. rewrite Nat.add_0_r. split; [lia|]. split; [intros i ?; lia|].
      split; [|intros; lia]. cbn [attempts]. rewrite ?Hg. cbn [settle]. rewrite ?Hq, ?Hr.
      destruct (Nat.ltb_spec attempt maxRetries); [lia|]. done.
  - exists 0. rewrite Nat.add_0_r. split; [lia|]. split; [intros i ?; lia|].
    split; [|intros e' He'; congruence]. cbn [attempts]. rewrite ?Hg. cbn [settle]. rewrite ?Hq, ?Hr. simpl.
    apply orb_false_iff in Hr as [-> _]. done.
Qed.

Lemma translateBatch_settles (texts : list str) :
  api_key_present = true ->
  exists n,
    n <= maxRetries
    /\ retried generateContent n
    /\ translateBatch' texts = settle JSON_parse (generateContent n) texts
    /\ (forall e, generateContent n = Rejected e ->
          isQuotaExhausted e = false ->
          isRateLimit e || isOverloaded e = true ->
          n = maxRetries).
Proof.
  intros Hkey. unfold translateBatch. rewrite Hkey.
  destruct (attempts_settle (S maxRetries) 0 texts) as (k & Hk & Hrej & Hres & Hl);
    [lia..|].
  simpl in Hk, Hres, Hl. exists k. split; [unfold maxRetries in *; lia|].
  split; [intros i Hi; apply Hrej; lia|]. split; [done|].
  intros e He Hq Hr. specialize (Hl e He Hq Hr). unfold maxRetries in *. lia.
Qed.

(** The attempt [n] settles the call when those before it were
    retried and it is not. *)
Lemma translateBatch_at (n : nat) (texts : list str) :
  api_key_present = true -> retried generateContent n -> n <= maxRetries ->
  (forall e, generateContent n = Rejected e ->
     isQuotaExhausted e = false ->
     isRateLimit e || isOverloaded e = true -> n = maxRetries) ->
  translateBatch' texts = settle JSON_parse (generateContent n) texts
  /\ (translateBatch_io' texts).1 = schedule jitter n.
Proof.
  intros Hkey Hret Hn Hlast.
  pose proof (translateBatch_io_outcome texts) as Hout.
  rewrite (translateBatch_io_at n texts Hkey Hret Hn) in *.
  simpl in Hout. rewrite <- Hout. simpl. unfold schedule.
  replace (S maxRetries - n) with (S (maxRetries - n)) by lia.
  cbn [attempts_io].
  destruct (generateContent n) as [[[|c j]|]|e|type_error] eqn:Hg; try done.
  cbn [settle].
  destruct (isQuotaExhausted e) eqn:Hq; [done|].
  destruct (isRateLimit e || isOverloaded e) eqn:Hr.
  - rewrite (Hlast e eq_refl Hq Hr).
    destruct (Nat.ltb_spec maxRetries maxRetries); [lia|].
    cbn [andb]. by destruct (isRateLimit e).
  - cbn [andb]. apply orb_false_iff in Hr as [-> _]. done.
Qed.

(** X2.  A rejection that reports the exhausted quota ends the call at
    once with the quota error, at whatever attempt it comes and also
    when the same rejection counts as a rate limit: no pause and no
    request follow it. *)
Theorem quota_exhausted_not_retried (n : nat) (e : api_error)
    (texts : list str) :
  api_key_present = true -> retried generateContent n -> n <= maxRetries ->
  generateContent n = Rejected e -> isQuotaExhausted e = true ->
  translateBatch' texts = Throw QuotaExceeded
  /\ (translateBatch_io' texts).1 = schedule jitter n
  /\ requests_of (translateBatch_io' texts).1 = seq 0 (S n).
Proof.
  intros Hkey Hret Hn Hg Hq.
  destruct (translateBatch_at n texts Hkey Hret Hn) as [Hres Hlog].
  { intros e' He'. congruence. }
  rewrite Hres, Hlog, Hg. simpl. rewrite Hq.
  by rewrite requests_of_schedule.
Qed.

(** X3.  When all six attempts are rejected for a reason that is
    retried, the call fails after the sixth request and five pauses:
    with the rate-limit error when the last rejection is a rate limit,
    and with the rejection of the service itself when that one is an
    overload only. *)
Theorem retries_exhausted (e : api_error) (texts : list str) :
  api_key_present = true ->
  rejected_through generateContent maxRetries ->
  generateContent maxRetries = Rejected e ->
  translateBatch' texts
  = Throw (if isRateLimit e then RateLimitExceeded else ApiFailure e)
  /\ (translateBatch_io' texts).1 = schedule jitter maxRetries
  /\ requests_of (translateBatch_io' texts).1 = seq 0 (S maxRetries)
  /\ delays_of (translateBatch_io' texts).1
     = List.map (waitTime jitter) (seq 0 maxRetries).
Proof.
  intros Hkey Hrej Hg.
  destruct (translateBatch_at maxRetries texts Hkey) as [Hres Hlog]; [|done|done|].
  { intros i Hi. apply Hrej. lia. }
  rewrite Hres, Hlog, Hg, requests_of_schedule, delays_of_schedule.
  destruct (Hrej maxRetries) as (e' & He' & Hq & _); [done|].
  assert (e' = e) as -> by congruence.
  simpl. rewrite Hq. by destruct (isRateLimit e).
Qed.

(** X4.  What a call can throw, and when.  The key error is thrown
    exactly when there is no key.  The rate-limit error is thrown only
    after all six attempts were rejected.  A rejection of the service
    that is thrown as it is, is neither a quota nor a rate-limit
    rejection, and when it is an overload it is the one of the sixth
    attempt.  An empty response is an error, not a fallback.  A
    rejection of which [JSON.stringify] makes no text ends the call
    with the error of the engine, at whatever attempt it comes.
    Nothing else is thrown. *)
Theorem translateBatch_throws (texts : list str) (x : exn) :
  translateBatch' texts = Throw x ->
  (x = ApiKeyMissing <-> api_key_present = false)
  /\ (x = RateLimitExceeded -> rejected_through generateContent maxRetries)
  /\ (x = QuotaExceeded ->
      exists n e, n <= maxRetries /\ retried generateContent n
                  /\ generateContent n = Rejected e
                  /\ isQuotaExhausted e = true)
  /\ (x = EmptyResponse ->
      exists n, n <= maxRetries /\ retried generateContent n
                /\ (generateContent n = Response None
                    \/ generateContent n = Response (Some [])))
  /\ (forall e, x = ApiFailure e ->
      isQuotaExhausted e = false /\ isRateLimit e = false
      /\ exists n, n <= maxRetries /\ retried generateContent n
                   /\ generateContent n = Rejected e
                   /\ (isOverloaded e = true -> n = maxRetries))
  /\ (forall type_error, x = CatchTypeError type_error ->
      exists n, n <= maxRetries /\ retried generateContent n
                /\ generateContent n = Unserializable type_error)
  /\ (x = ApiKeyMissing \/ x = EmptyResponse \/ x = QuotaExceeded
      \/ x = RateLimitExceeded \/ (exists e, x = ApiFailure e)
      \/ exists type_error, x = CatchTypeError type_error).
Proof.
  intros Hx.
  destruct (decide (api_key_present = true)) as [Hkey|Hkey%not_true_is_false].
  2:{ unfold translateBatch in Hx. rewrite Hkey in Hx. injection Hx as <-.
      refine (conj _ (conj _ (conj _ (conj _ (conj _ (conj _ _))))));
        [done|discriminate..|by left]. }
  destruct (translateBatch_settles texts Hkey) as (n & Hn & Hret & Hres & Hlast).
  rewrite Hres in Hx. unfold settle in Hx. rewrite Hkey.
  destruct (generateContent n) as [[[|c j]|]|e|type_error] eqn:Hg.
  - injection Hx as <-.
    refine (conj _ (conj _ (conj _ (conj _ (conj _ (conj _ _))))));
      [done|discriminate..| |discriminate|discriminate|by right; left].
    intros _. exists n. auto.
  - by destruct (JSON_parse (c :: j)).
  - injection Hx as <-.
    refine (conj _ (conj _ (conj _ (conj _ (conj _ (conj _ _))))));
      [done|discriminate..| |discriminate|discriminate|by right; left].
    intros _. exists n. auto.
  - destruct (isQuotaExhausted e) eqn:Hq.
    { injection Hx as <-.
      refine (conj _ (conj _ (conj _ (conj _ (conj _ (conj _ _))))));
        [done|discriminate| |discriminate..|by right; right; left].
      intros _. by exists n, e. }
    destruct (isRateLimit e) eqn:Hr; injection Hx as <-.
    + refine (conj _ (conj _ (conj _ (conj _ (conj _ (conj _ _))))));
        [done| |discriminate..|by right; right; right; left].
      intros _ i Hi. specialize (Hlast e eq_refl Hq). rewrite Hr in Hlast.
      specialize (Hlast eq_refl). subst n.
      destruct (decide (i = maxRetries)) as [->|].
      * exists e. by rewrite Hr.
      * apply Hret. lia.
    + refine (conj _ (conj _ (conj _ (conj _ (conj _ (conj _ _))))));
        [done|discriminate..| |discriminate|by right; right; right; right; left; exists e].
      intros e' [= <-]. split; [done|]. split; [done|].
      exists n. split; [done|]. split; [done|]. split; [done|].
      intros Ho. apply (Hlast e); [done..|]. by rewrite Ho, orb_true_r.
  - injection Hx as <-.
    refine (conj _ (conj _ (conj _ (conj _ (conj _ (conj _ _))))));
      [done|discriminate..| |by right; right; right; right; right;
                               exists type_error].
    intros msg [= <-]. exists n. auto.
Qed.

(** *** The answer by identifier *)

Lemma map_get_elem (k v : str) (sets : list (str * str)) :
  map_get k sets = Some v -> (k, v) ∈ sets.
Proof.
  induction sets as [|[k' v'] sets IH]; [done|]. simpl.
  destruct (map_get k sets) as [w|].
  - intros [= ->]. right. by apply IH.
  - case_bool_decide as Hk; [|done]. intros [= ->]. subst. left.
Qed.

Lemma map_get_NoDup (k v : str) (sets : list (str * str)) :
  NoDup sets.*1 -> (k, v) ∈ sets -> map_get k sets = Some v.
Proof.
  induction sets as [|[k' v'] sets IH]; [by intros _ ?%elem_of_nil|].
  rewrite fmap_cons, NoDup_cons. intros [Hk' Hnd] Hin. simpl in *.
  apply elem_of_cons in Hin as [[= -> ->]|Hin].
  - destruct (map_get k' sets) as [w|] eqn:E.
    + apply map_get_elem in E. exfalso. apply Hk'.
      apply list_elem_of_fmap. by exists (k', w).
    + by rewrite bool_decide_eq_true_2.
  - by rewrite (IH Hnd Hin).
Qed.

Lemma collect_elem (k v : str) (l : list (option item)) :
  (k, v) ∈ collect l
  <-> exists it, Some it ∈ l /\ id it = Some k /\ translatedText it = v.
Proof.
  unfold collect. rewrite list_elem_of_omap. split.
  - intros ([it|] & Hin & Heq); [|done].
    destruct (id it) as [k'|] eqn:Hid; [|done].
    injection Heq as <- <-. by exists it.
  - intros (it & Hin & Hid & <-). exists (Some it). by rewrite Hid.
Qed.

(** X5.  A parsed response is read by identifier: an index gets the text
    of the item whose identifier is that index, wherever the item stands
    in the response, as long as no identifier comes twice; an item with
    an empty text leaves the original in place; and every text of the
    answer is either the original or a text of the response that is not
    empty. *)
Theorem response_by_id (n : nat) (jsonText : str) (l : list (option item))
    (texts : list str) :
  api_key_present = true -> retried generateContent n -> n <= maxRetries ->
  generateContent n = Response (Some jsonText) -> jsonText <> [] ->
  JSON_parse jsonText = Items l ->
  exists out,
    translateBatch' texts = Ok out
    /\ (NoDup (ids_of l) ->
        forall index (text : str) (it : item),
          texts !! index = Some text ->
          Some it ∈ l -> id it = Some (of_nat index) ->
          out !! index
          = Some (match translatedText it with [] => text | t => t end))
    /\ (forall index (text o : str),
          texts !! index = Some text -> out !! index = Some o ->
          o = text
          \/ (o <> []
               /\ exists it, Some it ∈ l /\ id it = Some (of_nat index)
                             /\ translatedText it = o)).
Proof.
  intros Hkey Hret Hn Hg Hj Hp.
  destruct (translateBatch_at n texts Hkey Hret Hn) as [Hres _].
  { intros e He. congruence. }
  rewrite Hg in Hres. simpl in Hres.
  destruct jsonText as [|c j]; [done|]. rewrite Hp in Hres.
  eexists. split; [exact Hres|]. split.
  - intros Hnd index text it Ht Hin Hid.
    rewrite list_lookup_imap, Ht. simpl. f_equal. unfold resolve.
    rewrite (map_get_NoDup (of_nat index) (translatedText it)); [done|done|].
    apply collect_elem. by exists it.
  - intros index text o Ht Ho.
    rewrite list_lookup_imap, Ht in Ho. simpl in Ho. injection Ho as <-.
    unfold resolve.
    destruct (map_get (of_nat index) (collect l)) as [[|c' v]|] eqn:E; auto.
    right. split; [done|]. apply map_get_elem, collect_elem in E. done.
Qed.
End BackoffFacts.

(** ** Escaping, once more *)

Lemma escape_unit_safe (c : N) :
  Forall (fun x => x <> ch_lt /\ x <> ch_gt /\ x <> ch_apos /\ x <> ch_quot)
    (escape_unit c).
Proof.
  unfold escape_unit.
  destruct (N.eqb_spec c ch_lt); [by repeat constructor|].
  destruct (N.eqb_spec c ch_gt); [by repeat constructor|].
  destruct (N.eqb_spec c ch_amp); [by repeat constructor|].
  destruct (N.eqb_spec c ch_apos); [by repeat constructor|].
  destruct (N.eqb_spec c ch_quot); [by repeat constructor|].
  by repeat constructor.
Qed.

Lemma escape_unit_length (c : N) :
  1 <= length (escape_unit c) <= 6
  /\ (length (escape_unit c) = 1 <-> plain_unit c = true).
Proof.
  unfold escape_unit, plain_unit.
  repeat (destruct (_ =? _)%N; [by vm_compute; split; [lia|split]|]).
  simpl. split; [lia|done].
Qed.

Lemma escapeXml_length (s : str) :
  length s <= length (escapeXml s) <= 6 * length s.
Proof.
  induction s as [|c s IH]; simpl; [lia|].
  unfold escapeXml in *. simpl. rewrite length_app.
  pose proof (escape_unit_length c) as [? _]. lia.
Qed.

Lemma escapeXml_plain (s : str) :
  forallb plain_unit s = true -> escapeXml s = s.
Proof.
  induction s as [|c s IH]; [done|]. simpl.
  intros [Hc Hs]%andb_true_iff. unfold escapeXml in *. simpl.
  rewrite (IH Hs). unfold plain_unit in Hc. unfold escape_unit.
  apply negb_true_iff in Hc. repeat apply orb_false_iff in Hc as [Hc ?].
  by repeat match goal with H : (_ =? _)%N = false |- _ => rewrite H; clear H end.
Qed.

(** X6.  The escaped text holds none of the four characters that open or
    close a tag or an attribute value; a reader of XML gets the text
    back from it, so two texts are never escaped to the same one; its
    length is between that of the text and six times as much; and the
    text is left as it is exactly when it holds none of the five
    metacharacters. *)
Theorem escapeXml_safe (s t : str) :
  Forall (fun x => x <> ch_lt /\ x <> ch_gt /\ x <> ch_apos /\ x <> ch_quot)
    (escapeXml s)
  /\ xml_unescape (escapeXml s) = s
  /\ (escapeXml s = escapeXml t -> s = t)
  /\ length s <= length (escapeXml s) <= 6 * length s
  /\ (escapeXml s = s <-> forallb plain_unit s = true).
Proof.
  split; [|split; [|split; [|split]]].
  - unfold escapeXml. induction s as [|c s IH]; [constructor|].
    simpl. apply Forall_app_2; [apply escape_unit_safe|done].
  - apply xml_unescape_escape.
  - intros H. rewrite <- (xml_unescape_escape s), <- (xml_unescape_escape t).
    by rewrite H.
  - apply escapeXml_length.
  - split; [|apply escapeXml_plain].
    intros H. apply (f_equal length) in H. revert H.
    induction s as [|c s IH]; [done|]. unfold escapeXml in *. simpl.
    rewrite length_app. intros H.
    pose proof (escape_unit_length c) as [Hc1 Hc2].
    pose proof (escapeXml_length s) as Hs. unfold escapeXml in Hs.
    apply andb_true_iff. split.
    + apply Hc2. lia.
    + apply IH. lia.
Qed.

(** ** Decoding, once more *)

Lemma replace_lit_fresh (a : N) (q r s : str) :
  Forall (fun x => x <> a) s -> replace_lit (a :: q) r s = s.
Proof.
  induction 1 as [|c s Hc _ IH]; [done|].
  by rewrite replace_lit_other, IH.
Qed.

Lemma replace_lit_length (p r s : str) :
  p <> [] -> length r <= length p ->
  length (replace_lit p r s) <= length s.
Proof.
  intros Hp Hr. apply (replace_lit_ind p r (fun s s' => length s' <= length s));
    [done|done|..].
  - intros s' IH. rewrite !length_app. lia.
  - intros c s' _ IH. simpl. lia.
Qed.

(** X7.  A text without ampersand is decoded to itself; decoding never
    makes a text longer; and a decoded text holds neither the entity of
    the apostrophe nor that of the double quote any more. *)
Theorem decodeXml_plain (s : str) :
  (Forall (fun x => x <> ch_amp) s -> decodeXml s = s)
  /\ length (decodeXml s) <= length s
  /\ includes ent_apos (decodeXml s) = false
  /\ includes ent_quot (decodeXml s) = false.
Proof.
  split; [|split; [|split]].
  - intros H. unfold decodeXml.
    change ent_lt with (ch_amp :: lit "lt;").
    change ent_gt with (ch_amp :: lit "gt;").
    change ent_amp with (ch_amp :: lit "amp;").
    change ent_apos with (ch_amp :: lit "apos;").
    change ent_quot with (ch_amp :: lit "quot;").
    by rewrite !(replace_lit_fresh _ _ _ s H).
  - unfold decodeXml.
    repeat (etrans; [apply replace_lit_length; [done|simpl; lia]|]). done.
  - unfold includes. by rewrite decodeXml_no_apos.
  - unfold includes. by rewrite decodeXml_no_quot.
Qed.

(** ** Sheet names, once more *)

(** X8.  Sanitizing twice is sanitizing once; the sanitized name has the
    length of the translation, up to 31; it stands position by position
    for the translation; and only the first 31 code units of a
    translation count, so that two translations with the same first 31
    code units give the same sheet name. *)
Theorem sanitize_sheet_name_idempotent (s t : str) :
  sanitize_sheet_name (sanitize_sheet_name s) = sanitize_sheet_name s
  /\ length (sanitize_sheet_name s) = Nat.min 31 (length s)
  /\ (forall i c,
        sanitize_sheet_name s !! i = Some c
        <-> i < 31
            /\ exists c0, s !! i = Some c0
                          /\ c = if forbidden_unit c0 then ch_us else c0)
  /\ (take 31 s = take 31 t -> sanitize_sheet_name s = sanitize_sheet_name t).
Proof.
  split; [|split; [|split]].
  - apply sanitize_id; [apply sanitize_not_forbidden|apply sanitize_length].
  - unfold sanitize_sheet_name. by rewrite length_take, length_map.
  - intros i c. unfold sanitize_sheet_name. change str with (list N) in *. split.
    + intros H. destruct (decide (i < 31)) as [Hi|Hi].
      * rewrite lookup_take_lt in H by done.
        change (List.map ?f s) with (f <$> s) in H.
        rewrite list_lookup_fmap in H.
        destruct (s !! i) as [c0|]; [|done]. injection H as <-.
        split; [done|]. by exists c0.
      * rewrite lookup_take_ge in H by lia. done.
    + intros (Hi & c0 & Hc0 & ->). rewrite lookup_take_lt by done.
      change (List.map ?f s) with (f <$> s).
      by rewrite list_lookup_fmap, Hc0.
  - intros H. unfold sanitize_sheet_name.
    change (List.map ?f ?l) with (f <$> l).
    by rewrite <- !fmap_take, H.
Qed.

(** ** Parts that no rule recognizes *)

Lemma zfile_insert (name path content : str) (z1 z2 : Package) :
  path <> name ->
  zfile name (z1 ++ (path, content) :: z2) = zfile name (z1 ++ z2).
Proof.
  intros Hne. induction z1 as [|[n c] z1 IH]; simpl.
  - by rewrite bool_decide_eq_false_2.
  - by rewrite IH.
Qed.

Lemma parts_matching_insert (prefix path content : str) (z1 z2 : Package) :
  path_matches prefix path = false ->
  parts_matching prefix (z1 ++ (path, content) :: z2)
  = parts_matching prefix (z1 ++ z2).
Proof.
  intros Hm. unfold parts_matching.
  rewrite !List.filter_app. simpl. by rewrite Hm.
Qed.

Lemma recognized_path_false (path : str) :
  recognized_path path = false ->
  path <> sharedStrings_path
  /\ path_matches worksheets_prefix path = false
  /\ path_matches drawings_prefix path = false
  /\ path_matches charts_prefix path = false
  /\ path <> workbook_path.
Proof.
  unfold recognized_path. intros H.
  repeat apply orb_false_iff in H as [H ?].
  apply bool_decide_eq_false in H.
  match goal with H' : bool_decide _ = false |- _ =>
    apply bool_decide_eq_false in H' end.
  repeat split; assumption.
Qed.

(** X9.  A part whose name is none of the five recognized ones gives no
    string, whatever it holds and wherever it stands in the archive: the
    extracted strings, and the candidates, are those of the archive
    without it. *)
Theorem extraction_ignores_other_parts (z1 z2 : Package)
    (path content : str) :
  recognized_path path = false ->
  extract_package (z1 ++ (path, content) :: z2) = extract_package (z1 ++ z2)
  /\ candidates (z1 ++ (path, content) :: z2) = candidates (z1 ++ z2).
Proof.
  intros (Hs & Hw & Hd & Hc & Hb)%recognized_path_false.
  unfold extract_package, candidates.
  rewrite !zfile_insert by assumption.
  rewrite !parts_matching_insert by assumption.
  split; reflexivity.
Qed.

(** ** Rehydration that changes nothing, and rehydration that throws *)

Lemma run_tasks_unchanged (tasks : list task) (z : Package) :
  Forall (fun t : task => t.2 t.1.2 = Some t.1.2) tasks ->
  run_tasks tasks z = (z, None).
Proof.
  induction 1 as [|[[path xml] rw] tasks Hrw _ IH]; [done|].
  simpl in *. rewrite Hrw. by rewrite bool_decide_eq_true_2.
Qed.

Lemma run_tasks_throws (tasks : list task) (z : Package) :
  Exists (fun t : task => t.2 t.1.2 = None) tasks ->
  (run_tasks tasks z).2 = Some TypeError.
Proof.
  intros H. revert z. induction tasks as [|[[path xml] rw] tasks IH]; intros z.
  - by apply Exists_nil in H.
  - simpl. destruct (rw xml) as [newXml|] eqn:Hrw.
    + apply IH. apply Exists_cons in H as [H|H]; [|done]. simpl in H. congruence.
    + by destruct (run_tasks tasks z).
Qed.

Lemma run_tasks_failure (tasks : list task) (z : Package) (x : exn) :
  (run_tasks tasks z).2 = Some x -> x = TypeError.
Proof.
  revert z. induction tasks as [|[[path xml] rw] tasks IH]; intros z; [done|].
  simpl. destruct (rw xml).
  - apply IH.
  - destruct (run_tasks tasks z). simpl. congruence.
Qed.

Lemma hits_elem {M : Type} (m : M) (l : list (seg (M:=M))) :
  m ∈ hits l <-> Hit m ∈ l.
Proof.
  unfold hits. rewrite list_elem_of_omap. split.
  - intros ([c|m'] & Hin & [= <-]). done.
  - intros H. by exists (Hit m).
Qed.

Lemma replace_g_throw_None {M : Type} (match_at : str -> option (M * str))
    (cb : M -> option str) (xml : str) (m : M) :
  m ∈ hits (scan match_at xml) -> cb m = None ->
  replace_g_throw match_at cb xml = None.
Proof.
  intros Hm Hcb. unfold replace_g_throw.
  destruct (mapM _ _) as [pieces|] eqn:E; [|done].
  exfalso. assert (Hs : is_Some (mapM
    (fun x => match x with Lit c => Some [c] | Hit m => cb m end)
    (scan match_at xml))) by (by eexists).
  apply mapM_is_Some in Hs. rewrite Forall_forall in Hs.
  apply hits_elem in Hm. specialize (Hs _ Hm). simpl in Hs.
  rewrite Hcb in Hs. by destruct Hs.
Qed.

Lemma with_translation_undefined (tm : gmap str (option str)) (key : str)
    (hit : str -> str) (miss : str) :
  tm !! key = Some None -> with_translation tm key hit miss = None.
Proof. intros H. unfold with_translation. by rewrite H. Qed.

Section Candidates.
Variable tm : gmap str (option str).

Lemma si_callback_unknown (xml : str) :
  (forall c, c ∈ si_candidates xml -> tm !! c = None) ->
  replaceSharedStrings tm xml = Some xml.
Proof.
  intros H. apply (replace_g_throw_same si_at si_match); [apply si_at_Some|].
  intros m Hm. unfold si_callback. apply with_translation_miss, H.
  unfold si_candidates. apply list_elem_of_In.
  apply (in_map (fun innerContent => decodeXml (si_text innerContent)) _ m).
  by apply list_elem_of_In.
Qed.

Lemma tag_callback_unknown (tagName xml : str) :
  (forall c, c ∈ tag_candidates tagName xml -> tm !! c = None) ->
  replaceTagContent tm xml tagName = Some xml.
Proof.
  intros H.
  apply (replace_g_throw_same (tag_at tagName) (tag_match tagName));
    [apply tag_at_Some|].
  intros [o i] Hm. unfold tag_callback, tag_match. simpl.
  apply with_translation_miss, H. unfold tag_candidates.
  apply list_elem_of_In.
  apply (in_map (fun m : str * str => decodeXml m.2) _ (o, i)).
  by apply list_elem_of_In.
Qed.

Lemma sheet_callback_unknown (xml : str) :
  (forall c, c ∈ sheet_candidates xml -> tm !! c = None) ->
  replaceSheetNames tm xml = Some xml.
Proof.
  intros H. apply (replace_g_throw_same sheet_at (fun m => m));
    [apply sheet_at_Some|].
  intros m Hm. unfold sheet_callback, replace_first_throw.
  destruct (search name_at m) as [[[b n] a]|] eqn:E; [|done].
  unfold name_callback. rewrite with_translation_miss.
  - f_equal. symmetry.
    apply (search_Some name_at name_match m b n a); [apply name_at_Some|done].
  - apply H. unfold sheet_candidates. apply list_elem_of_omap.
    exists m. by rewrite E.
Qed.

Lemma si_callback_undefined (xml c : str) :
  c ∈ si_candidates xml -> tm !! c = Some None ->
  replaceSharedStrings tm xml = None.
Proof.
  intros [m [<- Hm]]%list_elem_of_In%in_map_iff Hc.
  apply (replace_g_throw_None si_at _ xml m); [by apply list_elem_of_In|].
  by apply with_translation_undefined.
Qed.

Lemma tag_callback_undefined (tagName xml c : str) :
  c ∈ tag_candidates tagName xml -> tm !! c = Some None ->
  replaceTagContent tm xml tagName = None.
Proof.
  intros [[o i] [<- Hm]]%list_elem_of_In%in_map_iff Hc.
  apply (replace_g_throw_None (tag_at tagName) _ xml (o, i));
    [by apply list_elem_of_In|].
  by apply with_translation_undefined.
Qed.

Lemma sheet_callback_undefined (xml c : str) :
  c ∈ sheet_candidates xml -> tm !! c = Some None ->
  replaceSheetNames tm xml = None.
Proof.
  intros (m & Hm & Hc)%list_elem_of_omap Hu.
  apply (replace_g_throw_None sheet_at _ xml m); [done|].
  unfold sheet_callback, replace_first_throw.
  destruct (search name_at m) as [[[b n] a]|]; [|done].
  injection Hc as <-. unfold name_callback.
  by rewrite with_translation_undefined.
Qed.
End Candidates.

Lemma parts_candidates (tagName : str) (l : Package) (path xml c : str) :
  (path, xml) ∈ l -> c ∈ tag_candidates tagName xml ->
  c ∈ List.concat (List.map (fun e : str * str => tag_candidates tagName e.2) l).
Proof.
  intros Hin Hc. apply list_elem_of_In, in_concat.
  exists (tag_candidates tagName xml). split; [|by apply list_elem_of_In].
  apply (in_map (fun e : str * str => tag_candidates tagName e.2) _ (path, xml)).
  by apply list_elem_of_In.
Qed.

Lemma candidates_elem (z : Package) (c : str) :
  c ∈ candidates z <->
  (exists xml, zfile sharedStrings_path z = Some xml /\ c ∈ si_candidates xml)
  \/ (exists path xml, (path, xml) ∈ parts_matching worksheets_prefix z
                       /\ c ∈ tag_candidates tag_t xml)
  \/ (exists path xml, (path, xml) ∈ parts_matching drawings_prefix z
                       /\ c ∈ tag_candidates tag_at_ xml)
  \/ (exists path xml, (path, xml) ∈ parts_matching charts_prefix z
                       /\ c ∈ tag_candidates tag_at_ xml)
  \/ (exists xml, zfile workbook_path z = Some xml /\ c ∈ sheet_candidates xml).
Proof.
  assert (Hp : forall tagName l,
             c ∈ List.concat
                   (List.map (fun e : str * str => tag_candidates tagName e.2) l)
             <-> exists path xml, (path, xml) ∈ l /\ c ∈ tag_candidates tagName xml).
  { intros tagName l. split.
    - intros (cs & [[path xml] [<- He]]%in_map_iff & Hc)%list_elem_of_In%in_concat.
      exists path, xml. split; by apply list_elem_of_In.
    - intros (path & xml & He & Hc). by eapply parts_candidates. }
  unfold candidates. rewrite !elem_of_app, !Hp. split.
  - intros [H|[H|[H|[H|H]]]]; auto.
    + left. destruct (zfile sharedStrings_path z) as [xml|]; [by exists xml|].
      by apply elem_of_nil in H.
    + do 4 right. destruct (zfile workbook_path z) as [xml|]; [by exists xml|].
      by apply elem_of_nil in H.
  - intros [(xml & -> & H)|[H|[H|[H|(xml & -> & H)]]]]; auto 6.
Qed.

Lemma rewrite_tasks_unknown (tm : gmap str (option str)) (z : Package) :
  (forall c, c ∈ candidates z -> tm !! c = None) ->
  Forall (fun t : task => t.2 t.1.2 = Some t.1.2) (rewrite_tasks tm z).
Proof.
  intros H. unfold rewrite_tasks. repeat apply Forall_app_2.
  - destruct (zfile sharedStrings_path z) as [xml|] eqn:E; constructor; [|constructor].
    simpl. apply si_callback_unknown. intros c Hc. apply H, candidates_elem.
    left. by exists xml.
  - apply Forall_forall. intros t [[path xml] [<- He]]%list_elem_of_In%in_map_iff.
    simpl. apply tag_callback_unknown. intros c Hc. apply H, candidates_elem.
    right; left. exists path, xml. split; [by apply list_elem_of_In|done].
  - apply Forall_forall. intros t [[path xml] [<- He]]%list_elem_of_In%in_map_iff.
    simpl. apply tag_callback_unknown. intros c Hc. apply H, candidates_elem.
    right; right; left. exists path, xml. split; [by apply list_elem_of_In|done].
  - apply Forall_forall. intros t [[path xml] [<- He]]%list_elem_of_In%in_map_iff.
    simpl. apply tag_callback_unknown. intros c Hc. apply H, candidates_elem.
    do 3 right; left. exists path, xml. split; [by apply list_elem_of_In|done].
  - destruct (zfile workbook_path z) as [xml|] eqn:E; constructor; [|constructor].
    simpl. apply sheet_callback_unknown. intros c Hc. apply H, candidates_elem.
    do 4 right. by exists xml.
Qed.

Lemma rewrite_tasks_undefined (tm : gmap str (option str)) (z : Package)
    (c : str) :
  c ∈ candidates z -> tm !! c = Some None ->
  Exists (fun t : task => t.2 t.1.2 = None) (rewrite_tasks tm z).
Proof.
  intros Hc Hu. unfold rewrite_tasks.
  assert (Hp : forall prefix tagName path xml,
             (path, xml) ∈ parts_matching prefix z ->
             c ∈ tag_candidates tagName xml ->
             Exists (fun t : task => t.2 t.1.2 = None)
               (List.map (fun p : str * str =>
                            (p.1, p.2, fun xml => replaceTagContent tm xml tagName))
                  (parts_matching prefix z))).
  { intros prefix tagName path xml He Hx. apply Exists_exists.
    exists (path, xml, fun xml => replaceTagContent tm xml tagName). split.
    - apply list_elem_of_In.
      apply (in_map (fun p : str * str =>
                       (p.1, p.2, fun xml => replaceTagContent tm xml tagName))
               _ (path, xml)).
      by apply list_elem_of_In.
    - simpl. by eapply tag_callback_undefined. }
  apply candidates_elem in Hc
    as [(xml & E & H)|[(path & xml & He & H)|[(path & xml & He & H)
       |[(path & xml & He & H)|(xml & E & H)]]]].
  - rewrite E. apply Exists_app. left. constructor. simpl.
    by eapply si_callback_undefined.
  - apply Exists_app. right. apply Exists_app. left. by eapply Hp.
  - do 2 (apply Exists_app; right). apply Exists_app. left. by eapply Hp.
  - do 3 (apply Exists_app; right). apply Exists_app. left. by eapply Hp.
  - do 4 (apply Exists_app; right). rewrite E. constructor. simpl.
    by eapply sheet_callback_undefined.
Qed.

Lemma getDownloadBuffer_unknown (p : Processor) (z : Package) :
  zip p = Some z ->
  (forall c, c ∈ candidates z -> translationMap p !! c = None) ->
  getDownloadBuffer p = (p, Ok z).
Proof.
  intros Hz H. unfold getDownloadBuffer. rewrite Hz.
  rewrite (run_tasks_unchanged _ z (rewrite_tasks_unknown _ z H)).
  destruct p. simpl in *. by subst.
Qed.

Lemma getDownloadBuffer_undefined (p : Processor) (z : Package) (c : str) :
  zip p = Some z -> c ∈ candidates z -> translationMap p !! c = Some None ->
  (getDownloadBuffer p).2 = Throw TypeError.
Proof.
  intros Hz Hc Hu. unfold getDownloadBuffer. rewrite Hz.
  pose proof (run_tasks_throws _ z (rewrite_tasks_undefined _ z c Hc Hu)) as H.
  destruct (run_tasks _ z) as [z' failure]. simpl in *. by subst.
Qed.

(** X10.  Rehydration with a map that has none of the candidate texts of
    the archive among its keys, and so with the empty map, changes
    nothing: no part is written, the archive comes back as it is and the
    processor is as before. *)
Theorem rehydration_without_known_text (p : Processor) (z : Package) :
  zip p = Some z ->
  (forall c, c ∈ candidates z -> translationMap p !! c = None) ->
  getDownloadBuffer p = (p, Ok z)
  /\ getDownloadBuffer {| zip := Some z; uniqueStrings := uniqueStrings p;
                          translationMap := ∅ |}
     = ({| zip := Some z; uniqueStrings := uniqueStrings p;
           translationMap := ∅ |}, Ok z).
Proof.
  intros Hz H. split; [by apply getDownloadBuffer_unknown|].
  apply getDownloadBuffer_unknown; [done|]. intros c _. apply lookup_empty.
Qed.

(** X11.  Rehydration throws as soon as one candidate text of the
    archive is a key of the map whose value is [undefined]; without an
    archive it throws the error that says so; and it throws nothing
    else, the type error only when a value of the map is
    [undefined]. *)
Theorem rehydration_throws (p : Processor) :
  (forall z c,
     zip p = Some z -> c ∈ candidates z ->
     translationMap p !! c = Some None ->
     (getDownloadBuffer p).2 = Throw TypeError)
  /\ (zip p = None -> getDownloadBuffer p = (p, Throw NoFileLoaded))
  /\ (forall e, (getDownloadBuffer p).2 = Throw e ->
        (e = NoFileLoaded /\ zip p = None)
        \/ (e = TypeError /\ ~ all_defined (translationMap p))).
Proof.
  split; [|split].
  - intros z c. apply getDownloadBuffer_undefined.
  - intros Hz. unfold getDownloadBuffer. by rewrite Hz.
  - intros e He. destruct (zip p) as [z|] eqn:Hz.
    + right. unfold getDownloadBuffer in He. rewrite Hz in He.
      destruct (run_tasks _ z) as [z' [x|]] eqn:Hr; simpl in He; [|done].
      injection He as <-.
      assert (Hx : x = TypeError).
      { eapply (run_tasks_failure _ z). by rewrite Hr. }
      split; [done|]. intros Hd.
      pose proof (run_tasks_total _ z (rewrite_tasks_total _ z Hd)) as Ht.
      rewrite Hr in Ht. done.
    + left. unfold getDownloadBuffer in He. rewrite Hz in He.
      by injection He as <-.
Qed.

(** ** Reading a rewritten span again *)

Lemma span_app_stop (f : N -> bool) (a : str) (g : N) (x : str) :
  Forall (fun c => f c = true) a -> f g = false ->
  span f (a ++ g :: x) = (a, g :: x).
Proof.
  intros Ha Hg. induction Ha as [|c a Hc _ IH]; simpl.
  - by rewrite Hg.
  - by rewrite Hc, IH.
Qed.

Lemma open_tag_at_again (tagName s openTag rest x : str) :
  open_tag_at tagName s = Some (openTag, rest) ->
  open_tag_at tagName (openTag ++ x) = Some (openTag, x).
Proof.
  unfold open_tag_at.
  destruct (strip_prefix (ch_lt :: tagName) s) as [[|c r]|] eqn:E; try done.
  destruct (N.eqb_spec c ch_gt) as [->|Hc].
  - intros [= <- <-].
    replace ((ch_lt :: tagName ++ [ch_gt]) ++ x)
      with ((ch_lt :: tagName) ++ ch_gt :: x) by (by list_norm).
    rewrite strip_prefix_app. by rewrite N.eqb_refl.
  - destruct (is_space c) eqn:Hs; [|done].
    destruct (span not_gt r) as [attrs [|g r']] eqn:Hsp; [done|].
    intros [= <- <-].
    replace ((ch_lt :: tagName ++ c :: attrs ++ [g]) ++ x)
      with ((ch_lt :: tagName) ++ c :: (attrs ++ g :: x)) by (by list_norm).
    rewrite strip_prefix_app.
    destruct (N.eqb_spec c ch_gt); [done|]. rewrite Hs.
    rewrite (span_app_stop not_gt attrs g x);
      [done|by eapply span_Forall|by eapply span_stop].
Qed.

Lemma find_sub_app_fresh (a : N) (q e t : str) :
  Forall (fun x => x <> a) e ->
  find_sub (a :: q) t = None -> find_sub (a :: q) (e ++ t) = None.
Proof.
  intros He Ht. induction He as [|c e Hc _ IH]; [done|].
  simpl app. rewrite find_sub_unfold, strip_prefix_ne by done.
  by rewrite IH.
Qed.

Lemma escapeXml_nil (s : str) : escapeXml s = [] <-> s = [].
Proof.
  split; [|by intros ->]. destruct s as [|c s]; [done|].
  unfold escapeXml. simpl. intros H%app_eq_nil. destruct H as [H _].
  by apply ent_nonempty in H.
Qed.

Lemma escapeXml_no_quot (s : str) :
  Forall (fun c => not_quot c = true) (escapeXml s).
Proof.
  unfold escapeXml. induction s as [|c s IH]; [constructor|].
  simpl. apply Forall_app_2; [|done].
  eapply Forall_impl; [apply escape_unit_safe|].
  intros x (_ & _ & _ & Hq). unfold not_quot. apply negb_true_iff.
  by apply N.eqb_neq.
Qed.

(** X12.  A span that rehydration wrote is read again by the rule that
    matched it, whatever the translation holds and whatever follows: the
    element with its opening tag and the escaped translation as content,
    the string item with one text run.  The name of a sheet is read
    again with the escaped sanitized translation as value, unless that
    one is empty: the attribute written then is not read as a name. *)
Theorem rewritten_span_read_back (translated x : str) :
  (forall tagName s m rest,
     Forall (fun c => c <> ch_lt) tagName ->
     tag_at tagName s = Some (m, rest) ->
     tag_at tagName (m.1 ++ escapeXml translated ++ close_tag tagName ++ x)
     = Some ((m.1, escapeXml translated), x))
  /\ si_at (si_open ++ lit "<t>" ++ escapeXml translated ++ lit "</t>"
            ++ si_close ++ x)
     = Some (lit "<t>" ++ escapeXml translated ++ lit "</t>", x)
  /\ si_text (lit "<t>" ++ escapeXml translated ++ lit "</t>")
     = escapeXml translated
  /\ name_at (name_open ++ escapeXml (sanitize_sheet_name translated)
              ++ [ch_quot] ++ x)
     = match sanitize_sheet_name translated with
       | [] => None
       | _ :: _ => Some (escapeXml (sanitize_sheet_name translated), x)
       end.
Proof.
  split; [|split; [|split]].
  - intros tagName s [openTag inner] rest Hn Hm. simpl.
    unfold tag_at in *.
    destruct (open_tag_at tagName s) as [[o r]|] eqn:Ho; [|done].
    destruct (find_sub (close_tag tagName) r) as [[i r']|]; [|done].
    injection Hm as <- <- <-.
    rewrite (open_tag_at_again _ _ _ _ _ Ho).
    unfold close_tag.
    change (escapeXml translated ++ ch_lt :: 47%N :: (tagName ++ [ch_gt]) ++ x)
      with (escapeXml translated ++ (ch_lt :: 47%N :: tagName ++ [ch_gt]) ++ x).
    rewrite (find_sub_first ch_lt (47%N :: tagName ++ [ch_gt])
               (escapeXml translated) x); [done| |].
    + constructor; [done|]. apply Forall_app_2; [done|by repeat constructor].
    + apply find_sub_fresh, escapeXml_no_lt.
  - unfold si_at. rewrite strip_prefix_app.
    replace (lit "<t>" ++ escapeXml translated ++ lit "</t>" ++ si_close ++ x)
      with ((lit "<t>" ++ escapeXml translated ++ lit "</t>") ++ si_close ++ x)
      by (by list_norm).
    change si_close with (ch_lt :: lit "/si>").
    rewrite find_sub_first; [done|by repeat constructor|].
    change (lit "<t>") with [ch_lt; 116%N; ch_gt].
    change (lit "/si>") with (47%N :: lit "si>").
    cbn [app]. rewrite find_sub_unfold, strip_prefix_same.
    rewrite strip_prefix_ne by done.
    change (116%N :: ch_gt :: ?t) with ([116%N; ch_gt] ++ t).
    rewrite (find_sub_app_fresh ch_lt _ [116%N; ch_gt]);
      [done|by repeat constructor|].
    apply find_sub_app_fresh; [apply escapeXml_no_lt|by vm_compute].
  - apply si_text_single, escapeXml_no_lt.
  - unfold name_at. rewrite strip_prefix_app.
    change ([ch_quot] ++ x) with (ch_quot :: x).
    rewrite (span_app_stop not_quot (escapeXml (sanitize_sheet_name translated))
               ch_quot x); [|apply escapeXml_no_quot|done].
    destruct (sanitize_sheet_name translated) as [|c n] eqn:E; [done|].
    destruct (escapeXml (c :: n)) as [|c' e] eqn:E'; [|done].
    apply (proj1 (escapeXml_nil _)) in E'. discriminate.
Qed.

(** ** The trace of the loop over the batches *)

Section TraceFacts.
Variable translateBatch : nat -> list str -> outcome exn (list str).
Variable allStrings : list str.
Variable total : nat.

#[local] Abbreviation loop' := (batch_loop translateBatch allStrings total).

Lemma batch_loop_trace (remaining i : nat) (tm : gmap str (option str)) :
  i + remaining = total -> 0 < remaining ->
  exists k,
    k < remaining
    /\ (loop' remaining i tm).1.2
       = flat_map (fun j => round allStrings total j ++ [Sleep 10000%N])
           (seq i k)
         ++ round allStrings total (i + k)
    /\ (forall j, i <= j < i + k ->
          exists out, translateBatch j (chunk_of allStrings j) = Ok out)
    /\ match (loop' remaining i tm).2 with
       | Ok _ =>
           k = remaining - 1
           /\ exists out,
                translateBatch (i + k) (chunk_of allStrings (i + k)) = Ok out
       | Throw e =>
           translateBatch (i + k) (chunk_of allStrings (i + k)) = Throw e
       end.
Proof.
  revert i tm. induction remaining as [|n IH]; intros i tm Hsum Hpos; [lia|].
  cbn [batch_loop].
  change (slice (i * BATCH_SIZE) (i * BATCH_SIZE + BATCH_SIZE) allStrings)
    with (chunk_of allStrings i).
  destruct (translateBatch i (chunk_of allStrings i)) as [out|e] eqn:Hc.
  - destruct n as [|n].
    + exists 0. rewrite Nat.add_0_r. split; [lia|].
      destruct (Nat.ltb_spec i (total - 1)); [lia|].
      simpl. rewrite Hc. split; [done|]. split; [intros j ?; lia|].
      split; [done|by exists out].
    + destruct (IH (S i) (commit (chunk_of allStrings i) out tm))
        as (k & Hk & Hevs & Hok & Hres); [lia..|].
      destruct (loop' (S n) (S i) _) as [[tm' evs] r].
      simpl in Hevs, Hres.
      destruct (Nat.ltb_spec i (total - 1)); [|lia].
      exists (S k). split; [lia|]. split.
      * cbn [fst snd]. rewrite Hevs. cbn [seq flat_map round app].
        by rewrite (Nat.add_succ_r i k).
      * split.
        -- intros j Hj. destruct (decide (j = i)) as [->|]; [by exists out|].
           apply Hok. lia.
        -- cbn [snd]. rewrite (Nat.add_succ_r i k). destruct r as [[]|e].
           ++ destruct Hres as [-> Hres]. split; [lia|done].
           ++ done.
  - exists 0. rewrite Nat.add_0_r. split; [lia|]. split; [done|].
    split; [intros j ?; lia|]. done.
Qed.
End TraceFacts.

Lemma sleeps_of_app (a b : list event) :
  sleeps_of (a ++ b) = sleeps_of a ++ sleeps_of b.
Proof. apply omap_app. Qed.

Lemma progress_of_app (a b : list event) :
  progress_of (a ++ b) = progress_of a ++ progress_of b.
Proof. apply omap_app. Qed.

Lemma rounds_sleeps (allStrings : list str) (total i k : nat) :
  sleeps_of (flat_map (fun j => round allStrings total j ++ [Sleep 10000%N])
               (seq i k))
  = replicate k 10000%N.
Proof.
  revert i. induction k as [|k IH]; intros i; [done|].
  cbn [seq flat_map]. rewrite sleeps_of_app, IH. done.
Qed.

Lemma rounds_progress (allStrings : list str) (total i k : nat) :
  List.map currentChunk
    (progress_of (flat_map (fun j => round allStrings total j ++ [Sleep 10000%N])
                    (seq i k)))
  = seq (S i) k
  /\ Forall (fun pr => totalChunks pr = total /\ progress_status pr = translating)
       (progress_of
          (flat_map (fun j => round allStrings total j ++ [Sleep 10000%N])
             (seq i k))).
Proof.
  revert i. induction k as [|k IH]; intros i; [by split; [|constructor]|].
  cbn [seq flat_map]. rewrite progress_of_app.
  destruct (IH (S i)) as [IH1 IH2]. split.
  - rewrite map_app, IH1. simpl. by rewrite Nat.add_1_r.
  - apply Forall_app_2; [|done]. by repeat constructor.
Qed.

(** X13.  The trace of the orchestration, whatever the collaborator does
    and as long as there is a string: the batches are announced and sent
    in order, a pause of ten seconds stands between two calls and
    nowhere else, and the run ends with the call of the last batch or
    with the first call that throws, whose exception it throws.  The
    progress states count from one, never beyond the number of batches.
    The archive and the unique strings are left as they are. *)
Theorem translation_trace
    (translateBatch : nat -> list str -> outcome exn (list str))
    (p : Processor) :
  let allStrings := uniqueStrings p in
  let total := ceil_div (length allStrings) BATCH_SIZE in
  let run := processTranslations translateBatch p in
  0 < total ->
  exists k,
    k < total
    /\ run.1.2
       = flat_map (fun j => round allStrings total j ++ [Sleep 10000%N])
           (seq 0 k)
         ++ round allStrings total k
    /\ succeeds_before translateBatch allStrings k
    /\ match run.2 with
       | Ok _ =>
           k = total - 1
           /\ exists out, translateBatch k (chunk_of allStrings k) = Ok out
       | Throw e => translateBatch k (chunk_of allStrings k) = Throw e
       end
    /\ sleeps_of run.1.2 = replicate k 10000%N
    /\ List.map currentChunk (progress_of run.1.2) = seq 1 (S k)
    /\ Forall (fun pr => 1 <= currentChunk pr <= totalChunks pr
                         /\ progress_status pr = translating)
         (progress_of run.1.2)
    /\ zip run.1.1 = zip p
    /\ uniqueStrings run.1.1 = uniqueStrings p.
Proof.
  intros allStrings total run Hpos.
  destruct (batch_loop_trace translateBatch allStrings total total 0
              (translationMap p)) as (k & Hk & Hevs & Hok & Hres); [lia..|].
  assert (Hrun : run = ((let '(tm, evs, r) :=
                           batch_loop translateBatch allStrings total total 0
                             (translationMap p) in
                         ({| zip := zip p; uniqueStrings := uniqueStrings p;
                             translationMap := tm |}, evs, r)))).
  { subst run. unfold processTranslations. fold allStrings. fold total.
    destruct (Nat.eqb_spec total 0); [lia|done]. }
  destruct (batch_loop translateBatch allStrings total total 0 (translationMap p))
    as [[tm evs] r].
  rewrite Hrun. cbn [fst snd] in *. subst evs.
  assert (Hmap : List.map currentChunk
                   (progress_of
                      (flat_map (fun j => round allStrings total j ++ [Sleep 10000%N])
                         (seq 0 k) ++ round allStrings total k))
                 = seq 1 (S k)).
  { rewrite progress_of_app, map_app.
    rewrite (proj1 (rounds_progress allStrings total 0 k)).
    rewrite seq_S. simpl. by rewrite Nat.add_1_r. }
  exists k. split; [done|]. split; [done|].
  split; [intros j Hj; apply Hok; lia|]. split; [done|].
  split.
  { rewrite sleeps_of_app, rounds_sleeps. apply app_nil_r. }
  split; [done|]. split; [|done].
  apply Forall_forall. intros pr Hpr.
  assert (Hc : currentChunk pr ∈ seq 1 (S k)).
  { rewrite <- Hmap. apply list_elem_of_In, in_map. by apply list_elem_of_In. }
  apply list_elem_of_In, in_seq in Hc.
  rewrite progress_of_app in Hpr. apply elem_of_app in Hpr as [Hpr|Hpr].
  - pose proof (proj2 (rounds_progress allStrings total 0 k)) as HF.
    rewrite Forall_forall in HF. destruct (HF _ Hpr) as [-> ->].
    split; [lia|done].
  - apply list_elem_of_singleton in Hpr as ->. simpl. split; [lia|done].
Qed.

(** ** The run of [processFile] *)

Lemma extract_package_elem (z : Package) (s : str) :
  s ∈ extract_package z <-> s ∈ candidates z /\ hasJapanese s = true.
Proof.
  unfold extract_package, candidates. rewrite !elem_of_app.
  assert (Hss : forall u, s ∈ match zfile workbook_path z with
                              | Some xml => extractFromSheetNames xml u
                              | None => u
                              end
                          <-> s ∈ u \/ (s ∈ match zfile workbook_path z with
                                             | Some xml => sheet_candidates xml
                                             | None => []
                                             end /\ hasJapanese s = true)).
  { intros u. destruct (zfile workbook_path z).
    - apply extractFromSheetNames_elem.
    - rewrite elem_of_nil. tauto. }
  rewrite Hss, !extract_parts_elem.
  assert (H1 : s ∈ match zfile sharedStrings_path z with
                   | Some xml => extractFromSharedStrings xml []
                   | None => []
                   end
               <-> s ∈ match zfile sharedStrings_path z with
                       | Some xml => si_candidates xml
                       | None => []
                       end /\ hasJapanese s = true).
  { destruct (zfile sharedStrings_path z).
    - rewrite extractFromSharedStrings_elem, elem_of_nil. tauto.
    - rewrite elem_of_nil. tauto. }
  rewrite H1. clear. generalize (hasJapanese s = true). intros J.
  repeat match goal with |- context [s ∈ ?l] => generalize (s ∈ l); intro end.
  tauto.
Qed.

Lemma commit_from_all_defined (index : nat) (chunk tr : list str)
    (tm : gmap str (option str)) :
  index + length chunk <= length tr ->
  all_defined tm -> all_defined (commit_from index chunk tr tm).
Proof.
  revert index tm. induction chunk as [|original chunk IH]; intros index tm Hl Hd;
    [done|].
  simpl in *. apply IH; [lia|]. intros k v.
  destruct (decide (k = original)) as [->|Hne].
  - rewrite lookup_insert_eq. intros [= <-]. apply lookup_lt_is_Some. lia.
  - rewrite lookup_insert_ne by done. apply Hd.
Qed.

Section RunFacts.
Variable translateBatch : nat -> list str -> outcome exn (list str).
Hypothesis Hlen : length_preserving translateBatch.

Lemma batch_loop_all_defined (allStrings : list str) (total remaining i : nat)
    (tm : gmap str (option str)) :
  all_defined tm ->
  all_defined (batch_loop translateBatch allStrings total remaining i tm).1.1.
Proof.
  revert i tm. induction remaining as [|n IH]; intros i tm Hd; [done|].
  cbn [batch_loop].
  destruct (translateBatch i _) as [out|e] eqn:Hc; [|done].
  specialize (IH (S i) (commit (slice (i * BATCH_SIZE) (i * BATCH_SIZE + BATCH_SIZE)
                                  allStrings) out tm)).
  destruct (batch_loop translateBatch allStrings total n (S i) _) as [[tm' evs] r].
  simpl in *. apply IH. apply commit_from_all_defined; [|done].
  rewrite (Hlen _ _ _ Hc). simpl. lia.
Qed.

Lemma processTranslations_state (p : Processor) :
  zip (processTranslations translateBatch p).1.1 = zip p
  /\ uniqueStrings (processTranslations translateBatch p).1.1 = uniqueStrings p
  /\ (all_defined (translationMap p) ->
      all_defined (translationMap (processTranslations translateBatch p).1.1)).
Proof.
  unfold processTranslations.
  destruct (Nat.eqb _ 0); [done|].
  pose proof (batch_loop_all_defined (uniqueStrings p)
                (ceil_div (length (uniqueStrings p)) BATCH_SIZE)
                (ceil_div (length (uniqueStrings p)) BATCH_SIZE) 0
                (translationMap p)) as H.
  destruct (batch_loop _ _ _ _ _ _) as [[tm evs] r]. done.
Qed.
End RunFacts.

Lemma recover_offers (p : Processor) (z : Package) (before : list event)
    (e : exn) :
  zip p = Some z -> all_defined (translationMap p) ->
  exists z',
    recover p before e
    = {| saved := None; partialFile := Some z';
         trace := before ++ [failure_report e];
         processor := (getDownloadBuffer p).1 |}
    /\ getDownloadBuffer p = ((getDownloadBuffer p).1, Ok z')
    /\ zip (getDownloadBuffer p).1 = Some z'.
Proof.
  intros Hz Hd.
  destruct (getDownloadBuffer_frame p z Hz) as (z' & Hzip & _ & _ & _ & _ & Hok).
  specialize (Hok Hd). exists z'. unfold recover.
  destruct (getDownloadBuffer p) as [p' r]. simpl in *. by subst.
Qed.

Lemma all_defined_empty : all_defined ∅.
Proof. intros k v H. by rewrite lookup_empty in H. Qed.

(** X15.  A file that cannot be read as an archive: no call is made, the
    failure is reported, and the partial archive that is offered is the
    empty archive. *)
Theorem unreadable_archive
    (translateBatch : nat -> list str -> outcome exn (list str))
    (file : File) (e : exn) :
  archive file = Throw e ->
  processFile translateBatch file
  = {| saved := None;
       partialFile := Some [];
       trace := [note parsing (lit "Reading Excel file..."); failure_report e];
       processor := {| zip := Some []; uniqueStrings := [];
                       translationMap := ∅ |} |}.
Proof.
  intros He. unfold processFile, loadFile. rewrite He. unfold recover.
  cbn [uniqueStrings translationMap new_processor].
  rewrite (getDownloadBuffer_unknown
             {| zip := Some []; uniqueStrings := []; translationMap := ∅ |}
             [] eq_refl); [done|].
  intros c Hc. by apply elem_of_nil in Hc.
Qed.

(** X16.  An archive without any Japanese text: the collaborator is
    called once, for the name of the file, and the archive is saved as
    it was read. *)
Theorem no_japanese_text_saved_unchanged
    (translateBatch : nat -> list str -> outcome exn (list str))
    (file : File) (z : Package) :
  archive file = Ok z ->
  extract_package z = [] ->
  processFile translateBatch file
  = {| saved := Some z;
       partialFile := None;
       trace :=
         [note parsing (lit "Reading Excel file...");
          note parsing (lit "Extracting text (Cells & Text Boxes)...");
          note rebuilding (lit "No Japanese text found.");
          note translating (lit "Translating filename...");
          Call 0 [name file];
          note rebuilding (lit "Applying translations and preserving styles...");
          note complete (lit "Done! Download started.")];
       processor := {| zip := Some z; uniqueStrings := [];
                       translationMap := ∅ |} |}.
Proof.
  intros Hz He. unfold processFile, loadFile. rewrite Hz.
  unfold extractStrings. cbn [zip uniqueStrings translationMap new_processor].
  rewrite He. unfold processTranslations. cbn [uniqueStrings length].
  change (ceil_div 0 BATCH_SIZE) with 0. cbn [Nat.eqb].
  rewrite (getDownloadBuffer_unknown
             {| zip := Some z; uniqueStrings := []; translationMap := ∅ |}
             z eq_refl); [done|].
  intros c _. apply lookup_empty.
Qed.

Lemma processFile_abort
    (translateBatch : nat -> list str -> outcome exn (list str))
    (file : File) (z : Package) (k : nat) (e : exn) :
  archive file = Ok z ->
  k < ceil_div (length (extract_package z)) BATCH_SIZE ->
  succeeds_before translateBatch (extract_package z) k ->
  translateBatch k (chunk_of (extract_package z) k) = Throw e ->
  exists evs,
    processFile translateBatch file
    = recover {| zip := Some z; uniqueStrings := extract_package z;
                 translationMap :=
                   commits translateBatch (extract_package z) k ∅ |}
        ([note parsing (lit "Reading Excel file...")]
         ++ [note parsing (lit "Extracting text (Cells & Text Boxes)...")]
         ++ evs) e
    /\ calls_of evs = List.map (chunk_of (extract_package z)) (seq 0 (S k)).
Proof.
  intros Harch Hk Hs He.
  destruct (loop_abort translateBatch (extract_package z)
              (ceil_div (length (extract_package z)) BATCH_SIZE) ∅ _ k e Hk Hs He)
    as (evs & Hloop & Hcalls).
  exists evs. split; [|done].
  unfold processFile, loadFile. rewrite Harch.
  unfold extractStrings, processTranslations.
  cbn [zip uniqueStrings translationMap new_processor].
  destruct (Nat.eqb_spec (ceil_div (length (extract_package z)) BATCH_SIZE) 0)
    as [H0|_]; [lia|].
  rewrite Hloop. by rewrite <- app_assoc.
Qed.

Lemma processFile_translated
    (translateBatch : nat -> list str -> outcome exn (list str))
    (file : File) (z : Package) :
  archive file = Ok z ->
  succeeds_before translateBatch (extract_package z)
    (ceil_div (length (extract_package z)) BATCH_SIZE) ->
  exists evs,
    calls_of evs
    = List.map (chunk_of (extract_package z))
        (seq 0 (ceil_div (length (extract_package z)) BATCH_SIZE))
    /\ processFile translateBatch file
       = let p3 := {| zip := Some z; uniqueStrings := extract_package z;
                      translationMap :=
                        commits translateBatch (extract_package z)
                          (ceil_div (length (extract_package z)) BATCH_SIZE) ∅ |} in
         let ev3 :=
           (([note parsing (lit "Reading Excel file...")]
             ++ [note parsing (lit "Extracting text (Cells & Text Boxes)...")])
            ++ evs)
           ++ [note translating (lit "Translating filename...");
               Call (ceil_div (length (extract_package z)) BATCH_SIZE) [name file];
               note rebuilding
                 (lit "Applying translations and preserving styles...")] in
         match (getDownloadBuffer p3).2 with
         | Throw e => recover (getDownloadBuffer p3).1 ev3 e
         | Ok z' =>
             {| saved := Some z'; partialFile := None;
                trace := ev3 ++ [note complete (lit "Done! Download started.")];
                processor := (getDownloadBuffer p3).1 |}
         end.
Proof.
  intros Harch Hs.
  set (total := ceil_div (length (extract_package z)) BATCH_SIZE) in *.
  unfold processFile, loadFile. rewrite Harch.
  unfold extractStrings, processTranslations.
  cbn [zip uniqueStrings translationMap new_processor]. fold total.
  destruct (Nat.eqb_spec total 0) as [H0|Hne].
  - eexists. rewrite H0. split; [|cbn [commits]; cbn beta iota zeta;
      by destruct (getDownloadBuffer _) as [p4 [z'|e]]].
    done.
  - destruct (loop_commits translateBatch (extract_package z) total ∅ total Hs)
      as (evs & Hloop & Hcalls).
    exists evs. split; [done|]. rewrite Hloop. cbn beta iota zeta.
    by destruct (getDownloadBuffer _) as [p4 [z'|e]].
Qed.

(** ** The collaborator behind the orchestrator *)

Lemma gemini_length_preserving (api_key_present : bool)
    (JSON_parse : str -> parsed) (service : nat -> nat -> api_outcome) :
  length_preserving (gemini api_key_present JSON_parse service).
Proof.
  intros i texts out. unfold gemini, translateBatch.
  destruct api_key_present; [apply attempts_length|discriminate].
Qed.

Lemma processFile_abort_report
    (translateBatch : nat -> list str -> outcome exn (list str))
    (file : File) (z : Package) (k : nat) (e : exn) :
  length_preserving translateBatch ->
  archive file = Ok z ->
  k < ceil_div (length (extract_package z)) BATCH_SIZE ->
  succeeds_before translateBatch (extract_package z) k ->
  translateBatch k (chunk_of (extract_package z) k) = Throw e ->
  saved (processFile translateBatch file) = None
  /\ is_Some (partialFile (processFile translateBatch file))
  /\ last (trace (processFile translateBatch file)) = Some (failure_report e).
Proof.
  intros Hlen Harch Hk Hs He.
  destruct (processFile_abort translateBatch file z k e Harch Hk Hs He)
    as (evs & -> & _).
  destruct (recover_offers
              {| zip := Some z; uniqueStrings := extract_package z;
                 translationMap :=
                   commits translateBatch (extract_package z) k ∅ |} z
              ([note parsing (lit "Reading Excel file...")]
               ++ [note parsing (lit "Extracting text (Cells & Text Boxes)...")]
               ++ evs) e eq_refl) as (z' & -> & _).
  { apply commits_all_defined; [apply extract_package_NoDup|done|].
    intros i out _. apply Hlen. }
  cbn [saved partialFile trace]. split; [done|]. split; [by eexists|].
  by rewrite app_assoc, last_snoc.
Qed.

(** X18.  What the user is told when the service of [geminiService.ts]
    gives up on a batch, the batches before it having been answered.
    When the service reports the exhausted quota, the report is the one
    of the exceeded limit, which promises a partial download.  When it
    answers all six attempts by a rate limit, the report is the one of a
    processing error, with the message of the rate-limit error.  In both
    cases nothing is saved and the partial archive is offered. *)
Theorem failure_reports (JSON_parse : str -> parsed)
    (service : nat -> nat -> api_outcome) (file : File) (z : Package)
    (k : nat) :
  archive file = Ok z ->
  let translateBatch := gemini true JSON_parse service in
  let allStrings := extract_package z in
  k < ceil_div (length allStrings) BATCH_SIZE ->
  succeeds_before translateBatch allStrings k ->
  let run := processFile translateBatch file in
  (forall n e,
     retried (service k) n -> n <= maxRetries ->
     service k n = Rejected e -> isQuotaExhausted e = true ->
     saved run = None
     /\ is_Some (partialFile run)
     /\ last (trace run)
        = Some (Progress
                  {| progress_status := error; currentChunk := 0;
                     totalChunks := 0;
                     progress_message := Some (lit "API Limit Exceeded");
                     progress_error :=
                       Some (lit "You have exceeded the API daily quota. Don't worry, you can download the partial translation below.") |}))
  /\ (forall e,
        rejected_through (service k) maxRetries ->
        service k maxRetries = Rejected e -> isRateLimit e = true ->
        saved run = None
        /\ is_Some (partialFile run)
        /\ last (trace run)
           = Some (Progress
                     {| progress_status := error; currentChunk := 0;
                        totalChunks := 0;
                        progress_message := Some (lit "Processing Error");
                        progress_error :=
                          Some (lit "API Rate Limit Exceeded. Please try again later.") |})).
Proof.
  intros Harch translateBatch allStrings Hk Hs run.
  pose proof (gemini_length_preserving true JSON_parse service) as Hlen.
  split.
  - intros n e Hret Hn Hg Hq.
    assert (He : translateBatch k (chunk_of allStrings k) = Throw QuotaExceeded).
    { unfold translateBatch, gemini.
      destruct (translateBatch_at true JSON_parse (service k) (fun _ => 0%N) n
                  (chunk_of allStrings k) eq_refl Hret Hn) as [-> _].
      - intros e' He'. congruence.
      - rewrite Hg. simpl. by rewrite Hq. }
    apply (processFile_abort_report translateBatch file z k QuotaExceeded
             Hlen Harch Hk Hs He).
  - intros e Hrej Hg Hr.
    assert (He : translateBatch k (chunk_of allStrings k)
                 = Throw RateLimitExceeded).
    { unfold translateBatch, gemini.
      destruct (translateBatch_at true JSON_parse (service k) (fun _ => 0%N)
                  maxRetries (chunk_of allStrings k) eq_refl) as [-> _];
        [intros i Hi; apply Hrej; lia|done|done|].
      rewrite Hg. simpl. destruct (Hrej maxRetries) as (e' & He' & Hq & _); [done|].
      assert (e' = e) as -> by congruence. by rewrite Hq, Hr. }
    apply (processFile_abort_report translateBatch file z k RateLimitExceeded
             Hlen Harch Hk Hs He).
Qed.

(** ** Names *)

Lemma ends_with_app (p s : str) : ends_with p (s ++ p) = true.
Proof. unfold ends_with. by rewrite rev_app_distr, strip_prefix_app. Qed.

Lemma ends_with_Some (p s : str) :
  ends_with p s = true <-> exists b, s = b ++ p.
Proof.
  split; [|intros [b ->]; apply ends_with_app].
  unfold ends_with.
  destruct (strip_prefix (rev p) (rev s)) as [r|] eqn:E; [|done].
  intros _. apply strip_prefix_Some in E. exists (rev r).
  apply (f_equal (@rev N)) in E.
  by rewrite rev_app_distr, !rev_involutive in E.
Qed.

Lemma span_all (f : N -> bool) (s : str) :
  Forall (fun c => f c = true) s -> span f s = (s, []).
Proof.
  induction 1 as [|c s Hc _ IH]; [done|]. simpl. by rewrite Hc, IH.
Qed.

Lemma trim_space (s : str) :
  Forall (fun c => is_space c = true) s -> trim s = [].
Proof.
  intros H. unfold trim, trim_start. by rewrite (span_all is_space s H).
Qed.

Lemma search_ext (base ext : str) :
  ext <> [] -> forallb ext_unit ext = true ->
  search ext_at (base ++ ch_dot :: ext) = Some (base, tt, []).
Proof.
  intros Hne Hext. induction base as [|c base IH].
  - destruct ext as [|d r]; [done|]. cbn [app search ext_at].
    by rewrite N.eqb_refl, Hext.
  - cbn [app search]. rewrite IH.
    assert (Hno : forallb ext_unit (base ++ ch_dot :: ext) = false).
    { rewrite forallb_app. simpl. by rewrite andb_false_r. }
    unfold ext_at.
    destruct (base ++ ch_dot :: ext) as [|d r] eqn:E.
    { by destruct base. }
    by rewrite Hno, andb_false_r.
Qed.

Lemma strip_ext_ext (base ext : str) :
  ext <> [] -> forallb ext_unit ext = true ->
  strip_ext (base ++ ch_dot :: ext) = base.
Proof.
  intros Hne Hext. unfold strip_ext. rewrite search_ext by done.
  apply app_nil_r.
Qed.

(** X20.  The names of the downloads.  The picker accepts a file exactly
    when its name ends in [.xlsx]; for such a file the partial archive
    is named by the prefix and the name of the file, and in any case by
    a name that ends in [.xlsx].  The saved archive has the name of the
    file with its prefix when the name could not be translated, and
    otherwise a name that ends in [.xlsx], as it stands or in lower
    case: for a file the picker accepted the name of a download always
    ends in [.xlsx]. *)
Theorem download_names (toLowerCase : str -> str) (file_name : str)
    (answer : outcome exn (list str)) :
  let final := finalFileName toLowerCase file_name answer in
  (accepted (validateAndAccept file_name) = true
   <-> exists base, file_name = base ++ dot_xlsx)
  /\ (accepted (validateAndAccept file_name) = true ->
      partialName file_name = lit "partial_" ++ file_name)
  /\ ends_with dot_xlsx (partialName file_name) = true
  /\ (final = lit "translated_" ++ file_name
      \/ ends_with dot_xlsx final = true
      \/ ends_with dot_xlsx (toLowerCase final) = true)
  /\ (accepted (validateAndAccept file_name) = true ->
      ends_with dot_xlsx final = true
      \/ ends_with dot_xlsx (toLowerCase final) = true).
Proof.
  intros final.
  assert (Hacc : accepted (validateAndAccept file_name) = true
                 <-> exists base, file_name = base ++ dot_xlsx).
  { rewrite <- ends_with_Some. unfold validateAndAccept.
    by destruct (ends_with dot_xlsx file_name). }
  assert (Hfinal : final = lit "translated_" ++ file_name
                   \/ ends_with dot_xlsx final = true
                   \/ ends_with dot_xlsx (toLowerCase final) = true).
  { subst final. unfold finalFileName.
    destruct answer as [[|[|c t] rest]|e]; auto.
    destruct (ends_with dot_xlsx (toLowerCase (trim (c :: t)))) eqn:E; auto.
    right; left. destruct (negb _); apply ends_with_app. }
  split; [done|]. split; [|split; [|split; [done|]]].
  - intros [base ->]%Hacc. unfold partialName.
    change dot_xlsx with (ch_dot :: lit "xlsx") at 1.
    rewrite strip_ext_ext by done. reflexivity.
  - unfold partialName. rewrite app_assoc. apply ends_with_app.
  - intros [base Hb]%Hacc. destruct Hfinal as [->|H]; [|done].
    left. rewrite Hb, app_assoc. apply ends_with_app.
Qed.

(** X21.  How the translated name gets its extension.  The answer is
    trimmed.  A name without a dot gets [.xlsx] appended, so that a
    translation made of white space only gives the bare [.xlsx].  In a
    name with an extension that is not [.xlsx] in any case, the
    extension is replaced.  An answer without a first element, an empty
    one, and a call that threw leave the name of the file with its
    prefix. *)
Theorem translated_name_extension (toLowerCase : str -> str)
    (file_name translated : str) (rest : list str) :
  translated <> [] ->
  let final := finalFileName toLowerCase file_name (Ok (translated :: rest)) in
  (ends_with dot_xlsx (toLowerCase (trim translated)) = true ->
   final = trim translated)
  /\ (ends_with dot_xlsx (toLowerCase (trim translated)) = false ->
      includes [ch_dot] (trim translated) = false ->
      final = trim translated ++ dot_xlsx)
  /\ (forall base ext,
        ends_with dot_xlsx (toLowerCase (trim translated)) = false ->
        trim translated = base ++ ch_dot :: ext ->
        ext <> [] -> forallb ext_unit ext = true ->
        final = base ++ dot_xlsx)
  /\ (Forall (fun c => is_space c = true) translated ->
      ends_with dot_xlsx (toLowerCase []) = false ->
      final = dot_xlsx)
  /\ (forall e,
        finalFileName toLowerCase file_name (Throw e)
        = lit "translated_" ++ file_name)
  /\ finalFileName toLowerCase file_name (Ok []) = lit "translated_" ++ file_name
  /\ finalFileName toLowerCase file_name (Ok ([] :: rest))
     = lit "translated_" ++ file_name.
Proof.
  intros Hne final. subst final. unfold finalFileName.
  destruct translated as [|c t]; [done|].
  split; [by intros ->|]. split; [by intros -> ->|].
  split; [|split; [|done]].
  - intros base ext -> Hb Hext1 Hext2. rewrite Hb.
    assert (Hinc : includes [ch_dot] (base ++ ch_dot :: ext) = true).
    { unfold includes. change (ch_dot :: ext) with ([ch_dot] ++ ext).
      by destruct (find_sub_occurs [ch_dot] base ext) as [? ->]. }
    rewrite Hinc. simpl. by rewrite strip_ext_ext.
  - intros Hsp. rewrite (trim_space _ Hsp). by intros ->.
Qed.

(** ** Instances *)

Lemma retry_schedule_witness :
  (foldr N.add 0
     (delays_of
        (translateBatch_io true demo_parse demo_service (fun _ => 500%N)
           [lit "a"; lit "b"]).1) < 160000)%N.
Proof.
  refine (proj2 (proj2 (proj2 (proj2
            (retry_schedule true demo_parse demo_service (fun _ => 500%N)
               [lit "a"; lit "b"] _))))).
  intros a. reflexivity.
Defined.

Lemma quota_exhausted_not_retried_witness :
  translateBatch true no_parse quota_service [lit "a"] = Throw QuotaExceeded
  /\ (translateBatch_io true no_parse quota_service (fun _ => 0%N) [lit "a"]).1
     = schedule (fun _ => 0%N) 1
  /\ requests_of
       (translateBatch_io true no_parse quota_service (fun _ => 0%N) [lit "a"]).1
     = seq 0 2.
Proof.
  apply (quota_exhausted_not_retried true no_parse quota_service (fun _ => 0%N)
           1 quota_error [lit "a"]).
  - reflexivity.
  - intros i Hi. assert (i = 0) as -> by lia.
    exists rate_error. split; [reflexivity|]. split; reflexivity.
  - unfold maxRetries. lia.
  - reflexivity.
  - reflexivity.
Defined.

Lemma retries_exhausted_witness :
  translateBatch true no_parse busy_service [lit "a"] = Throw RateLimitExceeded.
Proof.
  refine (proj1 (retries_exhausted true no_parse busy_service (fun _ => 0%N)
                   rate_error [lit "a"] _ _ _)).
  - reflexivity.
  - intros i Hi. exists rate_error. split; [reflexivity|]. split; reflexivity.
  - reflexivity.
Defined.

Lemma translateBatch_throws_witness :
  translateBatch true no_parse cyclic_service [lit "a"]
  = Throw (CatchTypeError cyclic_message)
  /\ exists n, n <= maxRetries /\ retried cyclic_service n
               /\ cyclic_service n = Unserializable cyclic_message.
Proof.
  split; [reflexivity|].
  refine (proj1 (proj2 (proj2 (proj2 (proj2 (proj2
            (translateBatch_throws true no_parse cyclic_service [lit "a"]
               (CatchTypeError cyclic_message) _))))))
            cyclic_message eq_refl).
  reflexivity.
Defined.

Lemma response_by_id_witness :
  exists out,
    translateBatch true demo_parse demo_service [lit "a"; lit "b"] = Ok out
    /\ out !! 1 = Some (lit "B").
Proof.
  destruct (response_by_id true demo_parse demo_service (fun _ => 0%N) 1
              (lit "[...]")
              [Some {| id := Some (lit "1"); translatedText := lit "B" |}]
              [lit "a"; lit "b"]) as (out & Hout & Hid & _).
  - reflexivity.
  - intros i Hi. assert (i = 0) as -> by lia.
    eexists. split; [reflexivity|]. split; reflexivity.
  - unfold maxRetries. lia.
  - reflexivity.
  - discriminate.
  - reflexivity.
  - exists out. split; [exact Hout|].
    apply (Hid (NoDup_singleton _) 1 (lit "b")
             {| id := Some (lit "1"); translatedText := lit "B" |}).
    + reflexivity.
    + apply list_elem_of_singleton. reflexivity.
    + reflexivity.
Defined.

Lemma extraction_ignores_other_parts_witness :
  extract_package english_archive
  = extract_package [(lit "xl/worksheets/sheet1.xml",
                      lit "<c><is><t>World</t></is></c>")].
Proof.
  refine (proj1 (extraction_ignores_other_parts
                   [(lit "xl/worksheets/sheet1.xml",
                     lit "<c><is><t>World</t></is></c>")] []
                   (lit "xl/styles.xml") (lit "<styleSheet/>") _)).
  reflexivity.
Defined.

Lemma rehydration_without_known_text_witness :
  getDownloadBuffer {| zip := Some english_archive; uniqueStrings := [];
                       translationMap := ∅ |}
  = ({| zip := Some english_archive; uniqueStrings := [];
        translationMap := ∅ |}, Ok english_archive).
Proof.
  refine (proj1 (rehydration_without_known_text
                   {| zip := Some english_archive; uniqueStrings := [];
                      translationMap := ∅ |} english_archive _ _)).
  - reflexivity.
  - intros c _. apply lookup_empty.
Defined.

Lemma translation_trace_witness :
  exists k,
    k < 2
    /\ sleeps_of (processTranslations demo_translate demo_processor).1.2
       = replicate k 10000%N.
Proof.
  destruct (translation_trace demo_translate demo_processor)
    as (k & Hk & _ & _ & _ & Hsleeps & _).
  - vm_compute. lia.
  - exists k. split; [|exact Hsleeps].
    revert Hk. generalize k. vm_compute. intros; lia.
Defined.

Lemma unreadable_archive_witness :
  partialFile (processFile demo_translate broken_file) = Some [].
Proof.
  rewrite (unreadable_archive demo_translate broken_file
             (ArchiveLoadError (lit "Corrupted zip")) eq_refl).
  reflexivity.
Defined.

Lemma no_japanese_text_saved_unchanged_witness :
  saved (processFile demo_translate english_file) = Some english_archive.
Proof.
  rewrite (no_japanese_text_saved_unchanged demo_translate english_file
             english_archive eq_refl); reflexivity.
Defined.

Lemma failure_reports_witness :
  saved (processFile (gemini true no_parse flaky_service) demo_file) = None.
Proof.
  refine (proj1 (proj1 (failure_reports no_parse flaky_service demo_file
                          demo_archive 1 eq_refl _ _)
                   0 quota_error _ _ _ _)).
  - vm_compute. lia.
  - intros i Hi. assert (i = 0) as -> by lia. by eexists.
  - intros i Hi. lia.
  - unfold maxRetries. lia.
  - reflexivity.
  - reflexivity.
Defined.

Lemma translated_name_extension_witness :
  finalFileName (fun s => s) (lit "book.xlsx") (Ok [lit " Report.txt "])
  = lit "Report.xlsx".
Proof.
  refine (proj1 (proj2 (proj2
            (translated_name_extension (fun s => s) (lit "book.xlsx")
               (lit " Report.txt ") [] _)))
            (lit "Report") (lit "txt") _ _ _ _).
  - discriminate.
  - reflexivity.
  - reflexivity.
  - discriminate.
  - reflexivity.
Defined.

(** ** String items with several runs *)

Lemma strip_prefix_boundary (a : N) (q s t : str) :
  Forall (fun x => x <> a) q -> s <> [] ->
  strip_prefix (a :: q) s = None ->
  strip_prefix (a :: q) (s ++ a :: t) = None.
Proof.
  intros Hq Hs H. destruct s as [|c s]; [done|].
  cbn [app]. rewrite strip_prefix_cons in *.
  destruct (a =? c)%N; [|done]. by apply strip_prefix_app_fresh.
Qed.

Section SkipFacts.
Context {M : Type} (match_at : str -> option (M * str)).
Variable a : N.
Variable q : str.
Hypothesis Hprog : progresses match_at.
Hypothesis Hq : Forall (fun x => x <> a) q.
Hypothesis Hlit : forall s, strip_prefix (a :: q) s = None -> match_at s = None.

(** A text without occurrence of the literal an expression starts
    with holds no match, also when an occurrence of the first
    character follows. *)
Lemma scan_skip (s t : str) :
  find_sub (a :: q) s = None ->
  scan match_at (s ++ a :: t) = List.map Lit s ++ scan match_at (a :: t).
Proof.
  induction s as [|c s IH]; [done|].
  intros [Hc Hs]%find_sub_cons_None.
  cbn [app]. rewrite (scan_unfold _ Hprog).
  change (c :: s ++ a :: t) with ((c :: s) ++ a :: t).
  rewrite Hlit by (by apply strip_prefix_boundary).
  cbn [app List.map]. by rewrite IH.
Qed.

Lemma scan_lit_skip (w x : str) :
  w <> [] ->
  (forall y, match_at (w ++ y) = None) ->
  Forall (fun c => c <> a) (tail w) ->
  scan match_at (w ++ x) = List.map Lit w ++ scan match_at x.
Proof.
  intros Hw Hm Ht. destruct w as [|c w]; [done|].
  cbn [app]. rewrite (scan_unfold _ Hprog).
  change (c :: w ++ x) with ((c :: w) ++ x). rewrite Hm.
  cbn [app List.map]. f_equal. simpl in Ht.
  apply (scan_fresh _ a); [done| |done].
  intros c' r Hc'. apply Hlit. by apply strip_prefix_ne.
Qed.
End SkipFacts.

Lemma lits_text {M : Type} (cb : M -> str) (s : str) :
  List.concat
    (List.map (fun x => match x with Lit c => [c] | Hit m => cb m end)
       (List.map Lit s)) = s.
Proof. induction s as [|c s IH]; [done|]. simpl. by rewrite IH. Qed.

Lemma hits_lits {M : Type} (s : str) : hits (List.map (Lit (M:=M)) s) = [].
Proof. by induction s. Qed.

Lemma hits_app {M : Type} (l1 l2 : list (seg (M:=M))) :
  hits (l1 ++ l2) = hits l1 ++ hits l2.
Proof. apply omap_app. Qed.

Lemma rph_at_lit (s : str) :
  strip_prefix rph_open s = None -> rph_at s = None.
Proof. intros H. unfold rph_at. by rewrite H. Qed.

Lemma tag_t_lit (s : str) :
  strip_prefix (lit "<t") s = None -> tag_at tag_t s = None.
Proof.
  intros H. unfold tag_at, open_tag_at.
  change (ch_lt :: tag_t) with (lit "<t"). by rewrite H.
Qed.

Lemma t_open_at (attrs x : str) :
  match attrs with [] => True | c :: _ => is_space c = true end ->
  Forall (fun c => c <> ch_lt /\ c <> ch_gt) attrs ->
  open_tag_at tag_t (t_open attrs ++ x) = Some (t_open attrs, x).
Proof.
  intros Hsp Ha. unfold open_tag_at, t_open.
  change (ch_lt :: tag_t) with (lit "<t").
  rewrite <- !app_assoc, strip_prefix_app.
  destruct attrs as [|c attrs].
  - done.
  - apply Forall_cons in Ha as [[_ Hc] Ha]. cbn [app].
    destruct (N.eqb_spec c ch_gt); [done|]. rewrite Hsp.
    rewrite (span_app_stop not_gt attrs ch_gt x); [done| |done].
    eapply Forall_impl; [exact Ha|]. intros y [_ Hy]. unfold not_gt.
    apply negb_true_iff. by apply N.eqb_neq.
Qed.

(** The scans of the runs of a string item, by both expressions. *)

Lemma strip_rph_run (r : str * str * str) (x : str) :
  well_run r -> strip_rph (rich_run r ++ x) = rich_run r ++ strip_rph x.
Proof.
  destruct r as [[rPr attrs] content]. intros (_ & Hrph & _ & Hsp & Ha & Hc).
  unfold strip_rph, replace_g, rich_run, t_open.
  assert (Hlit : forall s, strip_prefix (ch_lt :: lit "rPh>") s = None ->
                           rph_at s = None) by apply rph_at_lit.
  assert (Hq : Forall (fun c => c <> ch_lt) (lit "rPh>")) by by repeat constructor.
  (* the parts of the run, one after the other *)
  replace ((lit "<r>" ++ rPr ++ (lit "<t" ++ attrs ++ [ch_gt]) ++ content
            ++ lit "</t></r>") ++ x)
    with (lit "<r>" ++ rPr ++ ch_lt :: ([116%N] ++ attrs ++ [ch_gt] ++ content)
          ++ lit "</t>" ++ lit "</r>" ++ x) by (by list_norm).
  rewrite (scan_lit_skip rph_at ch_lt (lit "rPh>") rph_at_progresses Hlit
             (lit "<r>")); [|done|by intros y|by repeat constructor].
  rewrite (scan_skip rph_at ch_lt (lit "rPh>") rph_at_progresses Hq Hlit rPr)
    by done.
  change (ch_lt :: ([116%N] ++ attrs ++ [ch_gt] ++ content) ++ lit "</t>"
          ++ lit "</r>" ++ x)
    with ((ch_lt :: [116%N] ++ attrs ++ [ch_gt] ++ content) ++ lit "</t>"
          ++ lit "</r>" ++ x).
  rewrite (scan_lit_skip rph_at ch_lt (lit "rPh>") rph_at_progresses Hlit
             (ch_lt :: [116%N] ++ attrs ++ [ch_gt] ++ content));
    [|done|by intros y| ].
  2:{ cbn [tail app]. constructor; [done|]. apply Forall_app_2.
      - eapply Forall_impl; [exact Ha|]. by intros y [? _].
      - by constructor. }
  rewrite (scan_lit_skip rph_at ch_lt (lit "rPh>") rph_at_progresses Hlit
             (lit "</t>")); [|done|by intros y|by repeat constructor].
  rewrite (scan_lit_skip rph_at ch_lt (lit "rPh>") rph_at_progresses Hlit
             (lit "</r>")); [|done|by intros y|by repeat constructor].
  rewrite !map_app, !concat_app, !lits_text. by list_norm.
Qed.

Lemma tag_hits_run (r : str * str * str) (x : str) :
  well_run r ->
  hits (scan (tag_at tag_t) (rich_run r ++ x))
  = (t_open r.1.2, r.2) :: hits (scan (tag_at tag_t) x).
Proof.
  destruct r as [[rPr attrs] content]. intros (Ht & _ & _ & Hsp & Ha & Hc).
  unfold rich_run. cbn [fst snd].
  assert (Hlit : forall s, strip_prefix (ch_lt :: [116%N]) s = None ->
                           tag_at tag_t s = None) by apply tag_t_lit.
  assert (Hq : Forall (fun c => c <> ch_lt) [116%N]) by by repeat constructor.
  replace ((lit "<r>" ++ rPr ++ t_open attrs ++ content ++ lit "</t></r>") ++ x)
    with (lit "<r>" ++ rPr ++ ch_lt :: ([116%N] ++ attrs ++ [ch_gt] ++ content
          ++ lit "</t>" ++ lit "</r>" ++ x))
    by (unfold t_open; by list_norm).
  rewrite (scan_lit_skip (tag_at tag_t) ch_lt [116%N] (tag_at_progresses tag_t)
             Hlit (lit "<r>")); [|done|by intros y|by repeat constructor].
  rewrite (scan_skip (tag_at tag_t) ch_lt [116%N] (tag_at_progresses tag_t)
             Hq Hlit rPr) by done.
  rewrite !hits_app, !hits_lits. cbn [app].
  rewrite (scan_unfold _ (tag_at_progresses tag_t)).
  assert (Hat : tag_at tag_t
                  (ch_lt :: 116%N :: attrs ++ ch_gt :: content
                   ++ lit "</t>" ++ lit "</r>" ++ x)
                = Some ((t_open attrs, content), lit "</r>" ++ x)).
  { unfold tag_at.
    replace (ch_lt :: 116%N :: attrs ++ ch_gt :: content
             ++ lit "</t>" ++ lit "</r>" ++ x)
      with (t_open attrs ++ content ++ lit "</t>" ++ lit "</r>" ++ x)
      by (unfold t_open; by list_norm).
    rewrite t_open_at by done.
    change (close_tag tag_t) with (ch_lt :: lit "/t>").
    change (lit "</t>") with (ch_lt :: lit "/t>").
    rewrite (find_sub_first ch_lt (lit "/t>") content (lit "</r>" ++ x));
      [done|by repeat constructor|by apply find_sub_fresh]. }
  rewrite Hat.
  rewrite (scan_lit_skip (tag_at tag_t) ch_lt [116%N] (tag_at_progresses tag_t)
             Hlit (lit "</r>")); [|done|by intros y|by repeat constructor].
  change (Hit (t_open attrs, content) :: ?l)
    with ([Hit (t_open attrs, content)] ++ l).
  by rewrite !hits_app, hits_lits.
Qed.

Lemma find_sub_skip (a : N) (q s t : str) :
  Forall (fun x => x <> a) q ->
  find_sub (a :: q) s = None -> find_sub (a :: q) (a :: t) = None ->
  find_sub (a :: q) (s ++ a :: t) = None.
Proof.
  intros Hq Hs Ht. induction s as [|c s IH]; [done|].
  apply find_sub_cons_None in Hs as [Hc Hs].
  cbn [app]. rewrite find_sub_unfold.
  change (c :: s ++ a :: t) with ((c :: s) ++ a :: t).
  rewrite strip_prefix_boundary by done. by rewrite IH.
Qed.

Lemma find_sub_lit_skip (a : N) (q w x : str) :
  w <> [] ->
  (forall y, strip_prefix (a :: q) (w ++ y) = None) ->
  Forall (fun c => c <> a) (tail w) ->
  find_sub (a :: q) x = None -> find_sub (a :: q) (w ++ x) = None.
Proof.
  intros Hw Hm Ht Hx. destruct w as [|c w]; [done|].
  cbn [app]. rewrite find_sub_unfold.
  change (c :: w ++ x) with ((c :: w) ++ x). rewrite Hm.
  simpl in Ht. by rewrite find_sub_app_fresh.
Qed.

Lemma si_close_runs (runs : list (str * str * str)) :
  Forall well_run runs ->
  find_sub si_close (List.concat (List.map rich_run runs)) = None.
Proof.
  induction 1 as [|r runs Hr _ IH]; [done|].
  cbn [List.map List.concat].
  destruct r as [[rPr attrs] content]. destruct Hr as (_ & _ & Hsi & _ & Ha & Hc).
  change (rich_run (rPr, attrs, content))
    with (lit "<r>" ++ rPr ++ (lit "<t" ++ attrs ++ [ch_gt]) ++ content
          ++ lit "</t></r>").
  replace ((lit "<r>" ++ rPr ++ (lit "<t" ++ attrs ++ [ch_gt]) ++ content
            ++ lit "</t></r>") ++ List.concat (List.map rich_run runs))
    with (lit "<r>" ++ rPr ++ ch_lt :: ([116%N] ++ attrs ++ [ch_gt] ++ content)
          ++ lit "</t>" ++ lit "</r>" ++ List.concat (List.map rich_run runs))
    by (by list_norm).
  change si_close with (ch_lt :: lit "/si>") in *.
  assert (Hq : Forall (fun c => c <> ch_lt) (lit "/si>")) by by repeat constructor.
  apply find_sub_lit_skip; [done|by intros y|by repeat constructor|].
  apply find_sub_skip; [done|done|].
  change (ch_lt :: ([116%N] ++ attrs ++ [ch_gt] ++ content) ++ lit "</t>"
          ++ lit "</r>" ++ List.concat (List.map rich_run runs))
    with ((ch_lt :: [116%N] ++ attrs ++ [ch_gt] ++ content) ++ lit "</t>"
          ++ lit "</r>" ++ List.concat (List.map rich_run runs)).
  apply find_sub_lit_skip; [done|by intros y| |].
  { cbn [tail app]. constructor; [done|]. apply Forall_app_2.
    - eapply Forall_impl; [exact Ha|]. by intros y [? _].
    - by constructor. }
  apply find_sub_lit_skip; [done|by intros y|by repeat constructor|].
  apply find_sub_lit_skip; [done|by intros y|by repeat constructor|done].
Qed.

Lemma strip_rph_runs (runs : list (str * str * str)) :
  Forall well_run runs ->
  strip_rph (List.concat (List.map rich_run runs))
  = List.concat (List.map rich_run runs).
Proof.
  induction 1 as [|r runs Hr _ IH]; [done|].
  cbn [List.map List.concat]. by rewrite strip_rph_run, IH.
Qed.

Lemma tag_hits_runs (runs : list (str * str * str)) :
  Forall well_run runs ->
  hits (scan (tag_at tag_t) (List.concat (List.map rich_run runs)))
  = List.map (fun r : str * str * str => (t_open r.1.2, r.2)) runs.
Proof.
  induction 1 as [|r runs Hr _ IH]; [done|].
  cbn [List.map List.concat]. by rewrite tag_hits_run, IH.
Qed.

(** X23.  The text of a string item with several runs is the text of its
    runs put together, whatever their properties and the attributes of
    their text elements; the candidate is that text decoded, and when it
    has a translation the whole item is rewritten to one text run with
    it, so that the runs and their properties go. *)
Theorem rich_text_runs (runs : list (str * str * str))
    (tm : gmap str (option str)) (translated : str) :
  Forall well_run runs ->
  let item := List.concat (List.map rich_run runs) in
  let text := List.concat (List.map (fun r : str * str * str => r.2) runs) in
  si_text item = text
  /\ si_candidates (si_open ++ item ++ si_close) = [decodeXml text]
  /\ (tm !! decodeXml text = Some (Some translated) ->
      replaceSharedStrings tm (si_open ++ item ++ si_close)
      = Some (si_open ++ lit "<t>" ++ escapeXml translated ++ lit "</t>"
              ++ si_close)).
Proof.
  intros Hruns item text.
  assert (Htext : si_text item = text).
  { unfold si_text. subst item text. rewrite strip_rph_runs by done.
    rewrite tag_hits_runs by done. rewrite List.map_map. done. }
  assert (Hno : find_sub si_close item = None).
  { subst item. by apply si_close_runs. }
  assert (Hscan : scan si_at (si_open ++ item ++ si_close) = [Hit item]).
  { rewrite (scan_unfold _ si_at_progresses). unfold si_at.
    rewrite strip_prefix_app.
    replace (item ++ si_close) with (item ++ si_close ++ []) by (by list_norm).
    change si_close with (ch_lt :: lit "/si>").
    rewrite find_sub_first; [done|by repeat constructor|done]. }
  split; [done|]. split.
  - unfold si_candidates. rewrite Hscan. simpl. by rewrite Htext.
  - intros Htm. unfold replaceSharedStrings, replace_g_throw.
    rewrite Hscan. simpl. unfold si_callback, with_translation.
    rewrite Htext, Htm. simpl. by rewrite app_nil_r.
Qed.

Lemma rich_text_runs_witness :
  si_text (rich_run (lit "<rPr><b/></rPr>", [], text_kanji)
           ++ rich_run ([], lit " xml:space=" ++ [ch_quot] ++ lit "preserve"
                            ++ [ch_quot], text_kana))
  = text_kanji ++ text_kana.
Proof.
  pose proof (proj1 (rich_text_runs
                       [(lit "<rPr><b/></rPr>", [], text_kanji);
                        ([], lit " xml:space=" ++ [ch_quot] ++ lit "preserve"
                             ++ [ch_quot], text_kana)] ∅ []
                       ltac:(repeat constructor; done))) as H.
  cbn [List.map List.concat snd] in H. rewrite !app_nil_r in H. exact H.
Defined.

(** ** What rehydration writes *)

Lemma zfile_zwrite_same (n d : str) (z : Package) :
  zfile n (zwrite n d z) = Some d.
Proof.
  induction z as [|[m c] z IH]; simpl.
  - by rewrite bool_decide_eq_true_2.
  - case_bool_decide as Hm; simpl.
    + by rewrite bool_decide_eq_true_2.
    + by rewrite bool_decide_eq_false_2.
Qed.

Lemma zfile_zwrite_other (n m d : str) (z : Package) :
  m <> n -> zfile n (zwrite m d z) = zfile n z.
Proof.
  intros Hne. induction z as [|[k c] z IH]; simpl.
  - by rewrite bool_decide_eq_false_2.
  - case_bool_decide as Hk; simpl.
    + subst k. by rewrite !bool_decide_eq_false_2.
    + case_bool_decide; [done|apply IH].
Qed.

Lemma zfile_NoDup_elem (n c : str) (z : Package) :
  NoDup z.*1 -> (n, c) ∈ z -> zfile n z = Some c.
Proof.
  induction z as [|[m c'] z IH]; [by intros _ ?%elem_of_nil|].
  rewrite fmap_cons, NoDup_cons. intros [Hm Hnd] Hin. simpl in *.
  apply elem_of_cons in Hin as [[= -> ->]|Hin].
  - by rewrite bool_decide_eq_true_2.
  - case_bool_decide as E; [|by apply IH].
    subst m. exfalso. apply Hm. apply list_elem_of_fmap. by exists (n, c).
Qed.

(** The part of a name after the rewrites, when all the rewrites of
    that name read the same content and give the same text. *)
Lemma run_tasks_part (n x x' : str) (tasks : list task) (zc : Package) :
  Forall (fun t : task => is_Some (t.2 t.1.2)) tasks ->
  Forall (fun t : task => t.1.1 = n -> t.1.2 = x /\ t.2 x = Some x') tasks ->
  zfile n zc = Some x'
  \/ (zfile n zc = Some x /\ Exists (fun t : task => t.1.1 = n) tasks) ->
  zfile n (run_tasks tasks zc).1 = Some x'.
Proof.
  intros Htot. revert zc.
  induction Htot as [|[[path xml] rw] tasks [newXml Hrw] _ IH];
    intros zc Hag Hz.
  - destruct Hz as [Hz|[_ Hex]]; [done|]. by apply Exists_nil in Hex.
  - apply Forall_cons in Hag as [Hhd Hag]. simpl in *. rewrite Hrw.
    apply IH; [done|].
    destruct (decide (path = n)) as [->|Hne].
    + destruct (Hhd eq_refl) as [-> Hx]. left.
      assert (newXml = x') as -> by congruence.
      case_bool_decide as E.
      * subst x'. by destruct Hz as [Hz|[Hz _]].
      * apply zfile_zwrite_same.
    + assert (Hsame : zfile n (if bool_decide (xml = newXml) then zc
                               else zwrite path newXml zc) = zfile n zc).
      { case_bool_decide; [done|]. by apply zfile_zwrite_other. }
      rewrite Hsame. destruct Hz as [Hz|[Hz Hex]]; [by left|right].
      split; [done|]. apply Exists_cons in Hex as [Hex|Hex]; [|done].
      simpl in Hex. congruence.
Qed.

Section PartTasks.
Variable tm : gmap str (option str).
Variable z : Package.
Hypothesis Hnd : NoDup z.*1.

Lemma part_tasks_agree (prefix : str) (rw : str -> option str) (n x : str) :
  zfile n z = Some x ->
  Forall (fun t : task => t.1.1 = n -> t.1.2 = x /\ t.2 x = rw x)
    (List.map (fun e : str * str => (e.1, e.2, rw)) (parts_matching prefix z)).
Proof.
  intros Hz. apply Forall_forall.
  intros t [[path xml] [<- He]]%list_elem_of_In%in_map_iff. simpl.
  intros ->. split; [|done].
  apply list_elem_of_In, parts_matching_elem in He as [He _].
  apply (zfile_NoDup_elem _ _ _ Hnd) in He. congruence.
Qed.

Lemma part_tasks_other (prefix : str) (rw : str -> option str) (n : str) :
  path_matches prefix n = false ->
  Forall (fun t : task => t.1.1 <> n)
    (List.map (fun e : str * str => (e.1, e.2, rw)) (parts_matching prefix z)).
Proof.
  intros Hm. apply Forall_forall.
  intros t [[path xml] [<- He]]%list_elem_of_In%in_map_iff. simpl.
  apply list_elem_of_In, parts_matching_elem in He as [_ He]. simpl in He.
  congruence.
Qed.

Lemma part_tasks_exists (prefix : str) (rw : str -> option str) (n x : str) :
  zfile n z = Some x -> path_matches prefix n = true ->
  Exists (fun t : task => t.1.1 = n)
    (List.map (fun e : str * str => (e.1, e.2, rw)) (parts_matching prefix z)).
Proof.
  intros Hz Hm. apply Exists_exists. exists (n, x, rw). split; [|done].
  apply list_elem_of_In.
  apply (in_map (fun e : str * str => (e.1, e.2, rw)) _ (n, x)).
  unfold parts_matching. apply filter_In. split; [|done].
  clear -Hz. induction z as [|[m c] z' IH]; [done|]. simpl in *.
  case_bool_decide as E; [|right; by apply IH].
  injection Hz as ->. subst m. by left.
Qed.
End PartTasks.

Lemma Forall_other_agree (n x x' : str) (tasks : list task) :
  Forall (fun t : task => t.1.1 <> n) tasks ->
  Forall (fun t : task => t.1.1 = n -> t.1.2 = x /\ t.2 x = Some x') tasks.
Proof.
  intros H. eapply Forall_impl; [exact H|]. intros t Hne Heq. done.
Qed.

Lemma Forall_agree_Some (n x x' : str) (rw : str -> option str)
    (tasks : list task) :
  rw x = Some x' ->
  Forall (fun t : task => t.1.1 = n -> t.1.2 = x /\ t.2 x = rw x) tasks ->
  Forall (fun t : task => t.1.1 = n -> t.1.2 = x /\ t.2 x = Some x') tasks.
Proof. intros <-. done. Qed.

Lemma replaceSharedStrings_total (tm : gmap str (option str)) (xml : str) :
  all_defined tm -> is_Some (replaceSharedStrings tm xml).
Proof.
  intros Hd. apply replace_g_throw_total. intros m.
  by apply with_translation_total.
Qed.

Lemma replaceTagContent_total (tm : gmap str (option str))
    (xml tagName : str) :
  all_defined tm -> is_Some (replaceTagContent tm xml tagName).
Proof.
  intros Hd. apply replace_g_throw_total. intros [o i].
  by apply with_translation_total.
Qed.

Lemma replaceSheetNames_total (tm : gmap str (option str)) (xml : str) :
  all_defined tm -> is_Some (replaceSheetNames tm xml).
Proof.
  intros Hd. apply replace_g_throw_total. intros m.
  unfold sheet_callback, replace_first_throw.
  destruct (search name_at m) as [[[b n] a]|]; [|by eexists].
  unfold name_callback.
  destruct (with_translation_total tm (decodeXml n)
              (fun translated =>
                 name_open ++ escapeXml (sanitize_sheet_name translated)
                 ++ [ch_quot])
              (name_open ++ n ++ [ch_quot]) Hd) as [r ->].
  by eexists.
Qed.

(** What the archive of the processor holds after a rehydration that
    does not throw, part by part, for an archive whose names are
    distinct. *)
Lemma getDownloadBuffer_parts (p : Processor) (z : Package) :
  zip p = Some z -> NoDup z.*1 -> all_defined (translationMap p) ->
  let tm := translationMap p in
  exists z',
    getDownloadBuffer p
    = ({| zip := Some z'; uniqueStrings := uniqueStrings p;
          translationMap := tm |}, Ok z')
    /\ forall path xml,
         zfile path z = Some xml ->
         (path = sharedStrings_path ->
          zfile path z' = replaceSharedStrings tm xml)
         /\ (path = workbook_path ->
             zfile path z' = replaceSheetNames tm xml)
         /\ (path_matches worksheets_prefix path = true ->
             path_matches drawings_prefix path = false ->
             path_matches charts_prefix path = false ->
             zfile path z' = replaceTagContent tm xml tag_t)
         /\ (path_matches worksheets_prefix path = false ->
             path_matches drawings_prefix path = true
             \/ path_matches charts_prefix path = true ->
             zfile path z' = replaceTagContent tm xml tag_at_)
         /\ (recognized_path path = false -> zfile path z' = Some xml).
Proof.
  intros Hz Hnd Hd tm.
  pose proof (rewrite_tasks_total tm z Hd) as Htot.
  pose proof (run_tasks_total _ z Htot) as Hnone.
  destruct (getDownloadBuffer_frame p z Hz) as (z0 & Hzip & _ & _ & Hframe & _ & _).
  unfold getDownloadBuffer in *. rewrite Hz in *. fold tm in Hzip |- *.
  destruct (run_tasks (rewrite_tasks tm z) z) as [z' failure] eqn:Hrun.
  simpl in Hnone, Hzip. subst failure. injection Hzip as <-.
  exists z'. split; [done|]. intros path xml Hp.
  assert (Hz' : z' = (run_tasks (rewrite_tasks tm z) z).1) by by rewrite Hrun.
  assert (Hss : Forall (fun t : task => t.1.1 = sharedStrings_path)
                  match zfile sharedStrings_path z with
                  | Some xml0 => [(sharedStrings_path, xml0, replaceSharedStrings tm)]
                  | None => []
                  end).
  { destruct (zfile sharedStrings_path z); by repeat constructor. }
  assert (Hwb : Forall (fun t : task => t.1.1 = workbook_path)
                  match zfile workbook_path z with
                  | Some xml0 => [(workbook_path, xml0, replaceSheetNames tm)]
                  | None => []
                  end).
  { destruct (zfile workbook_path z); by repeat constructor. }
  assert (Hother : forall (m : str) (l : list task),
             m <> path -> Forall (fun t : task => t.1.1 = m) l ->
             forall x', Forall (fun t : task =>
                                  t.1.1 = path -> t.1.2 = xml /\ t.2 xml = Some x') l).
  { intros m l Hm Hl x'. eapply Forall_impl; [exact Hl|].
    intros t Ht Ht'. congruence. }
  assert (Hparts : forall prefix rw x',
             path_matches prefix path = false ->
             Forall (fun t : task =>
                       t.1.1 = path -> t.1.2 = xml /\ t.2 xml = Some x')
               (List.map (fun e : str * str => (e.1, e.2, rw))
                  (parts_matching prefix z))).
  { intros prefix rw x' Hm. by apply Forall_other_agree, part_tasks_other. }
  assert (Hmine : forall prefix rw x',
             rw xml = Some x' ->
             Forall (fun t : task =>
                       t.1.1 = path -> t.1.2 = xml /\ t.2 xml = Some x')
               (List.map (fun e : str * str => (e.1, e.2, rw))
                  (parts_matching prefix z))).
  { intros prefix rw x' Hrw. apply (Forall_agree_Some _ _ _ rw); [done|].
    by apply part_tasks_agree. }
  split; [|split; [|split; [|split]]].
  - intros ->. destruct (replaceSharedStrings_total tm xml Hd) as [x' Hx'].
    rewrite Hx', Hz'. apply (run_tasks_part _ xml x'); [done| |].
    + unfold rewrite_tasks. rewrite Hp. repeat apply Forall_app_2.
      * by repeat constructor.
      * by apply Hparts.
      * by apply Hparts.
      * by apply Hparts.
      * by apply (Hother workbook_path).
    + right. split; [done|]. unfold rewrite_tasks. rewrite Hp.
      apply Exists_app. left. by constructor.
  - intros ->. destruct (replaceSheetNames_total tm xml Hd) as [x' Hx'].
    rewrite Hx', Hz'. apply (run_tasks_part _ xml x'); [done| |].
    + unfold rewrite_tasks. rewrite Hp. repeat apply Forall_app_2.
      * by apply (Hother sharedStrings_path).
      * by apply Hparts.
      * by apply Hparts.
      * by apply Hparts.
      * by repeat constructor.
    + right. split; [done|]. unfold rewrite_tasks. rewrite Hp.
      do 4 (apply Exists_app; right). by constructor.
  - intros Hw Hdr Hch.
    destruct (replaceTagContent_total tm xml tag_t Hd) as [x' Hx'].
    rewrite Hx', Hz'. apply (run_tasks_part _ xml x'); [done| |].
    + unfold rewrite_tasks. repeat apply Forall_app_2.
      * apply (Hother sharedStrings_path); [|done]. intros <-. done.
      * by apply (Hmine worksheets_prefix (fun xml => replaceTagContent tm xml tag_t)).
      * by apply Hparts.
      * by apply Hparts.
      * apply (Hother workbook_path); [|done]. intros <-. done.
    + right. split; [done|]. unfold rewrite_tasks.
      apply Exists_app. right. apply Exists_app. left.
      by apply (part_tasks_exists z _ _ path xml).
  - intros Hw Hdc.
    destruct (replaceTagContent_total tm xml tag_at_ Hd) as [x' Hx'].
    rewrite Hx', Hz'. apply (run_tasks_part _ xml x'); [done| |].
    + unfold rewrite_tasks. repeat apply Forall_app_2.
      * apply (Hother sharedStrings_path); [|done]. intros <-.
        by destruct Hdc.
      * by apply Hparts.
      * by apply (Hmine drawings_prefix (fun xml => replaceTagContent tm xml tag_at_)).
      * by apply (Hmine charts_prefix (fun xml => replaceTagContent tm xml tag_at_)).
      * apply (Hother workbook_path); [|done]. intros <-. by destruct Hdc.
    + right. split; [done|]. unfold rewrite_tasks.
      destruct Hdc as [Hdr|Hch].
      * do 2 (apply Exists_app; right). apply Exists_app. left.
        by apply (part_tasks_exists z _ _ path xml).
      * do 3 (apply Exists_app; right). apply Exists_app. left.
        by apply (part_tasks_exists z _ _ path xml).
  - intros Hrec. by rewrite Hframe.
Qed.

(** * The run as the browser schedules it *)

(** ** The reads in their order of completion *)

Lemma extract_read_elem (r : read) (u : list str) (s : str) :
  s ∈ extract_read u r
  <-> s ∈ u \/ (s ∈ read_candidates r /\ hasJapanese s = true).
Proof.
  destruct r as [xml|tagName xml|xml]; simpl.
  - apply extractFromSharedStrings_elem.
  - apply extractFromTag_elem.
  - apply extractFromSheetNames_elem.
Qed.

Lemma extract_read_NoDup (r : read) (u : list str) :
  NoDup u -> NoDup (extract_read u r).
Proof.
  intros H. destruct r as [xml|tagName xml|xml]; simpl.
  - by apply (add_fold_NoDup (fun i => decodeXml (si_text i))).
  - by apply (add_fold_NoDup (fun m : str * str => decodeXml m.2)).
  - by apply extractFromSheetNames_NoDup.
Qed.

Lemma extract_reads_from_elem (done : list read) (u : list str) (s : str) :
  s ∈ foldl extract_read u done
  <-> s ∈ u \/ (exists r, r ∈ done /\ s ∈ read_candidates r
                          /\ hasJapanese s = true).
Proof.
  revert u. induction done as [|r done IH]; intros u; simpl.
  - split; [by left|]. intros [?|(r & Hr & _)]; [done|].
    by apply elem_of_nil in Hr.
  - rewrite IH, extract_read_elem. split.
    + intros [[?|[? ?]]|(r' & ? & ? & ?)]; [by left|right..].
      * exists r. split; [left|done].
      * exists r'. split; [by right|done].
    + intros [?|(r' & [->|Hin]%elem_of_cons & ? & ?)]; [by left; left| |].
      * left. by right.
      * right. by exists r'.
Qed.

Lemma extract_reads_elem (done : list read) (s : str) :
  s ∈ extract_reads done
  <-> exists r, r ∈ done /\ s ∈ read_candidates r /\ hasJapanese s = true.
Proof.
  unfold extract_reads. rewrite extract_reads_from_elem. split; [|by right].
  intros [H|H]; [by apply elem_of_nil in H|done].
Qed.

Lemma extract_reads_NoDup (done : list read) : NoDup (extract_reads done).
Proof.
  unfold extract_reads. generalize (NoDup_nil_2 (A:=str)).
  generalize (@nil str). induction done as [|r done IH]; intros u Hu; [done|].
  simpl. by apply IH, extract_read_NoDup.
Qed.

Lemma foldl_extract_map {A : Type} (f : A -> read) (l : list A) (u : list str) :
  foldl extract_read u (List.map f l) = foldl (fun u x => extract_read u (f x)) u l.
Proof. revert u. induction l as [|x l IH]; intros u; simpl; [done|apply IH]. Qed.

(** The reads completing in the order in which they were started give
    [extract_package]. *)
Lemma extract_package_reads (z : Package) :
  extract_package z = extract_reads (reads_of z).
Proof.
  unfold extract_package, extract_reads, reads_of.
  rewrite !foldl_app, !foldl_extract_map. simpl.
  destruct (zfile sharedStrings_path z), (zfile workbook_path z); done.
Qed.

(** The strings extracted do not depend on the order in which the
    reads complete; their order does. *)
Lemma extract_reads_completes (z : Package) (done : list read) (s : str) :
  completes z done ->
  s ∈ extract_reads done <-> s ∈ candidates z /\ hasJapanese s = true.
Proof.
  intros Hp. rewrite <- extract_package_elem, extract_package_reads.
  rewrite !extract_reads_elem. unfold completes in Hp.
  split; intros (r & Hr & H); exists r; (split; [|done]).
  - by rewrite <- Hp.
  - by rewrite Hp.
Qed.

Lemma extract_reads_length (z : Package) (done : list read) :
  completes z done ->
  length (extract_reads done) = length (extract_package z).
Proof.
  intros Hp. apply Permutation_length, NoDup_Permutation.
  - apply extract_reads_NoDup.
  - apply extract_package_NoDup.
  - intros s. rewrite (extract_reads_completes z done s Hp).
    symmetry. apply extract_package_elem.
Qed.

(** ** The parts of the rewritten archive *)

Lemma zfile_names (n : str) (z : Package) : is_Some (zfile n z) <-> n ∈ z.*1.
Proof.
  induction z as [|[m c] z IH]; simpl.
  - split; [by intros [? ?]|by intros ?%elem_of_nil].
  - rewrite elem_of_cons. case_bool_decide as E.
    + split; [by left|by eexists].
    + rewrite IH. split; [by right|]. by intros [->|?].
Qed.

(** Every part of the archive is in the rewritten archive, with the
    content the rule of the part makes of its own. *)
Lemma getDownloadBuffer_rewritten (p : Processor) (z : Package) :
  zip p = Some z -> NoDup z.*1 -> all_defined (translationMap p) ->
  let tm := translationMap p in
  exists z',
    getDownloadBuffer p
    = ({| zip := Some z'; uniqueStrings := uniqueStrings p;
          translationMap := tm |}, Ok z')
    /\ forall path xml,
         zfile path z = Some xml ->
         exists xml',
           zfile path z' = Some xml'
           /\ part_rewritten (si_rewrite tm) (tag_rewrite tm) (sheet_rewrite tm)
                path xml xml'.
Proof.
  intros Hz Hnd Hd tm.
  destruct (getDownloadBuffer_parts p z Hz Hnd Hd) as (z' & Hrun & Hparts).
  fold tm in Hrun, Hparts.
  exists z'. split; [done|]. intros path xml Hp.
  destruct (getDownloadBuffer_frame p z Hz) as (z0 & Hzip & Hnames & _).
  rewrite Hrun in Hzip. injection Hzip as <-.
  assert (Hsome : is_Some (zfile path z')).
  { apply zfile_names. rewrite Hnames. apply zfile_names. by eexists. }
  destruct Hsome as [xml' Hx']. exists xml'. split; [done|].
  destruct (Hparts path xml Hp) as (Hss & Hwb & Hws & Hdc & Hother).
  unfold part_rewritten. split; [|split; [|split; [|split]]].
  - intros Hpath. apply replaceSharedStrings_rewritten.
    by rewrite <- Hss, Hx'.
  - intros Hpath. apply replaceSheetNames_rewritten. by rewrite <- Hwb, Hx'.
  - intros H1 H2 H3. apply replaceTagContent_rewritten.
    by rewrite <- Hws, Hx'.
  - intros H1 H2. apply replaceTagContent_rewritten. by rewrite <- Hdc, Hx'.
  - intros Hrec. specialize (Hother Hrec). congruence.
Qed.

(** A span whose text has no translation in the map is left as it
    stands. *)
Lemma part_rewritten_partial (tm : gmap str (option str)) (later : list str)
    (path xml xml' : str) :
  (forall s, s ∈ later -> tm !! s = None) ->
  part_rewritten (si_rewrite tm) (tag_rewrite tm) (sheet_rewrite tm)
    path xml xml' ->
  part_rewritten (si_partial tm later) (tag_partial tm later)
    (sheet_partial tm later) path xml xml'.
Proof.
  intros Hlater (Hss & Hwb & Hws & Hdc & Hother).
  assert (Htag : forall tagName m out,
             tag_rewrite tm tagName m out -> tag_partial tm later tagName m out).
  { intros tagName m out H. split; [done|]. intros Hin.
    unfold tag_rewrite in H. by rewrite (Hlater _ Hin) in H. }
  split; [|split; [|split; [|split]]]; [| | | |done].
  - intros Hpath. eapply rewritten_impl; [exact (Hss Hpath)|].
    intros inner out H. split; [done|]. intros Hin.
    unfold si_rewrite in H. by rewrite (Hlater _ Hin) in H.
  - intros Hpath. eapply rewritten_impl; [exact (Hwb Hpath)|].
    intros sheetTag out H. split; [done|]. intros before n after Hs Hin.
    unfold sheet_rewrite in H. rewrite Hs in H.
    by rewrite (Hlater _ Hin) in H.
  - intros H1 H2 H3. eapply rewritten_impl; [exact (Hws H1 H2 H3)|].
    apply Htag.
  - intros H1 H2. eapply rewritten_impl; [exact (Hdc H1 H2)|]. apply Htag.
Qed.

(** ** The run with the reads in their order of completion *)

Section BrowserFacts.
Context {Buffer : Type}.
Variable generateAsync : Package -> Buffer.
Variable translateBatch : nat -> list str -> outcome exn (list str).

Lemma getDownloadBuffer_in_Ok (p p' : Processor) (z' : Package) :
  getDownloadBuffer p = (p', Ok z') ->
  getDownloadBuffer_in generateAsync p = (p', Ok (generateAsync z')).
Proof. intros H. unfold getDownloadBuffer_in. by rewrite H. Qed.

Lemma getDownloadBuffer_in_Throw (p : Processor) (e : exn) :
  (getDownloadBuffer p).2 = Throw e ->
  getDownloadBuffer_in generateAsync p = ((getDownloadBuffer p).1, Throw e).
Proof.
  intros H. unfold getDownloadBuffer_in.
  destruct (getDownloadBuffer p) as [p' r]. simpl in *. by subst.
Qed.

Lemma processFile_in_abort (done : list read) (file : File) (z : Package)
    (k : nat) (e : exn) :
  archive file = Ok z ->
  k < ceil_div (length (extract_reads done)) BATCH_SIZE ->
  succeeds_before translateBatch (extract_reads done) k ->
  translateBatch k (chunk_of (extract_reads done) k) = Throw e ->
  exists evs,
    processFile_in generateAsync translateBatch done file
    = recover_in generateAsync
        {| zip := Some z; uniqueStrings := extract_reads done;
           translationMap := commits translateBatch (extract_reads done) k ∅ |}
        ([note parsing (lit "Reading Excel file...")]
         ++ [note parsing (lit "Extracting text (Cells & Text Boxes)...")]
         ++ evs) e
    /\ calls_of evs = List.map (chunk_of (extract_reads done)) (seq 0 (S k)).
Proof.
  intros Harch Hk Hs He.
  destruct (loop_abort translateBatch (extract_reads done)
              (ceil_div (length (extract_reads done)) BATCH_SIZE) ∅ _ k e Hk Hs He)
    as (evs & Hloop & Hcalls).
  exists evs. split; [|done].
  unfold processFile_in, loadFile. rewrite Harch.
  unfold extractStrings_in, processTranslations.
  cbn [zip uniqueStrings translationMap new_processor].
  destruct (Nat.eqb_spec (ceil_div (length (extract_reads done)) BATCH_SIZE) 0)
    as [H0|_]; [lia|].
  rewrite Hloop. by rewrite <- app_assoc.
Qed.

Lemma processFile_in_translated (done : list read) (file : File) (z : Package) :
  archive file = Ok z ->
  succeeds_before translateBatch (extract_reads done)
    (ceil_div (length (extract_reads done)) BATCH_SIZE) ->
  exists evs,
    calls_of evs
    = List.map (chunk_of (extract_reads done))
        (seq 0 (ceil_div (length (extract_reads done)) BATCH_SIZE))
    /\ processFile_in generateAsync translateBatch done file
       = let p3 := {| zip := Some z; uniqueStrings := extract_reads done;
                      translationMap :=
                        commits translateBatch (extract_reads done)
                          (ceil_div (length (extract_reads done)) BATCH_SIZE) ∅ |} in
         let ev3 :=
           (([note parsing (lit "Reading Excel file...")]
             ++ [note parsing (lit "Extracting text (Cells & Text Boxes)...")])
            ++ evs)
           ++ [note translating (lit "Translating filename...");
               Call (ceil_div (length (extract_reads done)) BATCH_SIZE) [name file];
               note rebuilding
                 (lit "Applying translations and preserving styles...")] in
         match (getDownloadBuffer_in generateAsync p3).2 with
         | Throw e => recover_in generateAsync (getDownloadBuffer_in generateAsync p3).1 ev3 e
         | Ok b =>
             {| savedBuffer := Some b; partialBuffer := None;
                events := ev3 ++ [note complete (lit "Done! Download started.")];
                held := (getDownloadBuffer_in generateAsync p3).1 |}
         end.
Proof.
  intros Harch Hs.
  set (total := ceil_div (length (extract_reads done)) BATCH_SIZE) in *.
  unfold processFile_in, loadFile. rewrite Harch.
  unfold extractStrings_in, processTranslations.
  cbn [zip uniqueStrings translationMap new_processor]. fold total.
  destruct (Nat.eqb_spec total 0) as [H0|Hne].
  - eexists. rewrite H0. split; [|cbn [commits]; cbn beta iota zeta;
      by destruct (getDownloadBuffer_in _ _) as [p4 [z'|e]]].
    done.
  - destruct (loop_commits translateBatch (extract_reads done) total ∅ total Hs)
      as (evs & Hloop & Hcalls).
    exists evs. split; [done|]. rewrite Hloop. cbn beta iota zeta.
    by destruct (getDownloadBuffer_in _ _) as [p4 [z'|e]].
Qed.
End BrowserFacts.

(** [processFile] is the run in which the reads complete in the order
    in which they were started, with the archive handed over as its
    parts. *)
Lemma getDownloadBuffer_in_parts (p : Processor) :
  getDownloadBuffer_in parts_of p = getDownloadBuffer p.
Proof.
  unfold getDownloadBuffer_in. by destruct (getDownloadBuffer p) as [p' [z'|e]].
Qed.

Lemma recover_in_parts (p : Processor) (before : list event) (e : exn) :
  let run := recover p before e in
  recover_in parts_of p before e
  = {| savedBuffer := saved run; partialBuffer := partialFile run;
       events := trace run; held := processor run |}.
Proof.
  unfold recover_in, recover. rewrite getDownloadBuffer_in_parts.
  by destruct (getDownloadBuffer p) as [p' [z'|e']].
Qed.

Lemma processFile_in_start_order
    (translateBatch : nat -> list str -> outcome exn (list str))
    (file : File) (z : Package) :
  archive file = Ok z ->
  let run := processFile translateBatch file in
  processFile_in parts_of translateBatch (reads_of z) file
  = {| savedBuffer := saved run; partialBuffer := partialFile run;
       events := trace run; held := processor run |}.
Proof.
  intros Harch. unfold processFile_in, processFile, loadFile. rewrite Harch.
  unfold extractStrings_in, extractStrings.
  cbn [zip uniqueStrings translationMap new_processor].
  rewrite <- extract_package_reads.
  destruct (processTranslations translateBatch _) as [[p3 evs] [[]|e]].
  - rewrite getDownloadBuffer_in_parts.
    destruct (getDownloadBuffer p3) as [p4 [z'|e]]; [done|].
    apply recover_in_parts.
  - apply recover_in_parts.
Qed.

(** C2.  When the calls for the first [k] batches succeed and the call
    for the next batch throws an error that the caller takes for the
    exhausted quota, as the quota error of the collaborator is, the
    orchestration stops there, in whatever order the reads of the
    extraction completed: no later batch is attempted, nothing is
    saved, the report is the one of the exceeded limit, and the map
    holds exactly the translations of the first [k] batches.  The
    partial file is the serialization of the archive the processor
    then holds.  Every part of the archive read is in that archive,
    and its content there is the rewriting by that map of the content
    read: a span whose text is a string of the first [k] batches holds
    the translation, and a span whose text is a string of a later
    batch stands as it was read.  The answers of the collaborator are
    taken to have the length of their batch, as its contract says, and
    the names of the parts to be distinct. *)
Theorem quota_abort_keeps_partial_work {Buffer : Type}
    (generateAsync : Package -> Buffer)
    (translateBatch : nat -> list str -> outcome exn (list str))
    (file : File) (z : Package) (done : list read) (k : nat) (e : exn) :
  archive file = Ok z ->
  NoDup z.*1 ->
  completes z done ->
  let allStrings := extract_reads done in
  let total := ceil_div (length allStrings) BATCH_SIZE in
  k < total ->
  succeeds_before translateBatch allStrings k ->
  (forall i out, i < k ->
     translateBatch i (chunk_of allStrings i) = Ok out ->
     length out = length (chunk_of allStrings i)) ->
  translateBatch k (chunk_of allStrings k) = Throw e ->
  isQuotaError e = true ->
  let run := processFile_in generateAsync translateBatch done file in
  let tm := translationMap (held run) in
  let later := drop (k * BATCH_SIZE) allStrings in
  savedBuffer run = None
  /\ calls_of (events run) = List.map (chunk_of allStrings) (seq 0 (S k))
  /\ last (events run)
     = Some (Progress {|
               progress_status := error; currentChunk := 0; totalChunks := 0;
               progress_message := Some (lit "API Limit Exceeded");
               progress_error :=
                 Some (lit "You have exceeded the API daily quota. Don't worry, you can download the partial translation below.") |})
  /\ isQuotaError QuotaExceeded = true
  /\ tm = commits translateBatch allStrings k ∅
  /\ (forall s, is_Some (tm !! s) <-> s ∈ take (k * BATCH_SIZE) allStrings)
  /\ (forall i index original out,
        i < k ->
        translateBatch i (chunk_of allStrings i) = Ok out ->
        chunk_of allStrings i !! index = Some original ->
        exists translated,
          out !! index = Some translated
          /\ tm !! original = Some (Some translated))
  /\ (forall s, s ∈ later -> tm !! s = None)
  /\ exists z',
       partialBuffer run = Some (generateAsync z')
       /\ zip (held run) = Some z'
       /\ forall path xml,
            zfile path z = Some xml ->
            exists xml',
              zfile path z' = Some xml'
              /\ part_rewritten (si_partial tm later) (tag_partial tm later)
                   (sheet_partial tm later) path xml xml'.
Proof.
  intros Harch Hnames _ allStrings total Hk Hs Hlen He Hquota run tm later.
  pose proof (extract_reads_NoDup done) as Hnd. fold allStrings in Hnd.
  destruct (processFile_in_abort generateAsync translateBatch done file z k
              e Harch Hk Hs He) as (evs & Hrun & Hcalls).
  fold allStrings in Hrun, Hcalls.
  set (tmk := commits translateBatch allStrings k ∅) in *.
  set (p3 := {| zip := Some z; uniqueStrings := allStrings;
                translationMap := tmk |}) in *.
  assert (Hdef : all_defined tmk) by by apply commits_all_defined.
  destruct (getDownloadBuffer_rewritten p3 z eq_refl Hnames Hdef)
    as (z' & Hbuf & Hparts).
  cbn [translationMap uniqueStrings p3] in Hbuf, Hparts.
  assert (Hheld : run = {| savedBuffer := None;
                           partialBuffer := Some (generateAsync z');
                           events := ([note parsing (lit "Reading Excel file...")]
                                      ++ [note parsing
                                            (lit "Extracting text (Cells & Text Boxes)...")]
                                      ++ evs) ++ [failure_report e];
                           held := {| zip := Some z'; uniqueStrings := allStrings;
                                      translationMap := tmk |} |}).
  { subst run. rewrite Hrun. unfold recover_in.
    by rewrite (getDownloadBuffer_in_Ok generateAsync p3 _ z' Hbuf). }
  assert (Htm : tm = tmk) by (subst tm; by rewrite Hheld).
  assert (Hlater : forall s, s ∈ later -> tmk !! s = None).
  { intros s Hin. apply eq_None_not_Some. unfold tmk.
    rewrite commits_is_Some by done. rewrite lookup_empty.
    intros [[? H]|H]; [discriminate|].
    assert (Hsplit : NoDup (take (k * BATCH_SIZE) allStrings ++ later))
      by (unfold later; by rewrite take_drop).
    apply NoDup_app in Hsplit as (_ & Hdisj & _). exact (Hdisj s H Hin). }
  rewrite Htm. clear Htm. clearbody run. subst run.
  cbn [savedBuffer partialBuffer events held zip].
  split; [done|].
  split; [|split; [|split; [by vm_compute|split; [done|split; [|split; [|split]]]]]].
  - rewrite !calls_of_app. simpl. rewrite app_nil_r. exact Hcalls.
  - rewrite last_snoc. unfold failure_report. by rewrite Hquota.
  - intros s. unfold tmk. rewrite commits_is_Some by done.
    rewrite lookup_empty. split; [|by right].
    intros [[? H]|H]; [discriminate|done].
  - intros i index original out Hi Hout Hidx.
    pose proof (commits_lookup translateBatch allStrings Hnd k i index
                  original out Hs Hi Hout Hidx) as Hl.
    destruct (out !! index) as [t|] eqn:E.
    + by exists t.
    + exfalso. apply lookup_ge_None in E. rewrite (Hlen i out Hi Hout) in E.
      apply lookup_lt_Some in Hidx. lia.
  - exact Hlater.
  - exists z'. split; [done|]. split; [done|].
    intros path xml Hp. destruct (Hparts path xml Hp) as (xml' & Hx' & Hr).
    exists xml'. split; [done|]. by apply part_rewritten_partial.
Qed.

(** ** Runs that end, and what is sent *)

(** X17.  A run in which every batch is answered, by answers of the
    length of their batches, in whatever order the reads of the
    extraction completed: the calls are those of the batches and then
    the one for the name of the file; every candidate of the archive
    with a Japanese character has its translation in the map; nothing
    is offered as a partial file; the file saved is the serialization
    of the archive the processor then holds, in which every part of
    the archive read has the rewriting of its content by that map. *)
Theorem complete_run {Buffer : Type}
    (generateAsync : Package -> Buffer)
    (translateBatch : nat -> list str -> outcome exn (list str))
    (file : File) (z : Package) (done : list read) :
  archive file = Ok z ->
  NoDup z.*1 ->
  completes z done ->
  let allStrings := extract_reads done in
  let total := ceil_div (length allStrings) BATCH_SIZE in
  succeeds_before translateBatch allStrings total ->
  (forall i out, i < total ->
     translateBatch i (chunk_of allStrings i) = Ok out ->
     length out = length (chunk_of allStrings i)) ->
  let run := processFile_in generateAsync translateBatch done file in
  let tm := commits translateBatch allStrings total ∅ in
  calls_of (events run)
  = List.map (chunk_of allStrings) (seq 0 total) ++ [[name file]]
  /\ last (events run) = Some (note complete (lit "Done! Download started."))
  /\ translationMap (held run) = tm
  /\ (forall s, is_Some (tm !! s)
                <-> s ∈ candidates z /\ hasJapanese s = true)
  /\ (forall i index original out,
        i < total ->
        translateBatch i (chunk_of allStrings i) = Ok out ->
        chunk_of allStrings i !! index = Some original ->
        exists translated,
          out !! index = Some translated
          /\ tm !! original = Some (Some translated))
  /\ partialBuffer run = None
  /\ exists z',
       savedBuffer run = Some (generateAsync z')
       /\ zip (held run) = Some z'
       /\ forall path xml,
            zfile path z = Some xml ->
            exists xml',
              zfile path z' = Some xml'
              /\ part_rewritten (si_rewrite tm) (tag_rewrite tm)
                   (sheet_rewrite tm) path xml xml'.
Proof.
  intros Harch Hnames Hdone allStrings total Hs Hlen run tm.
  pose proof (extract_reads_NoDup done) as Hnd. fold allStrings in Hnd.
  destruct (processFile_in_translated generateAsync translateBatch done file z
              Harch Hs) as (evs & Hcalls & Hrun).
  fold allStrings total in Hcalls, Hrun. fold tm in Hrun.
  assert (Hdef : all_defined tm) by by apply commits_all_defined.
  set (p3 := {| zip := Some z; uniqueStrings := allStrings;
                translationMap := tm |}) in *.
  destruct (getDownloadBuffer_rewritten p3 z eq_refl Hnames Hdef)
    as (z' & Hbuf & Hparts).
  cbn [translationMap uniqueStrings p3] in Hbuf, Hparts.
  cbn zeta in Hrun.
  rewrite (getDownloadBuffer_in_Ok generateAsync p3 _ z' Hbuf) in Hrun.
  cbn [fst snd] in Hrun.
  subst run. rewrite Hrun. cbn [events savedBuffer partialBuffer held zip translationMap].
  split; [|split; [|split; [done|split; [|split; [|split; [done|]]]]]].
  - rewrite !calls_of_app, Hcalls. simpl. by rewrite app_nil_r.
  - by rewrite last_snoc.
  - intros s. rewrite <- (extract_reads_completes z done s Hdone).
    fold allStrings. unfold tm. rewrite commits_is_Some by done.
    rewrite lookup_empty, take_ge.
    + split; [|by right]. intros [[? H]|H]; [discriminate|done].
    + pose proof (ceil_div_spec (length allStrings)) as [H _].
      fold total in H. unfold BATCH_SIZE in *. lia.
  - intros i index original out Hi Hout Hidx.
    pose proof (commits_lookup translateBatch allStrings Hnd total i index
                  original out Hs Hi Hout Hidx) as Hl.
    fold tm in Hl.
    destruct (out !! index) as [t|] eqn:E.
    + by exists t.
    + exfalso. apply lookup_ge_None in E. rewrite (Hlen i out Hi Hout) in E.
      apply lookup_lt_Some in Hidx. lia.
  - exists z'. done.
Qed.

(** X19.  An answer that is shorter than its batch leaves [undefined] in
    the map for the strings beyond its end, and the rehydration that
    follows throws on the first of them it meets, in whatever order the
    reads of the extraction completed: every batch was sent and the
    name of the file too, yet nothing is saved and the report is the
    one of the type error. *)
Theorem short_answer_breaks_rehydration {Buffer : Type}
    (generateAsync : Package -> Buffer)
    (translateBatch : nat -> list str -> outcome exn (list str))
    (file : File) (z : Package) (done : list read) (j index : nat)
    (out : list str) (original : str) :
  archive file = Ok z ->
  completes z done ->
  let allStrings := extract_reads done in
  let total := ceil_div (length allStrings) BATCH_SIZE in
  succeeds_before translateBatch allStrings total ->
  j < total ->
  translateBatch j (chunk_of allStrings j) = Ok out ->
  chunk_of allStrings j !! index = Some original ->
  length out <= index ->
  let run := processFile_in generateAsync translateBatch done file in
  commits translateBatch allStrings total ∅ !! original = Some None
  /\ (getDownloadBuffer_in generateAsync
        {| zip := Some z; uniqueStrings := allStrings;
           translationMap := commits translateBatch allStrings total ∅ |}).2
     = Throw TypeError
  /\ savedBuffer run = None
  /\ calls_of (events run)
     = List.map (chunk_of allStrings) (seq 0 total) ++ [[name file]]
  /\ last (events run) = Some (failure_report TypeError).
Proof.
  intros Harch Hdone allStrings total Hs Hj Hout Hidx Hshort run.
  pose proof (extract_reads_NoDup done) as Hnd. fold allStrings in Hnd.
  assert (Hu : commits translateBatch allStrings total ∅ !! original = Some None).
  { rewrite (commits_lookup translateBatch allStrings Hnd total j index
               original out Hs Hj Hout Hidx).
    f_equal. by apply lookup_ge_None. }
  assert (Hc : original ∈ candidates z).
  { apply (extract_reads_completes z done original Hdone).
    apply list_elem_of_lookup_2 in Hidx. apply chunk_of_subseteq in Hidx.
    by apply subseteq_drop in Hidx. }
  set (p3 := {| zip := Some z; uniqueStrings := allStrings;
                translationMap := commits translateBatch allStrings total ∅ |}).
  pose proof (getDownloadBuffer_undefined p3 z original eq_refl Hc Hu) as Hthrow.
  pose proof (getDownloadBuffer_in_Throw generateAsync p3 TypeError Hthrow)
    as Hin.
  split; [done|]. split; [by rewrite Hin|].
  destruct (processFile_in_translated generateAsync translateBatch done file z
              Harch Hs) as (evs & Hcalls & Hrun).
  fold allStrings total in Hcalls, Hrun. cbn zeta in Hrun. fold p3 in Hrun.
  rewrite Hin in Hrun. cbn [fst snd] in Hrun.
  subst run. rewrite Hrun. unfold recover_in.
  destruct (getDownloadBuffer_in generateAsync (getDownloadBuffer p3).1)
    as [p' r].
  cbn [savedBuffer events]. split; [done|]. split.
  - rewrite !calls_of_app, Hcalls. simpl. by rewrite !app_nil_r.
  - by rewrite last_snoc.
Qed.

(** X22.  The orchestration sends a text of the archive once at most,
    and only texts with a Japanese character: whatever the collaborator
    does and in whatever order the reads of the extraction completed,
    the texts of the calls, taken together, are the first strings of
    the extraction in that order, without repetition, each a candidate
    of the archive that is not empty.  The order changes which strings
    share a batch, not how many strings and batches there are. *)
Theorem only_japanese_sent_once
    (translateBatch : nat -> list str -> outcome exn (list str))
    (p : Processor) (z : Package) (done : list read) :
  zip p = Some z ->
  completes z done ->
  let sent :=
    List.concat (calls_of (processTranslations translateBatch
                             (extractStrings_in done p)).1.2) in
  NoDup sent
  /\ (exists k, k <= ceil_div (length (extract_package z)) BATCH_SIZE
                /\ sent = take (k * BATCH_SIZE) (extract_reads done))
  /\ (forall s, s ∈ sent ->
        hasJapanese s = true /\ s ∈ candidates z /\ s <> [])
  /\ length (uniqueStrings (extractStrings_in done p))
     = length (uniqueStrings (extractStrings p)).
Proof.
  intros Hz Hdone sent.
  pose proof (extract_reads_length z done Hdone) as Hlen.
  assert (Hk : exists k, k <= ceil_div (length (extract_package z)) BATCH_SIZE
                         /\ sent = take (k * BATCH_SIZE) (extract_reads done)).
  { subst sent. unfold extractStrings_in, processTranslations. rewrite Hz.
    cbn [uniqueStrings translationMap]. rewrite <- Hlen.
    destruct (Nat.eqb _ 0).
    - exists 0. split; [lia|done].
    - destruct (batch_loop_calls translateBatch (extract_reads done)
                  (ceil_div (length (extract_reads done)) BATCH_SIZE)
                  (ceil_div (length (extract_reads done)) BATCH_SIZE) 0
                  (translationMap p)) as (k & Hle & Hc).
      destruct (batch_loop _ _ _ _ _ _) as [[tm evs] r]. cbn [fst snd] in *.
      exists k. split; [done|]. by rewrite Hc, chunks_take. }
  destruct Hk as (k & Hle & Hk).
  split; [|split; [by exists k|split]].
  - rewrite Hk. eapply sublist_NoDup; [apply extract_reads_NoDup|].
    apply sublist_take.
  - intros s Hs. rewrite Hk in Hs. apply subseteq_take in Hs.
    apply (extract_reads_completes z done s Hdone) in Hs as [Hc Hj].
    split; [done|]. split; [done|]. by intros ->.
  - unfold extractStrings_in, extractStrings. rewrite Hz. exact Hlen.
Qed.

(** X24.  What the archive of the processor holds after a rehydration
    that does not throw, part by part, for an archive whose names are
    distinct: the shared strings, the workbook, a part that is a
    worksheet only, and a part that is a drawing or a chart and no
    worksheet hold the rewriting of their content by their rule; a part
    that no rule recognizes holds what it held.  What is returned is
    the serialization of that archive. *)
Theorem rehydration_parts {Buffer : Type} (generateAsync : Package -> Buffer)
    (p : Processor) (z : Package) :
  zip p = Some z -> NoDup z.*1 -> all_defined (translationMap p) ->
  let tm := translationMap p in
  exists z',
    getDownloadBuffer_in generateAsync p
    = ({| zip := Some z'; uniqueStrings := uniqueStrings p;
          translationMap := tm |}, Ok (generateAsync z'))
    /\ forall path xml,
         zfile path z = Some xml ->
         (path = sharedStrings_path ->
          zfile path z' = replaceSharedStrings tm xml)
         /\ (path = workbook_path ->
             zfile path z' = replaceSheetNames tm xml)
         /\ (path_matches worksheets_prefix path = true ->
             path_matches drawings_prefix path = false ->
             path_matches charts_prefix path = false ->
             zfile path z' = replaceTagContent tm xml tag_t)
         /\ (path_matches worksheets_prefix path = false ->
             path_matches drawings_prefix path = true
             \/ path_matches charts_prefix path = true ->
             zfile path z' = replaceTagContent tm xml tag_at_)
         /\ (recognized_path path = false -> zfile path z' = Some xml).
Proof.
  intros Hz Hnd Hd tm.
  destruct (getDownloadBuffer_parts p z Hz Hnd Hd) as (z' & Hrun & Hparts).
  exists z'. split; [|exact Hparts].
  by apply getDownloadBuffer_in_Ok.
Qed.

(** X14.  As long as the answers of the collaborator have the length of
    what it was given, the map never holds [undefined], and the
    rehydration that follows the orchestration returns, whether the
    orchestration came to its end or was left by an exception: the
    archive can be rebuilt from whatever was translated. *)
Theorem rehydration_after_translation {Buffer : Type}
    (generateAsync : Package -> Buffer)
    (translateBatch : nat -> list str -> outcome exn (list str))
    (p : Processor) (z : Package) :
  length_preserving translateBatch ->
  zip p = Some z ->
  all_defined (translationMap p) ->
  let p' := (processTranslations translateBatch p).1.1 in
  all_defined (translationMap p')
  /\ zip p' = Some z
  /\ exists z',
       getDownloadBuffer_in generateAsync p'
       = ({| zip := Some z'; uniqueStrings := uniqueStrings p;
             translationMap := translationMap p' |}, Ok (generateAsync z')).
Proof.
  intros Hlen Hz Hd p'.
  destruct (processTranslations_state translateBatch Hlen p) as (Hzip & Hu & Hdef).
  specialize (Hdef Hd). fold p' in Hzip, Hu, Hdef.
  split; [done|]. split; [by rewrite Hzip|].
  destruct (getDownloadBuffer_frame p' z) as (z' & Hz' & _ & _ & _ & _ & Hok);
    [by rewrite Hzip|].
  specialize (Hok Hdef). exists z'.
  unfold getDownloadBuffer_in.
  assert (Hb : getDownloadBuffer p'
               = ({| zip := Some z'; uniqueStrings := uniqueStrings p;
                     translationMap := translationMap p' |}, Ok z')).
  { unfold getDownloadBuffer in *. rewrite Hzip, Hz in *.
    destruct (run_tasks _ z) as [z0 failure]. simpl in *.
    injection Hz' as ->. rewrite Hu.
    destruct failure; [discriminate|done]. }
  by rewrite Hb.
Qed.

(** ** The round trip, by the text of the specification *)

(** ** The text of a string item *)
















(** ** Samples of the runs *)

Lemma demo_done_completes : completes demo_archive demo_done.
Proof. unfold completes, demo_done. symmetry. apply Permutation_rev. Qed.

Lemma demo_archive_names : NoDup demo_archive.*1.
Proof. repeat constructor; vm_compute; set_solver. Qed.

Lemma quota_abort_keeps_partial_work_witness :
  savedBuffer (processFile_in parts_of demo_translate demo_done demo_file) = None
  /\ calls_of (events (processFile_in parts_of demo_translate demo_done demo_file))
     = List.map (chunk_of (extract_reads demo_done)) (seq 0 2)
  /\ exists z',
       partialBuffer (processFile_in parts_of demo_translate demo_done demo_file)
       = Some z'.
Proof.
  destruct (quota_abort_keeps_partial_work parts_of demo_translate demo_file
              demo_archive demo_done 1 QuotaExceeded eq_refl
              demo_archive_names demo_done_completes)
    as (H1 & H2 & _ & _ & _ & _ & _ & _ & z' & H3 & _).
  - vm_compute. lia.
  - intros i Hi. assert (i = 0) as -> by (clear -Hi; lia).
    eexists. exact eq_refl.
  - intros i out Hi. assert (i = 0) as -> by (clear -Hi; lia).
    intros H. apply (Ok_inj (E:=exn)) in H. subst out. apply length_map.
  - exact eq_refl.
  - vm_compute. reflexivity.
  - split; [exact H1|]. split; [exact H2|]. exists z'. exact H3.
Defined.

Lemma complete_run_witness :
  partialBuffer (processFile_in parts_of (fun _ texts => Ok texts) demo_done
                   demo_file) = None.
Proof.
  refine (proj1 (proj2 (proj2 (proj2 (proj2 (proj2
            (complete_run parts_of (fun _ texts => Ok texts) demo_file demo_archive
               demo_done eq_refl demo_archive_names demo_done_completes
               _ _))))))).
  - intros i _. by eexists.
  - intros i out _ H. apply (Ok_inj (E:=exn)) in H. by subst out.
Defined.

Lemma short_answer_breaks_rehydration_witness :
  savedBuffer (processFile_in parts_of first_only demo_done demo_file) = None.
Proof.
  refine (proj1 (proj2 (proj2
            (short_answer_breaks_rehydration parts_of first_only demo_file
               demo_archive demo_done
               0 1 (take 1 (chunk_of (extract_reads demo_done) 0))
               [0x3042%N] eq_refl demo_done_completes _ _ _ _ _)))).
  - intros i _. by eexists.
  - vm_compute. lia.
  - reflexivity.
  - vm_compute. reflexivity.
  - vm_compute. lia.
Defined.

Lemma only_japanese_sent_once_witness :
  NoDup (List.concat
           (calls_of (processTranslations demo_translate
                        (extractStrings_in demo_done demo_processor)).1.2)).
Proof.
  exact (proj1 (only_japanese_sent_once demo_translate demo_processor
                  demo_archive demo_done eq_refl demo_done_completes)).
Defined.

Lemma rehydration_parts_witness :
  exists z',
    getDownloadBuffer_in parts_of {| zip := Some english_archive; uniqueStrings := [];
                               translationMap := slash_map |}
    = ({| zip := Some z'; uniqueStrings := [];
          translationMap := slash_map |}, Ok z')
    /\ zfile (lit "xl/worksheets/sheet1.xml") z'
       = replaceTagContent slash_map (lit "<c><is><t>World</t></is></c>") tag_t.
Proof.
  destruct (rehydration_parts parts_of
              {| zip := Some english_archive; uniqueStrings := [];
                 translationMap := slash_map |} english_archive eq_refl)
    as (z' & Hrun & Hparts).
  - repeat constructor; vm_compute; set_solver.
  - intros k v Hv. cbn [translationMap] in Hv. unfold slash_map in Hv.
    apply lookup_singleton_Some in Hv as [_ <-]. by eexists.
  - exists z'. split; [exact Hrun|].
    destruct (Hparts (lit "xl/worksheets/sheet1.xml")
                (lit "<c><is><t>World</t></is></c>") eq_refl)
      as (_ & _ & Hw & _).
    apply Hw; reflexivity.
Defined.

Lemma rehydration_after_translation_witness :
  exists z',
    getDownloadBuffer_in parts_of
      (processTranslations demo_translate
         {| zip := Some demo_archive;
            uniqueStrings := extract_reads demo_done;
            translationMap := ∅ |}).1.1
    = ({| zip := Some z'; uniqueStrings := extract_reads demo_done;
          translationMap :=
            translationMap
              (processTranslations demo_translate
                 {| zip := Some demo_archive;
                    uniqueStrings := extract_reads demo_done;
                    translationMap := ∅ |}).1.1 |}, Ok z').
Proof.
  refine (proj2 (proj2
            (rehydration_after_translation parts_of demo_translate
               {| zip := Some demo_archive;
                  uniqueStrings := extract_reads demo_done;
                  translationMap := ∅ |} demo_archive _ eq_refl _))).
  - intros [|i] texts out; [|discriminate].
    intros H. apply (Ok_inj (E:=exn)) in H. subst out.
    apply length_map.
  - exact all_defined_empty.
Defined.
